(** * Logger: a lock-free, multithreaded logger (logger.hpp)

    Shallow embedding of [lock_free::que] and [log::Logger].

    The free store is a finite map from addresses to nodes.  Addresses are
    handed out by a counter and never reused, so that touching a released
    node is observable as a [Fault].  Threads are interleaved at the level
    of their accesses to shared objects (the atomic [head], the two
    mutexes, the [shutdown] flag, the output streams); what the environment
    decides (time stamps, whether a file opens, whether a stream operation
    throws, spurious failures of [compare_exchange_weak]) is an argument of
    the corresponding step.  The lines each file holds are part of the
    state: [std::ofstream] empties the file it opens. *)

From Stdlib Require Import ZArith Ascii String Lia.
From stdpp Require Import base option list gmap strings pretty.

Open Scope string_scope.
Open Scope list_scope.
Open Scope Z_scope.

(** ** Results of calls and steps *)

Inductive exn :=
| std_exception (what : string)
| unknown_exception.

(** What an operation of the environment does when it is called. *)
Inductive outcome :=
| Returns
| Throws (e : exn).

Inductive result (A : Type) :=
| Ok (a : A)          (* normal return *)
| Raise (e : exn)     (* an exception leaves the call *)
| Blocked             (* the caller waits: a mutex is taken, a thread to join still runs *)
| Fault               (* undefined behaviour: a dangling or null pointer, an index out of bounds *)
| OutOfFuel.          (* a loop did not finish within the given number of iterations *)
Arguments Ok {A} a.
Arguments Raise {A} e.
Arguments Blocked {A}.
Arguments Fault {A}.
Arguments OutOfFuel {A}.

Definition bind {A B} (r : result A) (k : A -> result B) : result B :=
  match r with
  | Ok a => k a
  | Raise e => Raise e
  | Blocked => Blocked
  | Fault => Fault
  | OutOfFuel => OutOfFuel
  end.

Notation "x <- r ;; k" := (bind r (fun x => k))
  (at level 100, r at next level, right associativity, only parsing).

(** ** namespace lock_free *)

Module lock_free.

Definition addr := nat.

(** [struct node]: the payload and the two links; [None] is [nullptr]. *)
Record node := mk_node {
  val : string;
  prev : option addr;
  next : option addr
}.

Definition set_prev (q : option addr) (n : node) : node :=
  mk_node (val n) q (next n).
Definition set_next (q : option addr) (n : node) : node :=
  mk_node (val n) (prev n) q.

(** [std::atomic<T>::compare_exchange_weak(expected, desired)] on the
    current value [cur]: the flag, the new value of the atomic, the new
    value of [expected].  The weak form may fail although the values are
    equal. *)
Definition compare_exchange_weak (spurious : bool)
    (cur expected desired : option addr) : bool * option addr * option addr :=
  if spurious then (false, cur, cur)
  else if decide (cur = expected) then (true, desired, expected)
  else (false, cur, cur).

End lock_free.
Export lock_free.

(** ** namespace log *)

Definition Trace : Z := 0.
Definition Debug : Z := 1.
Definition Info : Z := 2.
Definition Error : Z := 3.
Definition SeverityNumber : Z := 4.

Definition severity_names : list string := ["Trace"; "Debug"; "Info"; "Error"].

(** [severity_to_str]: the table is indexed without a check; [None] stands
    for the read outside the array. *)
Definition severity_to_str (level : Z) : option string :=
  if level <? 0 then None else severity_names !! Z.to_nat level.

(** Where a line went. *)
Inductive sink :=
| Console
| File (name : string).

(** [std::ofstream], as far as the logger looks at it. *)
Record ofstream := mk_ofstream {
  fname : string;
  is_open : bool
}.

(** Program points of the background thread running [get_it_done].  The
    flag [final] tells the pass after the loop from a pass inside it. *)
Inductive pc :=
| AtWhile                                   (* while (false == shutdown.load()) *)
| AtSleep                                   (* sleep_for *)
| AtLoad (final : bool)                     (* que.dump_que(): p = head.load() *)
| AtCas (final : bool) (p : option addr)    (* head.compare_exchange_weak(p, nullptr) *)
| AtGetTail (final : bool) (p : option addr) (* dump_que(p): if (p) p = get_tail(p) *)
| AtLock (final : bool) (t : addr)          (* lock_guard lock(log_stream_mutex) *)
| AtWrite (final : bool) (p : option addr)  (* while (p) { write; p = p->prev; delete } *)
| Exited.                                   (* the thread function has returned *)

(** The logger object together with the part of the world it acts on. *)
Record state := Make_state {
  (* free store *)
  heap : gmap addr node;
  brk : addr;
  (* lock_free::que *)
  head : option addr;
  (* nodes of push calls that have not yet linked their node *)
  pushing : list addr;
  (* log::Logger *)
  shutdown : bool;
  current_level : Z;
  current_timeout : Z;
  worker_mutex : bool;
  worker : option pc;
  log_stream_mutex : bool;
  log_stream : option ofstream;
  (* streams: every line inserted, where it went, in the order of the
     insertions; what went to [cerr]; the streams closed *)
  out : list (sink * string);
  cerr : list string;
  closed : list string;
  (* the files that hold lines, each with its lines *)
  files : list (string * list string)
}.

(** A state in which no file holds a line. *)
Definition mk_state (heap : gmap addr node) (brk : addr) (head : option addr)
    (pushing : list addr) (shutdown : bool) (current_level current_timeout : Z)
    (worker_mutex : bool) (worker : option pc) (log_stream_mutex : bool)
    (log_stream : option ofstream) (out : list (sink * string))
    (cerr closed : list string) : state :=
  Make_state heap brk head pushing shutdown current_level current_timeout
    worker_mutex worker log_stream_mutex log_stream out cerr closed [].

#[global] Instance exn_eq_dec : EqDecision exn.
Proof. solve_decision. Defined.
#[global] Instance node_eq_dec : EqDecision node.
Proof. solve_decision. Defined.
#[global] Instance sink_eq_dec : EqDecision sink.
Proof. solve_decision. Defined.
#[global] Instance ofstream_eq_dec : EqDecision ofstream.
Proof. solve_decision. Defined.
#[global] Instance pc_eq_dec : EqDecision pc.
Proof. solve_decision. Defined.

Definition set_heap (f : gmap addr node -> gmap addr node) (s : state) : state :=
  Make_state (f (heap s)) (brk s) (head s) (pushing s) (shutdown s) (current_level s)
    (current_timeout s) (worker_mutex s) (worker s) (log_stream_mutex s)
    (log_stream s) (out s) (cerr s) (closed s) (files s).
Definition set_brk (b : addr) (s : state) : state :=
  Make_state (heap s) b (head s) (pushing s) (shutdown s) (current_level s)
    (current_timeout s) (worker_mutex s) (worker s) (log_stream_mutex s)
    (log_stream s) (out s) (cerr s) (closed s) (files s).
Definition set_head (h : option addr) (s : state) : state :=
  Make_state (heap s) (brk s) h (pushing s) (shutdown s) (current_level s)
    (current_timeout s) (worker_mutex s) (worker s) (log_stream_mutex s)
    (log_stream s) (out s) (cerr s) (closed s) (files s).
Definition set_pushing (l : list addr) (s : state) : state :=
  Make_state (heap s) (brk s) (head s) l (shutdown s) (current_level s)
    (current_timeout s) (worker_mutex s) (worker s) (log_stream_mutex s)
    (log_stream s) (out s) (cerr s) (closed s) (files s).
Definition set_shutdown (b : bool) (s : state) : state :=
  Make_state (heap s) (brk s) (head s) (pushing s) b (current_level s)
    (current_timeout s) (worker_mutex s) (worker s) (log_stream_mutex s)
    (log_stream s) (out s) (cerr s) (closed s) (files s).
Definition set_worker_mutex (b : bool) (s : state) : state :=
  Make_state (heap s) (brk s) (head s) (pushing s) (shutdown s) (current_level s)
    (current_timeout s) b (worker s) (log_stream_mutex s)
    (log_stream s) (out s) (cerr s) (closed s) (files s).
Definition set_worker (w : option pc) (s : state) : state :=
  Make_state (heap s) (brk s) (head s) (pushing s) (shutdown s) (current_level s)
    (current_timeout s) (worker_mutex s) w (log_stream_mutex s)
    (log_stream s) (out s) (cerr s) (closed s) (files s).
Definition set_log_stream_mutex (b : bool) (s : state) : state :=
  Make_state (heap s) (brk s) (head s) (pushing s) (shutdown s) (current_level s)
    (current_timeout s) (worker_mutex s) (worker s) b
    (log_stream s) (out s) (cerr s) (closed s) (files s).
Definition set_log_stream (f : option ofstream) (s : state) : state :=
  Make_state (heap s) (brk s) (head s) (pushing s) (shutdown s) (current_level s)
    (current_timeout s) (worker_mutex s) (worker s) (log_stream_mutex s)
    f (out s) (cerr s) (closed s) (files s).
Definition set_files
    (f : list (string * list string) -> list (string * list string))
    (s : state) : state :=
  Make_state (heap s) (brk s) (head s) (pushing s) (shutdown s) (current_level s)
    (current_timeout s) (worker_mutex s) (worker s) (log_stream_mutex s)
    (log_stream s) (out s) (cerr s) (closed s) (f (files s)).

(** The lines the file [name] holds. *)
Fixpoint file_lines (name : string) (fs : list (string * list string))
    : list string :=
  match fs with
  | [] => []
  | x :: fs' => if String.eqb x.1 name then x.2 else file_lines name fs'
  end.

(** The file [name] is opened as [std::ofstream] opens it: it holds
    nothing any more. *)
Definition truncate (name : string) (fs : list (string * list string))
    : list (string * list string) :=
  filter (fun x => String.eqb x.1 name = false) fs.

(** A line has gone into a stream: on the console it stays; in a file it
    comes after the lines the file holds. *)
Definition append_line (d : sink) (line : string)
    (fs : list (string * list string)) : list (string * list string) :=
  match d with
  | Console => fs
  | File name => (name, file_lines name fs ++ [line]) :: truncate name fs
  end.

Definition put_out (d : sink) (line : string) (s : state) : state :=
  Make_state (heap s) (brk s) (head s) (pushing s) (shutdown s) (current_level s)
    (current_timeout s) (worker_mutex s) (worker s) (log_stream_mutex s)
    (log_stream s) (out s ++ [(d, line)]) (cerr s) (closed s)
    (append_line d line (files s)).
Definition put_cerr (line : string) (s : state) : state :=
  Make_state (heap s) (brk s) (head s) (pushing s) (shutdown s) (current_level s)
    (current_timeout s) (worker_mutex s) (worker s) (log_stream_mutex s)
    (log_stream s) (out s) (cerr s ++ [line]) (closed s) (files s).
Definition put_closed (name : string) (s : state) : state :=
  Make_state (heap s) (brk s) (head s) (pushing s) (shutdown s) (current_level s)
    (current_timeout s) (worker_mutex s) (worker s) (log_stream_mutex s)
    (log_stream s) (out s) (cerr s) (closed s ++ [name]) (files s).

(** ** lock_free::que *)

(** [que::push] up to and including [p->next = head.load()].  The node is
    fresh; the call is entered among the pushes in progress. *)
Definition push_begin (v : string) (s : state) : addr * state :=
  let p := brk s in
  (p, set_pushing (p :: pushing s)
        (set_heap (fun h => <[p := mk_node v None (head s)]> h)
           (set_brk (S p) s))).

(** One evaluation of the condition of
    [while (!head.compare_exchange_weak(p->next, p))]: the flag tells
    whether the loop, and with it [push], is left. *)
Definition push_cas (spurious : bool) (p : addr) (s : state) : result (bool * state) :=
  match heap s !! p with
  | None => Fault
  | Some n =>
    let '(ok, h, e) := compare_exchange_weak spurious (head s) (next n) (Some p) in
    let s1 := set_head h (set_heap (fun m => <[p := set_next e n]> m) s) in
    Ok (ok, if ok then set_pushing (filter (fun a => a ≠ p) (pushing s1)) s1 else s1)
  end.

(** The loop of [push] when no other thread acts in between and the
    exchange does not fail spuriously. *)
Fixpoint push_spin (fuel : nat) (p : addr) (s : state) : result state :=
  match fuel with
  | O => OutOfFuel
  | S f =>
    r <- push_cas false p s ;;
    if r.1 then Ok r.2 else push_spin f p r.2
  end.

Definition que_push (fuel : nat) (v : string) (s : state) : result state :=
  let '(p, s1) := push_begin v s in push_spin fuel p s1.

(** [que::dump_que] when no other thread acts in between: load, then
    exchange with [nullptr] until it succeeds. *)
Fixpoint take_spin (fuel : nat) (p : option addr) (s : state) : result (option addr * state) :=
  match fuel with
  | O => OutOfFuel
  | S f =>
    let '(ok, h, e) := compare_exchange_weak false (head s) p None in
    if ok then Ok (e, set_head h s) else take_spin f e (set_head h s)
  end.

Definition que_dump_que (fuel : nat) (s : state) : result (option addr * state) :=
  take_spin fuel (head s) s.

(** ** log::Logger, private part *)

(** [log_file_closer], the deleter of the shared stream: flush and close
    an open stream; an exception of the stream is reported and dropped. *)
Definition log_file_closer (close : outcome) (fout : ofstream) (s : state) : state :=
  if is_open fout then
    match close with
    | Returns => put_closed (fname fout) s
    | Throws (std_exception w) => put_cerr w s
    | Throws unknown_exception =>
        put_cerr "unknown exception happened on closing log file" s
    end
  else s.

(** The last owner of a stream lets go of it. *)
Definition release_stream (close : outcome) (f : option ofstream) (s : state) : state :=
  match f with
  | Some fout => log_file_closer close fout s
  | None => s
  end.

(** [get_tail]: walk forward, set every successor's [prev], return the
    last node.  One unit of fuel per evaluation of [p->next]. *)
Fixpoint get_tail (fuel : nat) (p : addr) (h : gmap addr node) : result (addr * gmap addr node) :=
  match fuel with
  | O => OutOfFuel
  | S f =>
    match h !! p with
    | None => Fault
    | Some n =>
      match next n with
      | None => Ok (p, h)
      | Some q =>
        match h !! q with
        | None => Fault
        | Some m => get_tail f q (<[q := set_prev (Some p) m]> h)
        end
      end
    end
  end.

(** What [write] leaves behind when it returns; [o] is what the stream
    insertion inside the [try] does, and the report of an exception, in
    the handler, is printed.  A file stream of the logger has no
    exception mask ([SetLogFile] makes the stream and sets none): a
    failure of its insertion is not thrown, whatever [Throws] carries;
    the line is lost and nothing is printed. *)
Definition written (msg : string) (o : outcome) (s : state) : state :=
  match o with
  | Returns =>
    match log_stream s with
    | Some tmp => if is_open tmp then put_out (File (fname tmp)) msg s
                  else put_out Console msg s
    | None => put_out Console msg s
    end
  | Throws e =>
    let report :=
      match e with
      | std_exception w => put_cerr w s
      | unknown_exception => put_cerr "unknown exception on writing" s
      end in
    match log_stream s with
    | Some tmp => if is_open tmp then s else report
    | None => report
    end
  end.

(** One turn of the loop of [dump_que]: write the value, step to [prev],
    release the node. *)
Definition dump_iter (p : addr) (o : outcome) (s : state) : result (option addr * state) :=
  match heap s !! p with
  | None => Fault
  | Some n =>
    let s1 := written (val n) o s in
    Ok (prev n, set_heap (fun h => delete p h) s1)
  end.

Fixpoint dump_loop (fuel : nat) (os : list outcome) (p : option addr) (s : state) : result state :=
  match p with
  | None => Ok s
  | Some a =>
    match fuel with
    | O => OutOfFuel
    | S f =>
      r <- dump_iter a (hd Returns os) s ;;
      dump_loop f (tl os) r.1 r.2
    end
  end.

(** [lock_guard<mutex>] on a mutex that is currently [held]. *)
Definition lock (o : outcome) (held : bool) : result bool :=
  match o with
  | Throws e => Raise e
  | Returns => if held then Blocked else Ok true
  end.

(** [Logger::dump_que(p)] as one call: [os] are the outcomes of the
    successive stream insertions. *)
Definition dump_que (os : list outcome) (p : option addr) (s : state) : result state :=
  match p with
  | None => Ok s
  | Some a =>
    r <- get_tail (size (heap s)) a (heap s) ;;
    m <- lock Returns (log_stream_mutex s) ;;
    s' <- dump_loop (size r.2) os (Some r.1)
            (set_log_stream_mutex m (set_heap (fun _ => r.2) s)) ;;
    Ok (set_log_stream_mutex false s')
  end.

Definition finish (final : bool) : pc := if final then Exited else AtWhile.

(** The body of [get_it_done] inside its [try], one step from the program
    point [w]. *)
Definition thread_body (spurious : bool) (o : outcome) (w : pc) (s : state) : result (pc * state) :=
  match w with
  | AtWhile => Ok (if shutdown s then AtLoad true else AtSleep, s)
  | AtSleep => Ok (AtLoad false, s)
  | AtLoad f => Ok (AtCas f (head s), s)
  | AtCas f p =>
    let '(ok, h, e) := compare_exchange_weak spurious (head s) p None in
    Ok (if ok then AtGetTail f e else AtCas f e, set_head h s)
  | AtGetTail f None => Ok (finish f, s)
  | AtGetTail f (Some p) =>
    r <- get_tail (size (heap s)) p (heap s) ;;
    Ok (AtLock f r.1, set_heap (fun _ => r.2) s)
  | AtLock f t =>
    m <- lock o (log_stream_mutex s) ;;
    Ok (AtWrite f (Some t), set_log_stream_mutex m s)
  | AtWrite f (Some p) =>
    r <- dump_iter p o s ;;
    Ok (AtWrite f r.1, r.2)
  | AtWrite f None => Ok (finish f, set_log_stream_mutex false s)
  | Exited => Blocked
  end.

(** [get_it_done]: one step of the background thread; an exception that
    reaches the handlers is printed and the function returns. *)
Definition get_it_done (spurious : bool) (o : outcome) (s : state) : result state :=
  match worker s with
  | None => Blocked
  | Some w =>
    match thread_body spurious o w s with
    | Ok (w', s') => Ok (set_worker (Some w') s')
    | Raise (std_exception what) =>
        Ok (set_worker (Some Exited) (put_cerr what s))
    | Raise unknown_exception =>
        Ok (set_worker (Some Exited)
              (put_cerr "unexpected error in background thread" s))
    | Blocked => Blocked
    | Fault => Fault
    | OutOfFuel => OutOfFuel
    end
  end.

(** ** log::Logger, public part *)

Definition init (timeout level : Z) : state :=
  mk_state ∅ O None [] false level timeout false None false None [] [] [].

(** [Logger()]. *)
Definition Logger_default : state := init 2 Debug.

(** [Logger(int timeout, Severity level)]. *)
Definition Logger_new (timeout level : Z) : result state :=
  if (level <? Trace) || (Error <? level) then
    Raise (std_exception "Log level is invalid")
  else if timeout <? 0 then
    Raise (std_exception "timeout cannot be negative")
  else Ok (init timeout level).

Definition dquote : string := String (ascii_of_nat 34) EmptyString.

(** [SetLogFile]: [open_ok] tells whether the new file opens, [close] what
    closing the replaced stream does.  [new std::ofstream(fname)] opens
    the file for writing from its start: a file that opens holds nothing
    any more, whatever it held.  The replaced stream has no other owner
    (copies are only made in [write], under the same mutex), so its
    deleter runs when the local pointer goes out of scope. *)
Definition SetLogFile (name : string) (open_ok : bool) (close : outcome)
    (s : state) : result state :=
  m <- lock Returns (log_stream_mutex s) ;;
  let s1 := set_log_stream_mutex m s in
  let s2 :=
    if decide (name = EmptyString) then
      release_stream close (log_stream s1) (set_log_stream None s1)
    else
      let fout := mk_ofstream name open_ok in
      if is_open fout then
        release_stream close (log_stream s1)
          (set_log_stream (Some fout) (set_files (truncate name) s1))
      else
        release_stream close (Some fout)
          (put_cerr ("cannot open log file " +:+ dquote +:+ name) s1)
  in
  Ok (set_log_stream_mutex false s2).

(** [StartBackGroundThread]. *)
Definition StartBackGroundThread (s : state) : result state :=
  match worker s with
  | Some _ => Ok s
  | None =>
    m <- lock Returns (worker_mutex s) ;;
    Ok (set_worker (Some AtWhile) (set_shutdown false s))
  end.

(** [ExitLogger] up to the call of [join]: the mutex stays taken. *)
Definition ExitLogger_enter (s : state) : result state :=
  match worker s with
  | None => Ok s
  | Some _ =>
    m <- lock Returns (worker_mutex s) ;;
    Ok (set_shutdown true (set_worker_mutex m s))
  end.

(** [ExitLogger] from the return of [join] to its end. *)
Definition ExitLogger_join (close : outcome) (s : state) : result state :=
  if worker_mutex s then
    match worker s with
    | Some Exited =>
      s' <- SetLogFile EmptyString true close (set_worker None s) ;;
      Ok (set_worker_mutex false s')
    | _ => Blocked
    end
  else Blocked.

(** [strcpy] stops at the first NUL. *)
Fixpoint strcpy (src : string) : string :=
  match src with
  | EmptyString => EmptyString
  | String c r => if Ascii.eqb c zero then EmptyString else String c (strcpy r)
  end.

Definition invalid_parameters (level : Z) (msg : string) : string :=
  "invalid parameters for Log function: " +:+ pretty level +:+ "; " +:+ msg.

(** The line built by [Log]; [ts] is what [datetime()] returns. *)
Definition format (ts name msg : string) : string :=
  strcpy (ts +:+ " " +:+ name +:+ ": " +:+ msg).

(** [Log] up to and including the first read of [head] in [push]: the
    node, if one was made. *)
Definition Log_enter (level : Z) (msg ts : string) (s : state)
    : result (option addr * state) :=
  if (level <? Trace) || (Error <? level) || bool_decide (msg = EmptyString) then
    Ok (None, put_cerr (invalid_parameters level msg) s)
  else if level >=? current_level s then
    match severity_to_str level with
    | None => Fault
    | Some name =>
      let '(p, s') := push_begin (format ts name msg) s in Ok (Some p, s')
    end
  else Ok (None, s).

(** [Log] as one call with no other thread acting in between. *)
Definition Log (fuel : nat) (level : Z) (msg ts : string) (s : state) : result state :=
  r <- Log_enter level msg ts s ;;
  match r.1 with
  | None => Ok r.2
  | Some p => push_spin fuel p r.2
  end.

(** ** Interleavings *)

Inductive action :=
| ALog (level : Z) (msg ts : string)   (* a thread calls Log, up to head.load() *)
| ACas (p : addr) (spurious : bool)    (* the push of node p tries its exchange *)
| ASetLogFile (name : string) (open_ok : bool) (close : outcome)
| AStart                               (* StartBackGroundThread *)
| AExit                                (* ExitLogger, up to join() *)
| AJoin (close : outcome)              (* ExitLogger, join() returns *)
| AWorker (spurious : bool) (o : outcome).  (* the background thread moves *)

Definition step (a : action) (s : state) : result state :=
  match a with
  | ALog level msg ts => r <- Log_enter level msg ts s ;; Ok r.2
  | ACas p spurious =>
    if bool_decide (p ∈ pushing s) then r <- push_cas spurious p s ;; Ok r.2
    else Blocked
  | ASetLogFile name open_ok close => SetLogFile name open_ok close s
  | AStart => StartBackGroundThread s
  | AExit => ExitLogger_enter s
  | AJoin close => ExitLogger_join close s
  | AWorker spurious o => get_it_done spurious o s
  end.

Fixpoint run (tr : list action) (s : state) : result state :=
  match tr with
  | [] => Ok s
  | a :: tr' => s' <- step a s ;; run tr' s'
  end.

(** ** Shape of the linked nodes *)

(** [chain link h p l]: following [link] from [p] visits exactly the
    addresses [l], all allocated in [h], and ends in [nullptr]. *)
Fixpoint chain (link : node -> option addr) (h : gmap addr node)
    (p : option addr) (l : list addr) : Prop :=
  match l with
  | [] => p = None
  | a :: l' => p = Some a /\ exists n, h !! a = Some n /\ chain link h (link n) l'
  end.

(** The payloads of the nodes [l], in this order. *)
Definition vals (h : gmap addr node) (l : list addr) : list string :=
  omap (fun a => val <$> h !! a) l.

(** No node of [l] has a backward link yet. *)
Definition unlinked (h : gmap addr node) (l : list addr) : Prop :=
  forall a, a ∈ l -> exists n, h !! a = Some n /\ prev n = None.

(** The heap [get_tail] leaves behind: the node after [pred] points back
    to [pred], and so on along [l]. *)
Fixpoint back_linked (h : gmap addr node) (pred : addr) (l : list addr) : gmap addr node :=
  match l with
  | [] => h
  | a :: l' => back_linked (alter (set_prev (Some pred)) a h) a l'
  end.

(** The payloads of all nodes of a store. *)
Definition payloads (h : gmap addr node) : list string :=
  (fun x => val x.2) <$> map_to_list h.

(** Every record still held by a node. *)
Definition pending (s : state) : list string := payloads (heap s).

(** The effect on the streams of writing the lines [vs] one after the
    other, the stream insertions behaving as [os] say. *)
Fixpoint writes (os : list outcome) (vs : list string) (s : state) : state :=
  match vs with
  | [] => s
  | v :: vs' => writes (tl os) vs' (written v (hd Returns os) s)
  end.

(** The store after the nodes [l] have been released. *)
Fixpoint released (l : list addr) (h : gmap addr node) : gmap addr node :=
  match l with
  | [] => h
  | a :: l' => released l' (delete a h)
  end.

(** Where [write] puts a line in state [s]. *)
Definition sink_of (s : state) : sink :=
  match log_stream s with
  | Some f => if is_open f then File (fname f) else Console
  | None => Console
  end.

(** ** Traces *)

(** The sanity check at the head of [Log]. *)
Definition valid_args (level : Z) (msg : string) : bool :=
  negb ((level <? Trace) || (Error <? level) || bool_decide (msg = EmptyString)).

(** The line a step hands to the queue, for a logger of threshold [T]. *)
Definition line_of (T : Z) (a : action) : option string :=
  match a with
  | ALog level msg ts =>
    if valid_args level msg && (level >=? T) then
      match severity_to_str level with
      | Some name => Some (format ts name msg)
      | None => None
      end
    else None
  | _ => None
  end.

(** The lines of the accepted [Log] calls of a trace, in call order. *)
Definition accepted (T : Z) (tr : list action) : list string :=
  omap (line_of T) tr.

(** No stream insertion and no lock throws in the background thread. *)
Definition quiet_action (a : action) : bool :=
  match a with
  | AWorker _ (Throws _) => false
  | _ => true
  end.

Definition quiet (tr : list action) : bool := forallb quiet_action tr.

(** No producer enters [Log]. *)
Definition no_log_action (a : action) : bool :=
  match a with
  | ALog _ _ _ => false
  | _ => true
  end.

Definition no_log (tr : list action) : bool := forallb no_log_action tr.

(** ** Invariants *)

(** The nodes the background thread holds at a program point. *)
Definition worker_chain (h : gmap addr node) (w : option pc) (lw : list addr) : Prop :=
  match w with
  | Some (AtGetTail _ p) => chain next h p lw /\ unlinked h lw
  | Some (AtLock _ t) => chain prev h (Some t) lw
  | Some (AtWrite _ p) => chain prev h p lw
  | _ => lw = []
  end.

(** Every allocated node is in exactly one place: linked from [head]
    ([lq]), held by the background thread ([lw]), owned by a push in
    progress, or lost ([L]) when the thread died holding it. *)
Record inv_at (L : gset addr) (lq lw : list addr) (s : state) : Prop := {
  inv_que : chain next (heap s) (head s) lq;
  inv_que_unlinked : unlinked (heap s) lq;
  inv_worker : worker_chain (heap s) (worker s) lw;
  inv_pushing : unlinked (heap s) (pushing s);
  inv_nodup : NoDup (lq ++ lw ++ pushing s);
  inv_dom : forall a, a ∈ dom (heap s) <-> a ∈ lq ++ lw ++ pushing s \/ a ∈ L;
  inv_leak : forall a, a ∈ L -> a ∉ lq ++ lw ++ pushing s;
  inv_brk : forall a, a ∈ dom (heap s) -> (a < brk s)%nat;
  inv_mutex : log_stream_mutex s = true <-> exists f p, worker s = Some (AtWrite f p)
}.

Definition inv (L : gset addr) (s : state) : Prop :=
  exists lq lw, inv_at L lq lw s.

(** Program points of the loop, as opposed to the pass after it. *)
Definition loop_pc (w : pc) : bool :=
  match w with
  | AtWhile | AtSleep | AtLoad false | AtCas false _ | AtGetTail false _
  | AtLock false _ | AtWrite false _ => true
  | _ => false
  end.

(** Program points from which the thread still empties the queue before
    it returns. *)
Definition before_last_take (w : pc) : bool :=
  match w with
  | AtGetTail true _ | AtLock true _ | AtWrite true _ | Exited => false
  | _ => true
  end.

(** While no [ExitLogger] is under way, a started thread is inside its
    loop and has not been told to stop. *)
Definition life (s : state) : Prop :=
  worker_mutex s = false ->
  forall w, worker s = Some w -> shutdown s = false /\ loop_pc w = true.

(** Once the producers are silent: whatever is still linked from [head]
    will be taken by the running thread. *)
Definition settling (s : state) : Prop :=
  pushing s = [] /\
  (head s <> None -> exists w, worker s = Some w /\ before_last_take w = true).




(** What the handlers of [write] and of [get_it_done] print. *)
Definition write_report (e : exn) : string :=
  match e with
  | std_exception what => what
  | unknown_exception => "unknown exception on writing"
  end.

Definition thread_report (e : exn) : string :=
  match e with
  | std_exception what => what
  | unknown_exception => "unexpected error in background thread"
  end.

(** ** The streams in full *)

(** What an insertion [stream << text << std::endl] does.  A stream
    throws only if its [exceptions()] mask has been set; otherwise a
    failure is kept in the state of the stream and the text is lost
    without a word.  The masks of [cout] and [cerr] are the
    application's. *)
Inductive insertion :=
| Put                 (* the text is in the stream *)
| Lost                (* the insertion failed and nothing was thrown *)
| Thrown (e : exn).   (* the insertion failed and threw *)

#[global] Instance insertion_eq_dec : EqDecision insertion.
Proof. solve_decision. Defined.

Definition insertion_of (o : outcome) : insertion :=
  match o with
  | Returns => Put
  | Throws e => Thrown e
  end.

(** [write]: [i] is what the insertion inside the [try] does, [report]
    what the insertion into [cerr] in the handler does; an exception of
    the latter leaves [write].  The file stream is the logger's own and
    has no exception mask: whatever fails there, nothing is thrown and
    no handler is entered. *)
Definition write (msg : string) (i report : insertion) (s : state)
    : result state :=
  match sink_of s with
  | File name =>
    match i with
    | Put => Ok (put_out (File name) msg s)
    | _ => Ok s
    end
  | Console =>
    match i with
    | Put => Ok (put_out Console msg s)
    | Lost => Ok s
    | Thrown e =>
      match report with
      | Put => Ok (put_cerr (write_report e) s)
      | Lost => Ok s
      | Thrown e' => Raise e'
      end
    end
  end.

(** One turn of the loop of [dump_que]: an exception that leaves [write]
    leaves the loop before the node is released. *)
Definition dump_iter_full (p : addr) (i report : insertion) (s : state)
    : result (option addr * state) :=
  match heap s !! p with
  | None => Fault
  | Some n =>
    s1 <- write (val n) i report s ;;
    Ok (prev n, set_heap (fun h => delete p h) s1)
  end.

(** The body of [get_it_done] inside its [try]: as [thread_body], the
    line write with the streams in full. *)
Definition thread_body_full (spurious : bool) (o : outcome)
    (i report : insertion) (w : pc) (s : state) : result (pc * state) :=
  match w with
  | AtWrite f (Some p) =>
    r <- dump_iter_full p i report s ;;
    Ok (AtWrite f r.1, r.2)
  | _ => thread_body spurious o w s
  end.

(** An exception on its way out of [dump_que] passes the [lock_guard],
    which lets go of the mutex. *)
Definition unwind (w : pc) (s : state) : state :=
  match w with
  | AtWrite _ _ => set_log_stream_mutex false s
  | _ => s
  end.

(** The handlers of [get_it_done]: [report'] is what their insertion into
    [cerr] does.  Then the thread function returns; an exception of the
    insertion leaves it. *)
Definition handlers (report' : insertion) (e : exn) (s : state) : result state :=
  match report' with
  | Put => Ok (set_worker (Some Exited) (put_cerr (thread_report e) s))
  | Lost => Ok (set_worker (Some Exited) s)
  | Thrown e' => Raise e'
  end.

(** [get_it_done], one step of the background thread, with the streams
    in full. *)
Definition get_it_done_full (spurious : bool) (o : outcome)
    (i report report' : insertion) (s : state) : result state :=
  match worker s with
  | None => Blocked
  | Some w =>
    match thread_body_full spurious o i report w s with
    | Ok (w', s') => Ok (set_worker (Some w') s')
    | Raise e => handlers report' e (unwind w s)
    | Blocked => Blocked
    | Fault => Fault
    | OutOfFuel => OutOfFuel
    end
  end.

(** A scenario: two records are queued, the thread has taken them,
    reordered them and holds the lock of the stream; [mid_pass] stops
    after the first of the two lines is written, [at_lock] just before
    the lock is taken. *)
Definition two_records : list action :=
  [AStart; ALog 1 "a" "t1"; ACas 0%nat false; ALog 2 "b" "t2"; ACas 1%nat false].

Definition at_lock : list action :=
  two_records ++ repeat (AWorker false Returns) 5.

Definition mid_pass : list action :=
  at_lock ++ repeat (AWorker false Returns) 2.

(** [push] called for each of [vs] in turn, by one thread and with no
    other thread acting in between. *)
Fixpoint push_all (fuel : nat) (vs : list string) (s : state) : result state :=
  match vs with
  | [] => Ok s
  | v :: vs' => s' <- que_push fuel v s ;; push_all fuel vs' s'
  end.

(** What [log_file_closer] prints when flushing or closing throws. *)
Definition close_report (e : exn) : string :=
  match e with
  | std_exception what => what
  | unknown_exception => "unknown exception happened on closing log file"
  end.

(** The string holds a NUL character. *)
Fixpoint has_nul (src : string) : bool :=
  match src with
  | EmptyString => false
  | String c r => Ascii.eqb c zero || has_nul r
  end.

(** Steps of a thread that is inside [Log]. *)
Definition producer_action (a : action) : bool :=
  match a with
  | ALog _ _ _ | ACas _ _ => true
  | _ => false
  end.

(** How far the thread is from returning once [shutdown] is set: a bound
    on the number of its steps, when it runs alone. *)
Definition stop_rank (w : pc) (s : state) : nat :=
  (match w with
   | Exited => 0
   | AtWrite true _ => 1
   | AtLock true _ => 2
   | AtGetTail true _ => 3
   | AtCas true p => if decide (head s = p) then 4 else 5
   | AtLoad true => 6
   | AtWhile => 7
   | AtWrite false _ => 8
   | AtLock false _ => 9
   | AtGetTail false _ => 10
   | AtCas false p => if decide (head s = p) then 11 else 12
   | AtLoad false => 13
   | AtSleep => 14
   end + size (heap s))%nat.

(** A thread that runs alone, without any failure. *)
Definition alone (n : nat) : list action := repeat (AWorker false Returns) n.

(** The payloads met when following [link] from [p], for at most [fuel]
    nodes. *)
Fixpoint walk (link : node -> option addr) (fuel : nat) (h : gmap addr node)
    (p : option addr) : list string :=
  match fuel with
  | O => []
  | S f =>
    match p with
    | None => []
    | Some a =>
      match h !! a with
      | Some n => val n :: walk link f h (link n)
      | None => []
      end
    end
  end.

(** The lines linked from [head], newest first. *)
Definition queued (s : state) : list string :=
  walk next (size (heap s)) (heap s) (head s).

(** The lines the thread holds, in the order in which it will write
    them. *)
Definition held (s : state) : list string :=
  match worker s with
  | Some (AtGetTail _ p) => rev (walk next (size (heap s)) (heap s) p)
  | Some (AtLock _ t) => walk prev (size (heap s)) (heap s) (Some t)
  | Some (AtWrite _ p) => walk prev (size (heap s)) (heap s) p
  | _ => []
  end.

(** The lines written, then the lines held by the thread, then the lines
    in the queue, oldest first. *)
Definition timeline (s : state) : list string :=
  (out s).*2 ++ held s ++ rev (queued s).

(** The line whose node this step links into the queue, if it does. *)
Definition linked_by (a : action) (s : state) : list string :=
  match a with
  | ACas p spurious =>
    match heap s !! p with
    | Some n =>
      if negb spurious && bool_decide (head s = next n)
         && bool_decide (p ∈ pushing s)
      then [val n] else []
    | None => []
    end
  | _ => []
  end.

(** The lines of a run in the order in which their pushes took effect. *)
Fixpoint linearized (tr : list action) (s : state) : list string :=
  match tr with
  | [] => []
  | a :: tr' =>
    linked_by a s ++
    match step a s with
    | Ok s' => linearized tr' s'
    | _ => []
    end
  end.

(** The order in which the thread writes the nodes it holds: a chain
    fresh from the queue is still newest first. *)
Definition write_order (w : option pc) (vs : list string) : list string :=
  match w with
  | Some (AtGetTail _ _) => rev vs
  | _ => vs
  end.

(** The file names of the [SetLogFile] calls of a trace that opened their
    file. *)
Definition opened_by (a : action) : option string :=
  match a with
  | ASetLogFile name true _ =>
      if decide (name = EmptyString) then None else Some name
  | _ => None
  end.

Definition opened (tr : list action) : list string := omap opened_by tr.

(** The stream kept by the logger is open, it was opened by a
    [SetLogFile] call, and every line in a file is in such a file. *)
Definition sink_ok (names : list string) (s : state) : Prop :=
  (forall f, log_stream s = Some f -> is_open f = true /\ fname f ∈ names) /\
  (forall d line, (d, line) ∈ out s ->
     d = Console \/ exists name, d = File name /\ name ∈ names).

(** The order in which [main] calls the logger: [SetLogFile] with a name
    whose file opens, [StartBackGroundThread], [ExitLogger] (entered,
    then returning from [join]), and again; calls of [Log] and steps of
    the background thread anywhere in between. *)
Inductive phase := Closed | Opened | Running | Stopping.

Fixpoint main_order (ph : phase) (tr : list action) : bool :=
  match tr with
  | [] => true
  | a :: tr =>
    match a, ph with
    | ASetLogFile name open_ok _, Closed =>
        negb (bool_decide (name = EmptyString)) && open_ok && main_order Opened tr
    | AStart, Opened => main_order Running tr
    | AExit, Running => main_order Stopping tr
    | AJoin _, Stopping => main_order Closed tr
    | (ALog _ _ _ | ACas _ _ | AWorker _ _), _ => main_order ph tr
    | _, _ => false
    end
  end.

Definition stream_open (s : state) : Prop :=
  exists f, log_stream s = Some f /\ is_open f = true.

Definition phase_inv (ph : phase) (s : state) : Prop :=
  match ph with
  | Closed => worker s = None
  | Opened => worker s = None /\ stream_open s
  | Running | Stopping => stream_open s
  end.

Definition all_files (s : state) : Prop :=
  forall d line, (d, line) ∈ out s -> exists name, d = File name.

(** [test_worker] of logger.cpp: the messages it builds in its string
    stream and its calls of [Log], [N] in the loop and one after it;
    [ts i] is what [datetime()] returns in the call number [i]. *)
Definition worker_message (id i : Z) : string :=
  "worker #" +:+ pretty id +:+ " is writing to the log: iteration " +:+ pretty i.

Definition worker_farewell (id : Z) : string :=
  "worker #" +:+ pretty id +:+ " is exiting".

Definition test_worker_loop (N : nat) (id level : Z) (ts : nat -> string)
    : list action :=
  ((fun i => ALog level (worker_message id (Z.of_nat i)) (ts i)) <$> seq 0 N)
  ++ [ALog level (worker_farewell id) (ts N)].

Definition test_worker (id level : Z) (ts : nat -> string) : list action :=
  test_worker_loop 5000 id level ts.

(** The calls of [Log] of [main] and of the fifty threads it starts on
    [test_worker]. *)
Definition main_logs (t0 : string) (ts : nat -> nat -> string) : list action :=
  ALog Debug "Start Logging" t0 ::
  flat_map (fun id => test_worker (Z.of_nat id) Info (ts id)) (seq 0 50).

(** What [strftime] gives for the format of [datetime]: nineteen
    characters, none of them NUL. *)
Definition stamp (ts : string) : bool :=
  (String.length ts =? 19)%nat && negb (has_nul ts).

(** The bytes [write] sends for a line: the line and the newline of
    [std::endl]. *)
Definition bytes (line : string) : Z := Z.of_nat (String.length line) + 1.

Definition total (l : list Z) : Z := foldr Z.add 0 l.

(** Two runs: a pass to the console, then a file is set and a third line
    goes to it; and the first calls of [main], with one record logged
    while the thread is stopped. *)
Definition swap_after_pass : list action :=
  at_lock ++ repeat (AWorker false Returns) 4 ++
  [ALog 3 "c" "t3"; ACas 2%nat false;
   ASetLogFile "log_file1.txt" true (Throws unknown_exception)] ++
  repeat (AWorker false Returns) 8.

Definition main_start : list action :=
  [ASetLogFile "log_file0.txt" true Returns; AStart;
   ALog 1 "Start Logging" "t0"; ACas 0%nat false] ++
  repeat (AWorker false Returns) 7 ++
  [ALog 2 "x" "t1"; AExit; ACas 1%nat false] ++
  repeat (AWorker false Returns) 8 ++
  [AJoin Returns; ALog 2 "y" "t2"; ACas 2%nat false;
   ASetLogFile "log_file1.txt" true Returns; AStart] ++
  repeat (AWorker false Returns) 7.

(** No call of [ExitLogger] returns from [join]. *)
Definition no_join_action (a : action) : bool :=
  match a with
  | AJoin _ => false
  | _ => true
  end.

Definition no_join (tr : list action) : bool := forallb no_join_action tr.

(** An [ExitLogger] is waiting in [join]: the thread either still has its
    last look at the queue before it, or at least [k] lines are written
    or in its hands. *)
Definition winding_down (k : nat) (s : state) : Prop :=
  shutdown s = true /\ worker_mutex s = true /\
  (k <= length (timeline s))%nat /\
  exists w, worker s = Some w /\
    (before_last_take w = true \/
     (k <= length (out s) + length (held s))%nat).

(** [ExitLogger] is called while a record is in the queue and a call of
    [Log] is under way; the call goes on, and another is made, while the
    caller waits in [join]. *)
Definition stop_called : list action :=
  [AStart; ALog 1 "a" "t1"; ACas 0%nat false; ALog 2 "b" "t2"].

Definition stop_waits : list action :=
  [ACas 1%nat false] ++ alone 8 ++ [ALog 3 "c" "t3"; ACas 2%nat false].

(** ** What the destinations hold *)

(** The lines that went into the sink [d], oldest first. *)
Definition lines_at (d : sink) (l : list (sink * string)) : list string :=
  (filter (fun x => x.1 = d) l).*2.

(** The lines on the console and the lines in the files. *)
Definition holdings (s : state) : list string :=
  lines_at Console (out s) ++ concat (files s).*2.

(** The files are those that [SetLogFile] calls have opened, [names],
    each once in the list; what the destinations hold has been written. *)
Definition disk_ok (names : list string) (s : state) : Prop :=
  sink_ok names s /\ NoDup (files s).*1 /\
  (forall n, n ∈ (files s).*1 -> n ∈ names) /\
  holdings s ⊆+ (out s).*2.

(** Every line written is still where it went. *)
Definition disk_exact (s : state) : Prop :=
  holdings s ≡ₚ (out s).*2 /\
  forall name, file_lines name (files s) = lines_at (File name) (out s).

(** A logger that is never started, and a file that is opened a second
    time. *)
Definition never_started : list action :=
  [ALog 1 "a" "t1"; ACas 0%nat false; AExit].

Definition opened_twice : list action :=
  [ASetLogFile "log.txt" true Returns; AStart; ALog 1 "a" "t1";
   ACas 0%nat false] ++ alone 9 ++ [ASetLogFile "log.txt" true Returns].

(** ** Lemmas on chains *)

Section chains.
Implicit Types (h : gmap addr node) (l : list addr) (p : option addr).

Lemma chain_agree link h h' p l :
  (forall a, a ∈ l -> h' !! a = h !! a) ->
  chain link h p l -> chain link h' p l.
Proof.
  revert p. induction l as [|a l IH]; intros p Hag; simpl; [done|].
  intros [-> (n & Hn & Hc)]. split; [done|]. exists n. split.
  - rewrite Hag; [done | left].
  - apply IH; [|done]. intros b Hb. apply Hag. by right.
Qed.

Lemma chain_allocated link h p l a :
  chain link h p l -> a ∈ l -> is_Some (h !! a).
Proof.
  revert p. induction l as [|b l IH]; intros p; simpl.
  - intros _ Hin. by apply elem_of_nil in Hin.
  - intros [-> (n & Hn & Hc)] Hin. apply elem_of_cons in Hin as [->|Hin]; eauto.
Qed.

Lemma chain_functional link h p l1 l2 :
  chain link h p l1 -> chain link h p l2 -> l1 = l2.
Proof.
  revert p l2. induction l1 as [|a l1 IH]; intros p [|b l2]; simpl.
  - done.
  - intros -> [? _]. done.
  - intros [-> _] ?. done.
  - intros [-> (n & Hn & Hc)] [[= <-] (n' & Hn' & Hc')].
    rewrite Hn in Hn'. injection Hn' as <-. f_equal. eauto.
Qed.

Lemma vals_cons h a l :
  vals h (a :: l) =
  match h !! a with Some n => val n :: vals h l | None => vals h l end.
Proof. unfold vals. simpl. by destruct (h !! a). Qed.

Lemma vals_agree h h' l :
  (forall a, a ∈ l -> val <$> h' !! a = val <$> h !! a) ->
  vals h' l = vals h l.
Proof.
  induction l as [|a l IH]; intros Hag; [done|].
  rewrite !vals_cons. rewrite IH by (intros b Hb; apply Hag; by right).
  specialize (Hag a ltac:(left)).
  destruct (h' !! a), (h !! a); simpl in Hag; congruence.
Qed.

Lemma vals_app h l1 l2 : vals h (l1 ++ l2) = vals h l1 ++ vals h l2.
Proof. unfold vals. apply omap_app. Qed.

Lemma vals_length link h p l : chain link h p l -> length (vals h l) = length l.
Proof.
  revert p. induction l as [|a l IH]; intros p; [done|].
  intros [-> (n & Hn & Hc)]. rewrite vals_cons, Hn. simpl.
  f_equal. eauto.
Qed.

Lemma back_linked_outside h pred l a :
  a ∉ l -> back_linked h pred l !! a = h !! a.
Proof.
  revert h pred. induction l as [|b l IH]; intros h pred Hnin; simpl; [done|].
  apply not_elem_of_cons in Hnin as [Hne Hnin].
  rewrite IH; [|done]. by rewrite lookup_alter_ne.
Qed.

Lemma back_linked_dom h pred l : dom (back_linked h pred l) = dom h.
Proof.
  revert h pred. induction l as [|b l IH]; intros h pred; simpl; [done|].
  rewrite IH. apply dom_alter_L.
Qed.

Lemma back_linked_val_next h pred l a :
  val <$> back_linked h pred l !! a = val <$> h !! a /\
  next <$> back_linked h pred l !! a = next <$> h !! a.
Proof.
  revert h pred. induction l as [|b l IH]; intros h pred; simpl; [done|].
  destruct (IH (alter (set_prev (Some pred)) b h) b) as [-> ->].
  destruct (decide (b = a)) as [->|Hne].
  - rewrite lookup_alter_eq. by destruct (h !! a).
  - by rewrite lookup_alter_ne.
Qed.

Lemma back_linked_pending h pred l :
  payloads (back_linked h pred l) ≡ₚ payloads h.
Proof.
  unfold payloads. revert h pred. induction l as [|b l IH]; intros h pred; simpl; [done|].
  rewrite IH. clear IH. destruct (h !! b) as [n|] eqn:Hb.
  - assert (alter (set_prev (Some pred)) b h = <[b := set_prev (Some pred) n]> (delete b h)) as ->.
    { apply map_eq. intros i. destruct (decide (b = i)) as [->|Hne].
      - by rewrite lookup_alter_eq, lookup_insert_eq, Hb.
      - by rewrite lookup_alter_ne, lookup_insert_ne, lookup_delete_ne. }
    rewrite map_to_list_insert by apply lookup_delete_eq.
    rewrite <- (insert_delete_id h b n) at 2 by done.
    rewrite (map_to_list_insert (delete b h) b n) by apply lookup_delete_eq.
    done.
  - assert (alter (set_prev (Some pred)) b h = h) as ->; [|done].
    apply map_eq. intros i. destruct (decide (b = i)) as [->|Hne].
    + by rewrite lookup_alter_eq, Hb.
    + by rewrite lookup_alter_ne.
Qed.

End chains.

(** ** [get_tail] *)

Section get_tail_spec.
Implicit Types (h : gmap addr node) (l : list addr).

Lemma insert_set_prev h q m x :
  h !! q = Some m -> <[q := set_prev x m]> h = alter (set_prev x) q h.
Proof.
  intros Hq. apply map_eq. intros i. destruct (decide (q = i)) as [->|Hne].
  - by rewrite lookup_insert_eq, lookup_alter_eq, Hq.
  - by rewrite lookup_insert_ne, lookup_alter_ne.
Qed.

Lemma chain_next_alter_prev h x a p l :
  chain next h p l -> chain next (alter (set_prev x) a h) p l.
Proof.
  revert p. induction l as [|b l IH]; intros p; [done|].
  intros [-> (n & Hn & Hc)]. split; [done|].
  destruct (decide (a = b)) as [->|Hne].
  - exists (set_prev x n). split; [by rewrite lookup_alter_eq, Hn|]. by apply IH.
  - exists n. split; [by rewrite lookup_alter_ne|]. by apply IH.
Qed.

Lemma last_cons_shift l : forall q p : addr, List.last (q :: l) p = List.last l q.
Proof.
  induction l as [|x l IH]; intros q p; [done|].
  change (List.last (x :: l) p = List.last (x :: l) q). by rewrite !IH.
Qed.

(** On a forward chain [p :: rest], [get_tail] needs one unit of fuel
    per node, returns the last node and leaves the back-linked heap. *)
Lemma get_tail_chain rest : forall h p fuel,
  chain next h (Some p) (p :: rest) ->
  (length rest < fuel)%nat ->
  get_tail fuel p h = Ok (List.last rest p, back_linked h p rest).
Proof.
  induction rest as [|q r IH]; intros h p fuel Hc Hf.
  - destruct fuel as [|f]; [simpl in Hf; lia|].
    destruct Hc as [_ (n & Hn & Hnil)]. simpl in Hnil.
    simpl. by rewrite Hn, Hnil.
  - destruct fuel as [|f]; [simpl in Hf; lia|].
    destruct Hc as [_ (n & Hn & Hc)].
    pose proof Hc as [Hq (m & Hm & Hc')].
    simpl get_tail. rewrite Hn, Hq, Hm.
    rewrite (insert_set_prev _ _ _ _ Hm).
    rewrite (IH (alter (set_prev (Some p)) q h) q f).
    + by rewrite last_cons_shift.
    + apply chain_next_alter_prev. split; [done|]. exists m. done.
    + simpl in Hf. lia.
Qed.

(** Following [prev] in the back-linked heap walks the forward chain in
    reverse; [acc] is the part already linked. *)
Lemma back_linked_chain_prev rest : forall h p acc,
  chain next h (Some p) (p :: rest) ->
  chain prev h (Some p) (p :: acc) ->
  NoDup (rest ++ p :: acc) ->
  chain prev (back_linked h p rest) (Some (List.last rest p))
    (rev rest ++ p :: acc).
Proof.
  induction rest as [|q r IH]; intros h p acc Hn Hp Hnd; [done|].
  destruct Hn as [_ (n & Hpn & Hq & (m & Hm & Hc))].
  rewrite <- app_comm_cons in Hnd. apply NoDup_cons in Hnd as [Hq_nin Hnd].
  assert (chain prev (alter (set_prev (Some p)) q h) (Some q) (q :: p :: acc)) as Hp'.
  { split; [done|]. exists (set_prev (Some p) m).
    split; [by rewrite lookup_alter_eq, Hm|].
    apply (chain_agree prev h); [|done].
    intros a Ha. rewrite lookup_alter_ne; [done|].
    intros ->. apply Hq_nin. apply elem_of_app. by right. }
  specialize (IH (alter (set_prev (Some p)) q h) q (p :: acc)).
  rewrite last_cons_shift.
  simpl rev. rewrite <- app_assoc.
  change ([q] ++ p :: acc) with (q :: p :: acc).
  apply IH; [| done |].
  - apply chain_next_alter_prev. split; [done|]. by exists m.
  - apply NoDup_app in Hnd as (Hr & Hdisj & Hpa).
    apply NoDup_app. split; [done|]. split.
    + intros a Har Haq. apply elem_of_cons in Haq as [->|Haq].
      * apply Hq_nin. apply elem_of_app. by left.
      * by apply (Hdisj a).
    + apply NoDup_cons. split; [|done].
      intros Hin. apply Hq_nin. apply elem_of_app. by right.
Qed.

End get_tail_spec.

(** ** The loop of [dump_que] *)

Section drain.
Implicit Types (s : state) (l : list addr).

Lemma set_heap_id s : set_heap (fun h => h) s = s.
Proof. by destruct s. Qed.

Lemma written_set_heap f v o s :
  written v o (set_heap f s) = set_heap f (written v o s).
Proof.
  unfold written. destruct o as [|[w|]]; simpl;
    destruct (log_stream s) as [[nm []]|]; done.
Qed.

Lemma written_set_mutex b v o s :
  written v o (set_log_stream_mutex b s) = set_log_stream_mutex b (written v o s).
Proof.
  unfold written. destruct o as [|[w|]]; simpl;
    destruct (log_stream s) as [[nm []]|]; done.
Qed.

Lemma writes_set_heap f os vs s :
  writes os vs (set_heap f s) = set_heap f (writes os vs s).
Proof.
  revert os s. induction vs as [|v vs IH]; intros os s; [done|].
  simpl. by rewrite written_set_heap, IH.
Qed.

Lemma writes_set_mutex b os vs s :
  writes os vs (set_log_stream_mutex b s) = set_log_stream_mutex b (writes os vs s).
Proof.
  revert os s. induction vs as [|v vs IH]; intros os s; [done|].
  simpl. by rewrite written_set_mutex, IH.
Qed.

Lemma written_heap v o s : heap (written v o s) = heap s.
Proof.
  unfold written. destruct o as [|[w|]]; simpl;
    destruct (log_stream s) as [[nm []]|]; done.
Qed.

Lemma written_out v o s :
  out (written v o s) = match o with
                      | Returns => out s ++ [(sink_of s, v)]
                      | Throws _ => out s
                      end.
Proof.
  unfold written, sink_of. destruct o as [|[|]]; simpl;
    by destruct (log_stream s) as [[? []]|].
Qed.

Lemma written_frame v o s :
  let s' := written v o s in
  heap s' = heap s /\ brk s' = brk s /\ head s' = head s /\
  pushing s' = pushing s /\ worker s' = worker s /\
  log_stream_mutex s' = log_stream_mutex s /\ log_stream s' = log_stream s /\
  shutdown s' = shutdown s /\ worker_mutex s' = worker_mutex s /\
  current_level s' = current_level s.
Proof.
  unfold written. destruct o as [|[|]]; simpl;
    destruct (log_stream s) as [[? []]|] eqn:E; simpl; rewrite ?E; done.
Qed.

Lemma released_lookup l : forall (h : gmap addr node) a,
  released l h !! a = if decide (a ∈ l) then None else h !! a.
Proof.
  induction l as [|b l IH]; intros h a.
  - destruct (decide (a ∈ [])) as [Hin|_]; [|done]. by apply elem_of_nil in Hin.
  - change (released (b :: l) h) with (released l (delete b h)). rewrite IH.
    destruct (decide (a ∈ l)) as [Hin|Hnin].
    + rewrite decide_True; [done | by right].
    + destruct (decide (a = b)) as [->|Hne].
      * rewrite decide_True by left. apply lookup_delete_eq.
      * rewrite decide_False; [by rewrite lookup_delete_ne|].
        intros Hin. apply elem_of_cons in Hin as [?|?]; done.
Qed.

(** The loop writes the payloads in the order of the backward chain
    and releases every node of it, whatever the stream does. *)
Lemma dump_loop_chain l : forall s p os fuel,
  chain prev (heap s) p l ->
  NoDup l ->
  (length l <= fuel)%nat ->
  dump_loop fuel os p s
  = Ok (set_heap (released l) (writes os (vals (heap s) l) s)).
Proof.
  induction l as [|a l IH]; intros s p os fuel Hc Hnd Hf.
  - simpl in Hc. subst p. destruct fuel; simpl; by rewrite set_heap_id.
  - destruct Hc as [-> (n & Hn & Hc)].
    destruct fuel as [|f]; [simpl in Hf; lia|].
    apply NoDup_cons in Hnd as [Hnin Hnd].
    simpl dump_loop. unfold dump_iter. rewrite Hn. simpl bind.
    rewrite (IH _ _ _ f).
    + rewrite vals_cons, Hn. simpl writes.
      rewrite writes_set_heap. f_equal.
      rewrite (vals_agree (heap s)); [done|].
      intros b Hb. simpl. rewrite written_heap, lookup_delete_ne; [done|].
      by intros ->.
    + simpl. rewrite written_heap. apply (chain_agree prev (heap s)); [|done].
      intros b Hb. rewrite lookup_delete_ne; [done | by intros ->].
    + done.
    + simpl in Hf. lia.
Qed.

End drain.

(** ** Preservation of the shape invariant *)

Section shape.
Implicit Types (s : state) (h : gmap addr node) (l lq lw : list addr) (L : gset addr).

Lemma unlinked_agree h h' l :
  (forall a, a ∈ l -> h' !! a = h !! a) -> unlinked h l -> unlinked h' l.
Proof. intros Hag Hu a Ha. rewrite Hag by done. by apply Hu. Qed.

Lemma worker_chain_agree h h' w lw :
  (forall a, a ∈ lw -> h' !! a = h !! a) ->
  worker_chain h w lw -> worker_chain h' w lw.
Proof.
  intros Hag. destruct w as [[]|]; simpl; try done.
  - intros [Hc Hu]. split; [by apply (chain_agree next h) | by apply (unlinked_agree h)].
  - by apply chain_agree.
  - by apply chain_agree.
Qed.

Lemma chain_nil link h l : chain link h None l -> l = [].
Proof. destruct l; [done|]. by intros [? _]. Qed.

(** Steps that leave the store, the queue and the thread alone. *)
Lemma inv_at_frame L lq lw s s' :
  heap s' = heap s -> brk s' = brk s -> head s' = head s ->
  pushing s' = pushing s -> worker s' = worker s ->
  log_stream_mutex s' = log_stream_mutex s ->
  inv_at L lq lw s -> inv_at L lq lw s'.
Proof.
  intros Hh Hb Hd Hp Hw Hm [Hque Hqun Hwk Hpu Hnd0 Hdom0 Hleak Hbrk Hmx].
  split; rewrite ?Hh, ?Hb, ?Hd, ?Hp, ?Hw, ?Hm; done.
Qed.

Lemma inv_at_below L lq lw s a :
  inv_at L lq lw s -> a ∈ lq ++ lw ++ pushing s -> (a < brk s)%nat.
Proof. intros [Hque Hqun Hwk Hpu Hnd0 Hdom0 Hleak Hbrk Hmx] Ha. apply Hbrk. apply Hdom0. by left. Qed.

Lemma nodup_length_size h l :
  NoDup l -> (forall a, a ∈ l -> a ∈ dom h) -> (length l <= size h)%nat.
Proof.
  intros Hnd Hsub. rewrite <- size_dom.
  rewrite <- (size_list_to_set (C := gset addr) l Hnd).
  apply subseteq_size. intros a Ha. apply elem_of_list_to_set in Ha. auto.
Qed.

(** [que::push], first half. *)
Lemma push_begin_inv L lq lw s v :
  inv_at L lq lw s -> inv_at L lq lw (push_begin v s).2.
Proof.
  intros Hinv. pose proof (fun a => inv_at_below _ _ _ _ a Hinv) as Hlt.
  destruct Hinv as [Hque Hqun Hwk Hpu Hnd0 Hdom0 Hleak Hbrk Hmx]. unfold push_begin. simpl.
  assert (Hfresh : brk s ∉ dom (heap s)).
  { intros Hin. apply Hbrk in Hin. lia. }
  assert (Hag : forall a, a ∈ lq ++ lw ++ pushing s ->
            <[brk s := mk_node v None (head s)]> (heap s) !! a = heap s !! a).
  { intros a Ha. apply lookup_insert_ne. intros <-. apply Hlt in Ha. lia. }
  split; simpl.
  - apply (chain_agree next (heap s)); [|done]. intros a Ha. apply Hag. set_solver.
  - apply (unlinked_agree (heap s)); [|done]. intros a Ha. apply Hag. set_solver.
  - apply (worker_chain_agree (heap s)); [|done]. intros a Ha. apply Hag. set_solver.
  - intros a Ha. apply elem_of_cons in Ha as [->|Ha].
    + rewrite lookup_insert_eq. eauto.
    + rewrite Hag by set_solver. by apply Hpu.
  - assert (brk s ∉ lq ++ lw ++ pushing s) by (intros Hin; apply Hlt in Hin; lia).
    revert Hnd0 H. rewrite !NoDup_app, NoDup_cons. set_solver.
  - intros a. rewrite dom_insert_L, elem_of_union, elem_of_singleton, Hdom0.
    set_solver.
  - intros a Ha Hin. assert (a ∈ dom (heap s)) as Hd by (apply Hdom0; by right).
    apply Hbrk in Hd.
    assert (a ∈ lq ++ lw ++ pushing s \/ a = brk s) as [?| ->] by set_solver.
    + by apply (Hleak a).
    + lia.
  - intros a. rewrite dom_insert_L, elem_of_union, elem_of_singleton.
    intros [->|Ha]; [lia|]. apply Hbrk in Ha. lia.
  - done.
Qed.

End shape.

Section shape_push.
Implicit Types (s : state) (h : gmap addr node) (l lq lw : list addr) (L : gset addr).
Lemma pushing_apart lq lw (ps : list addr) p a :
  NoDup (lq ++ lw ++ ps) -> p ∈ ps -> a ∈ lq ++ lw -> a <> p.
Proof. rewrite !NoDup_app. set_solver. Qed.

(** [que::push], one exchange. *)
Lemma push_cas_inv L lq lw s spurious p :
  inv_at L lq lw s -> p ∈ pushing s ->
  exists ok s', push_cas spurious p s = Ok (ok, s') /\
    inv_at L (if ok then p :: lq else lq) lw s'.
Proof.
  intros Hinv Hp. pose proof (fun a => inv_at_below _ _ _ _ a Hinv) as Hlt.
  destruct Hinv as [Hque Hqun Hwk Hpu Hnd0 Hdom0 Hleak Hbrk Hmx].
  destruct (Hpu p Hp) as (n & Hn & Hprev).
  pose proof (fun a => pushing_apart _ _ _ p a Hnd0 Hp) as Hne.
  assert (Hag : forall e a, a <> p ->
            <[p := set_next e n]> (heap s) !! a = heap s !! a).
  { intros e a Ha. by apply lookup_insert_ne. }
  assert (Hdom : forall e, dom (<[p := set_next e n]> (heap s)) = dom (heap s)).
  { intros e. rewrite dom_insert_L. apply elem_of_dom_2 in Hn. set_solver. }
  assert (Hfail : inv_at L lq lw
    (set_head (head s) (set_heap (fun m => <[p := set_next (head s) n]> m) s))).
  { split; simpl; rewrite ?Hdom; try done.
    - apply (chain_agree next (heap s)); [|done].
      intros a Ha. apply Hag, Hne. set_solver.
    - apply (unlinked_agree (heap s)); [|done].
      intros a Ha. apply Hag, Hne. set_solver.
    - apply (worker_chain_agree (heap s)); [|done].
      intros a Ha. apply Hag, Hne. set_solver.
    - intros a Ha. destruct (decide (a = p)) as [->|Hap].
      + rewrite lookup_insert_eq. eauto.
      + rewrite Hag by done. by apply Hpu. }
  unfold push_cas. rewrite Hn. unfold compare_exchange_weak.
  destruct spurious; [by exists false; eexists|].
  destruct (decide (head s = next n)) as [Heq|]; [|by exists false; eexists].
  exists true. eexists. split; [done|].
  split; simpl; rewrite ?Hdom; try done.
  - split; [done|]. exists (set_next (next n) n).
    split; [by rewrite lookup_insert_eq|]. simpl. rewrite <- Heq.
    apply (chain_agree next (heap s)); [|done].
    intros a Ha. apply Hag, Hne. set_solver.
  - intros a Ha. apply elem_of_cons in Ha as [->|Ha].
    + rewrite lookup_insert_eq. eauto.
    + rewrite Hag by (apply Hne; set_solver). by apply Hqun.
  - apply (worker_chain_agree (heap s)); [|done].
    intros a Ha. apply Hag, Hne. set_solver.
  - intros a Ha. apply list_elem_of_filter in Ha as [Hap Ha].
    rewrite Hag by done. by apply Hpu.
  - revert Hnd0 Hne Hp. rewrite NoDup_cons, !NoDup_app.
    intros (Hq & Hd1 & Hw & Hd2 & Hps) Hne Hp'.
    split_and!; try done.
    + intros Hin. apply elem_of_app in Hin as [Hin|Hin]; [by apply (Hne p); set_solver|].
      apply elem_of_app in Hin as [Hin|Hin]; [by apply (Hne p); set_solver|].
      apply list_elem_of_filter in Hin as [? _]. done.
    + intros a Ha Hin. apply (Hd1 a Ha).
      apply elem_of_app in Hin as [Hin|Hin]; apply elem_of_app; [by left|right].
      by apply list_elem_of_filter in Hin as [_ ?].
    + intros a Ha Hin. apply (Hd2 a Ha).
      by apply list_elem_of_filter in Hin as [_ ?].
    + by apply NoDup_filter.
  - intros a. rewrite Hdom0.
    rewrite elem_of_cons, !elem_of_app, list_elem_of_filter.
    destruct (decide (a = p)) as [->|]; tauto.
  - intros a Ha Hin. apply (Hleak a Ha). revert Hin.
    rewrite elem_of_cons, !elem_of_app, list_elem_of_filter.
    intros [->|[?|[?|[_ ?]]]]; tauto.
Qed.

End shape_push.

Section shape_thread.
Implicit Types (s : state) (h : gmap addr node) (l lq lw : list addr) (L : gset addr).
Ltac mutex_iff H Hw :=
  split;
  [ let Hm := fresh in
    intros Hm; try (apply H in Hm as (? & ? & ?); rewrite Hw in *;
                    simplify_eq); eauto
  | intros (? & ? & ?); simplify_eq; try done;
    try (apply H; rewrite Hw; eauto) ].

(** One step of the thread inside the [try] of [get_it_done]. *)
Lemma thread_body_inv L lq lw s spurious o w :
  inv_at L lq lw s -> worker s = Some w ->
  match thread_body spurious o w s with
  | Ok (w', s') => exists lq' lw', inv_at L lq' lw' (set_worker (Some w') s')
  | Raise e => exists f t, w = AtLock f t /\ o = Throws e
  | Blocked => True
  | Fault | OutOfFuel => False
  end.
Proof.
  intros Hinv Hw. pose proof Hinv as [Hque Hqun Hwk Hpu Hnd0 Hdom0 Hleak Hbrk Hmx].
  rewrite Hw in Hwk.
  destruct w as [| |f|f p|f [p|]|f t|f [p|]|]; simpl thread_body.
  - (* AtWhile *)
    simpl in Hwk. subst lw. exists lq, [].
    split; simpl; try done.
    + by destruct (shutdown s).
    + destruct (shutdown s); mutex_iff Hmx Hw.
  - (* AtSleep *)
    simpl in Hwk. subst lw. exists lq, [].
    split; simpl; try done. mutex_iff Hmx Hw.
  - (* AtLoad *)
    simpl in Hwk. subst lw. exists lq, [].
    split; simpl; try done. mutex_iff Hmx Hw.
  - (* AtCas *)
    simpl in Hwk. subst lw. unfold compare_exchange_weak.
    assert (Hfail : exists lq' lw', inv_at L lq' lw'
              (set_worker (Some (AtCas f (head s))) (set_head (head s) s))).
    { exists lq, []. split; simpl; try done. mutex_iff Hmx Hw. }
    destruct spurious; [done|].
    destruct (decide (head s = p)) as [Heq|]; [|done].
    exists [], lq. split; simpl; try done.
    + intros a Ha. by apply elem_of_nil in Ha.
    + by rewrite <- Heq.
    + mutex_iff Hmx Hw.
  - (* AtGetTail, non-empty *)
    destruct Hwk as [Hc Hu].
    destruct lw as [|p' rest]; [done|].
    pose proof Hc as [[= <-] _].
    pose proof Hnd0 as Hnd1.
    apply NoDup_app in Hnd1 as (Hq & Hd1 & Hwp).
    apply NoDup_app in Hwp as (Hnd & Hd2 & Hps).
    rewrite (get_tail_chain rest); [|done|].
    2:{ assert (length (p :: rest) <= size (heap s))%nat; [|simpl in *; lia].
        apply nodup_length_size; [done|].
        intros a Ha. apply Hdom0. left.
        apply elem_of_app. right. apply elem_of_app. by left. }
    simpl. exists lq, (rev rest ++ [p]).
    assert (Hperm : rev rest ++ [p] ≡ₚ p :: rest).
    { rewrite <- Permutation_cons_append. by rewrite <- Permutation_rev. }
    assert (Hout : forall a, a ∈ lq ++ pushing s ->
              back_linked (heap s) p rest !! a = heap s !! a).
    { intros a Ha. apply back_linked_outside. intros Hin.
      apply elem_of_app in Ha as [Ha|Ha].
      - apply (Hd1 a Ha). apply elem_of_app. left. by right.
      - apply (Hd2 a); [by right | done]. }
    split; simpl; rewrite ?back_linked_dom; try done.
    + apply (chain_agree next (heap s)); [|done].
      intros a Ha. apply Hout. apply elem_of_app. by left.
    + apply (unlinked_agree (heap s)); [|done].
      intros a Ha. apply Hout. apply elem_of_app. by left.
    + apply (back_linked_chain_prev rest (heap s) p []); [done| |].
      * destruct (Hu p ltac:(left)) as (n & Hn & Hprev).
        split; [done|]. exists n. done.
      * by rewrite <- Permutation_cons_append.
    + apply (unlinked_agree (heap s)); [|done].
      intros a Ha. apply Hout. apply elem_of_app. by right.
    + by rewrite Hperm.
    + intros a. rewrite Hperm. apply Hdom0.
    + intros a Ha. rewrite Hperm. by apply Hleak.
    + mutex_iff Hmx Hw.
  - (* AtGetTail, empty *)
    destruct Hwk as [Hc _]. apply chain_nil in Hc. subst lw.
    exists lq, []. split; simpl; try done.
    + by destruct f.
    + destruct f; mutex_iff Hmx Hw.
  - (* AtLock *)
    destruct o as [|e]; simpl; [|eauto].
    destruct (log_stream_mutex s) eqn:Hm; simpl; [done|].
    exists lq, lw. split; simpl; try done.
    split; eauto.
  - (* AtWrite, a node left *)
    destruct lw as [|p' l']; [done|].
    destruct Hwk as [[= <-] (n & Hn & Hc)].
    unfold dump_iter. rewrite Hn. simpl.
    pose proof Hnd0 as Hnd1.
    apply NoDup_app in Hnd1 as (Hq & Hd1 & Hwp).
    apply NoDup_app in Hwp as (Hnd & Hd2 & Hps).
    apply NoDup_cons in Hnd as [Hpl Hnd].
    assert (Hag : forall a, a ∈ lq ++ l' ++ pushing s ->
              delete p (heap s) !! a = heap s !! a).
    { intros a Ha. apply lookup_delete_ne. intros <-.
      apply elem_of_app in Ha as [Ha|Ha].
      - apply (Hd1 p Ha). apply elem_of_app. left. by left.
      - apply elem_of_app in Ha as [Ha|Ha]; [done|].
        apply (Hd2 p); [by left | done]. }
    destruct (written_frame (val n) o s)
      as (Hwh & Hwb & Hwhd & Hwpu & Hww & Hwm & _).
    exists lq, l'. split; simpl; rewrite ?Hwh, ?Hwb, ?Hwhd, ?Hwpu, ?Hww, ?Hwm.
    + apply (chain_agree next (heap s)); [|done].
      intros a Ha. apply Hag. apply elem_of_app. by left.
    + apply (unlinked_agree (heap s)); [|done].
      intros a Ha. apply Hag. apply elem_of_app. by left.
    + apply (chain_agree prev (heap s)); [|done].
      intros a Ha. apply Hag. apply elem_of_app. right. apply elem_of_app. by left.
    + apply (unlinked_agree (heap s)); [|done].
      intros a Ha. apply Hag. apply elem_of_app. right. apply elem_of_app. by right.
    + apply NoDup_app. split; [done|]. split.
      * intros a Ha Hin. apply (Hd1 a Ha).
        apply elem_of_app in Hin as [Hin|Hin]; apply elem_of_app;
          [left; by right | by right].
      * apply NoDup_app. split; [done|]. split; [|done].
        intros a Ha. apply Hd2. by right.
    + intros a. rewrite dom_delete_L, elem_of_difference, Hdom0.
      rewrite elem_of_singleton. split.
      * intros [[Hin|Hin] Hne]; [left|by right].
        apply elem_of_app in Hin as [Hin|Hin]; apply elem_of_app; [by left|right].
        apply elem_of_app in Hin as [Hin|Hin]; apply elem_of_app; [left|by right].
        apply elem_of_cons in Hin as [?|?]; done.
      * intros [Hin|Hin].
        -- split.
           ++ left. apply elem_of_app in Hin as [Hin|Hin]; apply elem_of_app;
                [by left|right].
              apply elem_of_app in Hin as [Hin|Hin]; apply elem_of_app;
                [left; by right | by right].
           ++ intros ->. specialize (Hag p Hin).
              rewrite lookup_delete_eq, Hn in Hag. done.
        -- split; [by right|]. intros ->. apply (Hleak p Hin).
           apply elem_of_app. right. apply elem_of_app. left. by left.
    + intros a Ha Hin. apply (Hleak a Ha).
      apply elem_of_app in Hin as [Hin|Hin]; apply elem_of_app; [by left|right].
      apply elem_of_app in Hin as [Hin|Hin]; apply elem_of_app;
        [left; by right | by right].
    + intros a. rewrite dom_delete_L, elem_of_difference. intros [Ha _].
      by apply Hbrk.
    + split; eauto. intros _. apply Hmx. rewrite Hw. eauto.
  - (* AtWrite, done *)
    simpl in Hwk. apply chain_nil in Hwk. subst lw.
    exists lq, []. split; simpl; try done.
    + by destruct f.
    + split; [done|]. by destruct f; intros (? & ? & ?).
  - (* Exited *)
    done.
Qed.

End shape_thread.

Section shape_step.
Implicit Types (s : state) (h : gmap addr node) (l lq lw : list addr) (L : gset addr).
Lemma get_it_done_inv L s spurious o :
  inv L s ->
  get_it_done spurious o s = Blocked \/
  exists s' L', get_it_done spurious o s = Ok s' /\ inv L' s' /\
    (o = Returns -> L' = L).
Proof.
  intros (lq & lw & Hinv). unfold get_it_done.
  destruct (worker s) as [w|] eqn:Hw; [|by left].
  pose proof (thread_body_inv L lq lw s spurious o w Hinv Hw) as Hstep.
  destruct (thread_body spurious o w s) as [[w' s']|e| | |]; try done.
  - right. exists (set_worker (Some w') s'), L. done.
  - right. destruct Hstep as (f & t & -> & ->).
    assert (forall what, inv (L ∪ list_to_set lw)
              (set_worker (Some Exited) (put_cerr what s))) as Hdead.
    { intros what. exists lq, []. destruct Hinv as [Hque Hqun Hwk Hpu Hnd0 Hdom0 Hleak Hbrk Hmx]. split; simpl; try done.
      - revert Hnd0. rewrite !NoDup_app. set_solver.
      - intros a. rewrite Hdom0. set_solver.
      - intros a Ha Hin. apply elem_of_union in Ha as [Ha|Ha].
        + apply (Hleak a Ha). set_solver.
        + revert Hnd0. rewrite !NoDup_app. set_solver.
      - split; [|by intros (? & ? & ?)].
        intros Hm. apply Hmx in Hm as (? & ? & ?). congruence. }
    destruct e as [what|]; eexists _, _; (split; [done|]); split; eauto; done.
  - by left.
Qed.

Lemma release_stream_frame close f s :
  let s' := release_stream close f s in
  heap s' = heap s /\ brk s' = brk s /\ head s' = head s /\
  pushing s' = pushing s /\ worker s' = worker s /\
  log_stream_mutex s' = log_stream_mutex s /\
  log_stream s' = log_stream s /\ out s' = out s /\
  shutdown s' = shutdown s /\ worker_mutex s' = worker_mutex s /\
  current_level s' = current_level s.
Proof.
  destruct f as [[nm op]|]; simpl; [|done]. unfold log_file_closer. simpl.
  destruct op; [|done]. by destruct close as [|[|]].
Qed.

(** What [SetLogFile] leaves alone. *)
Lemma SetLogFile_frame name open_ok close s s' :
  SetLogFile name open_ok close s = Ok s' ->
  heap s' = heap s /\ brk s' = brk s /\ head s' = head s /\
  pushing s' = pushing s /\ worker s' = worker s /\
  log_stream_mutex s' = log_stream_mutex s /\ out s' = out s /\
  shutdown s' = shutdown s /\ worker_mutex s' = worker_mutex s /\
  current_level s' = current_level s.
Proof.
  unfold SetLogFile. destruct (log_stream_mutex s) eqn:Hm; simpl; [done|].
  intros [= <-]. simpl.
  destruct (decide (name = EmptyString)).
  - match goal with |- context [release_stream ?c ?f ?t] =>
      destruct (release_stream_frame c f t)
        as (-> & -> & -> & -> & -> & _ & _ & -> & -> & -> & ->) end.
    done.
  - destruct open_ok; simpl.
    + match goal with |- context [release_stream ?c ?f ?t] =>
        destruct (release_stream_frame c f t)
          as (-> & -> & -> & -> & -> & _ & _ & -> & -> & -> & ->) end.
      done.
    + unfold log_file_closer. simpl. done.
Qed.

Lemma SetLogFile_inv L s name open_ok close s' :
  inv L s -> SetLogFile name open_ok close s = Ok s' -> inv L s'.
Proof.
  intros (lq & lw & Hinv) Hs.
  apply SetLogFile_frame in Hs as (? & ? & ? & ? & ? & ? & _).
  exists lq, lw. by apply (inv_at_frame L lq lw s).
Qed.

Lemma severity_to_str_in_range level :
  Trace <= level <= Error -> is_Some (severity_to_str level).
Proof.
  unfold Trace, Error. intros Hr.
  assert (level = 0 \/ level = 1 \/ level = 2 \/ level = 3) as Hcases by lia.
  destruct Hcases as [-> | [-> | [-> | ->]]]; by eexists.
Qed.

Lemma valid_args_spec level msg :
  valid_args level msg = true <->
  Trace <= level <= Error /\ msg <> EmptyString.
Proof.
  unfold valid_args. rewrite negb_true_iff, !orb_false_iff.
  rewrite !Z.ltb_ge, bool_decide_eq_false. tauto.
Qed.

Lemma Log_enter_inv L s level msg ts :
  inv L s ->
  exists r, Log_enter level msg ts s = Ok r /\ inv L r.2.
Proof.
  intros (lq & lw & Hinv). unfold Log_enter.
  destruct (_ || _ || _) eqn:Hbad.
  - eexists. split; [done|]. exists lq, lw. by apply (inv_at_frame L lq lw s).
  - destruct (level >=? current_level s) eqn:Hge.
    + destruct (severity_to_str_in_range level) as [nm ->].
      { apply (valid_args_spec level msg). unfold valid_args. by rewrite Hbad. }
      pose proof (push_begin_inv L lq lw s (format ts nm msg) Hinv) as Hpush.
      destruct (push_begin (format ts nm msg) s) as [p s1].
      eexists. split; [done|]. by exists lq, lw.
    + eexists. split; [done|]. by exists lq, lw.
Qed.

Lemma step_inv L s a :
  inv L s ->
  step a s = Blocked \/
  exists s' L', step a s = Ok s' /\ inv L' s' /\
    (quiet_action a = true -> L' = L).
Proof.
  intros Hinv. destruct a as [level msg ts|p sp|name open_ok close| | |close|sp o];
    simpl step.
  - destruct (Log_enter_inv L s level msg ts Hinv) as (r & -> & Hr).
    right. by exists r.2, L.
  - case_bool_decide as Hp; [|by left].
    destruct Hinv as (lq & lw & Hinv).
    destruct (push_cas_inv L lq lw s sp p Hinv Hp) as (ok & s' & -> & Hs').
    right. exists s', L. split; [done|]. split; [|done]. eexists _, _. done.
  - destruct (SetLogFile name open_ok close s) as [s'| | | |] eqn:Hs;
      try (by left);
      try (by unfold SetLogFile in Hs; destruct (log_stream_mutex s)).
    right. exists s', L. split; [done|]. split; [|done].
    by apply (SetLogFile_inv L s name open_ok close).
  - unfold StartBackGroundThread.
    destruct (worker s) as [w|] eqn:Hw; [right; by exists s, L|].
    destruct (worker_mutex s); simpl; [by left|].
    right. eexists _, L. split; [done|]. split; [|done].
    destruct Hinv as (lq & lw & [Hque Hqun Hwk Hpu Hnd0 Hdom0 Hleak Hbrk Hmx]). rewrite Hw in *. simpl in Hwk.
    exists lq, lw. split; simpl; try done.
    split; [|by intros (? & ? & ?)].
    intros Hm. apply Hmx in Hm as (? & ? & ?). done.
  - unfold ExitLogger_enter.
    destruct (worker s) as [w|] eqn:Hw; [|right; by exists s, L].
    destruct (worker_mutex s); simpl; [by left|].
    right. eexists _, L. split; [done|]. split; [|done].
    destruct Hinv as (lq & lw & Hinv).
    exists lq, lw. by apply (inv_at_frame L lq lw s).
  - unfold ExitLogger_join.
    destruct (worker_mutex s); [|by left].
    destruct (worker s) as [[]|] eqn:Hw; try (by left).
    assert (inv L (set_worker None s)) as Hinv'.
    { destruct Hinv as (lq & lw & [Hque Hqun Hwk Hpu Hnd0 Hdom0 Hleak Hbrk Hmx]). rewrite Hw in *. simpl in Hwk.
      exists lq, lw. split; simpl; try done.
      split; [|by intros (? & ? & ?)].
      intros Hm. apply Hmx in Hm as (? & ? & ?). done. }
    destruct (SetLogFile EmptyString true close (set_worker None s))
      as [s'| | | |] eqn:Hs; simpl;
      try (by left);
      try (by unfold SetLogFile in Hs; destruct (log_stream_mutex (set_worker None s))).
    right. eexists _, L. split; [done|]. split; [|done].
    pose proof (SetLogFile_inv L _ _ _ _ _ Hinv' Hs) as Hinv2.
    destruct Hinv2 as (lq & lw & Hinv2). exists lq, lw.
    by apply (inv_at_frame L lq lw s').
  - destruct (get_it_done_inv L s sp o Hinv) as [->|(s' & L' & -> & Hs' & HL)];
      [by left|].
    right. exists s', L'. split; [done|]. split; [done|].
    destruct o; [auto | done].
Qed.

Lemma init_inv timeout level : inv ∅ (init timeout level).
Proof.
  exists [], []. split; simpl; try done.
  - intros a Ha. by apply elem_of_nil in Ha.
  - intros a Ha. by apply elem_of_nil in Ha.
  - apply NoDup_nil_2.
  - intros a. rewrite dom_empty_L, elem_of_nil. set_solver.
  - split; [done | by intros (? & ? & ?)].
Qed.

(** Along any interleaving the thread and the callers only touch nodes
    that are allocated, and every loop ends. *)
Lemma run_inv tr : forall L s,
  inv L s ->
  run tr s = Blocked \/
  exists s' L', run tr s = Ok s' /\ inv L' s' /\ (quiet tr = true -> L' = L).
Proof.
  induction tr as [|a tr IH]; intros L s Hinv; simpl.
  - right. by exists s, L.
  - destruct (step_inv L s a Hinv) as [->|(s1 & L1 & -> & Hinv1 & HL1)];
      [by left|]. simpl.
    destruct (IH L1 s1 Hinv1) as [->|(s2 & L2 & -> & Hinv2 & HL2)]; [by left|].
    right. exists s2, L2. split; [done|]. split; [done|].
    intros Hq. apply andb_true_iff in Hq as [Hq1 Hq2].
    rewrite HL2, HL1; done.
Qed.

End shape_step.

(** ** Accounting: lines written and lines still held *)

Section accounting.
Implicit Types (s : state) (h : gmap addr node).

Lemma payloads_insert_fresh h p n :
  h !! p = None -> payloads (<[p := n]> h) ≡ₚ val n :: payloads h.
Proof. intros Hp. unfold payloads. by rewrite map_to_list_insert. Qed.

Lemma payloads_delete h p n :
  h !! p = Some n -> payloads h ≡ₚ val n :: payloads (delete p h).
Proof. intros Hp. unfold payloads. by rewrite <- (map_to_list_delete h p n Hp). Qed.

Lemma payloads_insert_same h p n n' :
  h !! p = Some n -> val n' = val n -> payloads (<[p := n']> h) ≡ₚ payloads h.
Proof.
  intros Hp Hv. rewrite (payloads_delete h p n Hp).
  rewrite <- (insert_delete_eq h p n').
  rewrite payloads_insert_fresh by apply lookup_delete_eq. by rewrite Hv.
Qed.

Lemma get_tail_payloads fuel : forall p h r,
  get_tail fuel p h = Ok r -> payloads r.2 ≡ₚ payloads h.
Proof.
  induction fuel as [|f IH]; intros p h r; simpl; [done|].
  destruct (h !! p) as [n|]; [|done].
  destruct (next n) as [q|]; [|by intros [= <-]].
  destruct (h !! q) as [m|] eqn:Hq; [|done].
  intros Hr. apply IH in Hr. rewrite Hr.
  by apply (payloads_insert_same h q m).
Qed.

Lemma thread_body_account spurious o w s w' s' :
  thread_body spurious o w s = Ok (w', s') ->
  current_level s' = current_level s /\
  (out s').*2 ++ pending s' ⊆+ (out s).*2 ++ pending s /\
  (o = Returns -> (out s').*2 ++ pending s' ≡ₚ (out s).*2 ++ pending s).
Proof.
  destruct w as [| |f|f p|f [p|]|f t|f [p|]|]; simpl thread_body.
  - by intros [= <- <-].
  - by intros [= <- <-].
  - by intros [= <- <-].
  - unfold compare_exchange_weak.
    destruct spurious; [by intros [= <- <-]|].
    destruct (decide (head s = p)); by intros [= <- <-].
  - destruct (get_tail (size (heap s)) p (heap s)) as [r| | | |] eqn:Hr; try done.
    simpl. intros [= <- <-]. apply get_tail_payloads in Hr.
    unfold pending. simpl. rewrite Hr. done.
  - by intros [= <- <-].
  - destruct o as [|e]; simpl; [|done].
    destruct (log_stream_mutex s); simpl; [done|]. by intros [= <- <-].
  - unfold dump_iter. destruct (heap s !! p) as [n|] eqn:Hn; [|done].
    simpl. intros [= <- <-].
    destruct (written_frame (val n) o s) as (Hh & _ & _ & _ & _ & _ & _ & _ & _ & Hl).
    split; [done|]. unfold pending. simpl. rewrite Hh, written_out.
    rewrite (payloads_delete (heap s) p n Hn).
    destruct o as [|e].
    + rewrite fmap_app, <- app_assoc. simpl. done.
    + split; [|done]. apply submseteq_app; [done|]. by apply submseteq_cons.
  - by intros [= <- <-].
  - done.
Qed.

Lemma push_begin_account L lq lw s v :
  inv_at L lq lw s ->
  pending (push_begin v s).2 ≡ₚ v :: pending s.
Proof.
  intros [Hque Hqun Hwk Hpu Hnd0 Hdom0 Hleak Hbrk Hmx]. unfold pending, push_begin. simpl.
  apply payloads_insert_fresh. apply not_elem_of_dom. intros Hin.
  apply Hbrk in Hin. lia.
Qed.

Lemma account_intro s s' ls (Q : Prop) :
  current_level s' = current_level s ->
  (out s').*2 ++ pending s' ≡ₚ (out s).*2 ++ pending s ++ ls ->
  current_level s' = current_level s /\
  (out s').*2 ++ pending s' ⊆+ (out s).*2 ++ pending s ++ ls /\
  (Q -> (out s').*2 ++ pending s' ≡ₚ (out s).*2 ++ pending s ++ ls).
Proof. intros Hl Hp. split; [done|]. split; [by rewrite Hp | done]. Qed.

Lemma account_same s s' (Q : Prop) :
  current_level s' = current_level s -> out s' = out s ->
  payloads (heap s') ≡ₚ payloads (heap s) ->
  current_level s' = current_level s /\
  (out s').*2 ++ pending s' ⊆+ (out s).*2 ++ pending s ++ [] /\
  (Q -> (out s').*2 ++ pending s' ≡ₚ (out s).*2 ++ pending s ++ []).
Proof.
  intros Hl Ho Hp. apply account_intro; [done|].
  unfold pending. by rewrite Ho, Hp, app_nil_r.
Qed.

Lemma Log_enter_account L lq lw s level msg ts r :
  inv_at L lq lw s -> Log_enter level msg ts s = Ok r ->
  current_level r.2 = current_level s /\ out r.2 = out s /\
  pending r.2 ≡ₚ
    pending s ++ option_list (line_of (current_level s) (ALog level msg ts)).
Proof.
  intros Hinv. unfold Log_enter, line_of, valid_args.
  destruct (_ || _ || _) eqn:Hbad.
  { intros [= <-]. simpl. by rewrite app_nil_r. }
  destruct (level >=? current_level s) eqn:Hge.
  2:{ intros [= <-]. simpl. by rewrite app_nil_r. }
  destruct (severity_to_str level) as [nm|]; [|done].
  pose proof (push_begin_account L lq lw s (format ts nm msg) Hinv) as Hp.
  unfold push_begin in *. intros [= <-]. simpl in *.
  split; [done|]. split; [done|].
  rewrite Hp. apply Permutation_cons_append.
Qed.

Lemma step_account L s a s' :
  inv L s -> step a s = Ok s' ->
  current_level s' = current_level s /\
  (out s').*2 ++ pending s' ⊆+
    (out s).*2 ++ pending s ++ option_list (line_of (current_level s) a) /\
  (quiet_action a = true ->
   (out s').*2 ++ pending s' ≡ₚ
     (out s).*2 ++ pending s ++ option_list (line_of (current_level s) a)).
Proof.
  intros (lq & lw & Hinv).
  destruct a as [level msg ts|p sp|name open_ok close| | |close|sp o];
    simpl step; simpl line_of.
  - destruct (Log_enter level msg ts s) as [r| | | |] eqn:Hr; try done.
    simpl bind. intros [= <-].
    destruct (Log_enter_account L lq lw s level msg ts r Hinv Hr) as (Hl & Ho & Hp).
    apply account_intro; [done|]. by rewrite Ho, Hp.
  - case_bool_decide; [|done].
    unfold push_cas. destruct (heap s !! p) as [n|] eqn:Hn; [|done].
    destruct (compare_exchange_weak sp (head s) (next n) (Some p)) as [[ok hd] e].
    cbn [bind]. intros [= <-]. cbn [snd].
    destruct ok; (apply account_same; [done|done|]); simpl;
      by apply (payloads_insert_same _ p n).
  - intros Hs. apply SetLogFile_frame in Hs
      as (Hh & _ & _ & _ & _ & _ & Ho & _ & _ & Hl).
    apply account_same; [done|done|by rewrite Hh].
  - unfold StartBackGroundThread. destruct (worker s).
    { intros [= <-]. by apply account_same. }
    destruct (worker_mutex s); simpl; [done|].
    intros [= <-]. by apply account_same.
  - unfold ExitLogger_enter. destruct (worker s).
    2:{ intros [= <-]. by apply account_same. }
    destruct (worker_mutex s); simpl; [done|].
    intros [= <-]. by apply account_same.
  - unfold ExitLogger_join. destruct (worker_mutex s); [|done].
    destruct (worker s) as [[]|]; try done.
    destruct (SetLogFile EmptyString true close (set_worker None s))
      as [s1| | | |] eqn:Hs; try done.
    simpl. intros [= <-]. apply SetLogFile_frame in Hs
      as (Hh & _ & _ & _ & _ & _ & Ho & _ & _ & Hl).
    apply account_same; simpl; [done|done|by rewrite Hh].
  - unfold get_it_done. destruct (worker s) as [w|]; [|done].
    destruct (thread_body sp o w s) as [[w' s1]|[what|]| | |] eqn:Hb; try done.
    + intros [= <-]. apply thread_body_account in Hb as (Hl & Hsub & Hperm).
      rewrite app_nil_r. split; [done|]. split; [done|]. destruct o; [auto|done].
    + intros [= <-]. by apply account_same.
    + intros [= <-]. by apply account_same.
Qed.

Lemma accepted_cons T a tr :
  accepted T (a :: tr) = option_list (line_of T a) ++ accepted T tr.
Proof. unfold accepted. simpl. by destruct (line_of T a). Qed.

Lemma accepted_app T tr1 tr2 :
  accepted T (tr1 ++ tr2) = accepted T tr1 ++ accepted T tr2.
Proof. unfold accepted. apply omap_app. Qed.

Lemma quiet_cons a tr :
  quiet (a :: tr) = true <-> quiet_action a = true /\ quiet tr = true.
Proof. unfold quiet. simpl. apply andb_true_iff. Qed.

Lemma quiet_app tr1 tr2 :
  quiet (tr1 ++ tr2) = true <-> quiet tr1 = true /\ quiet tr2 = true.
Proof. unfold quiet. rewrite forallb_app. apply andb_true_iff. Qed.

Lemma run_cons a tr s : run (a :: tr) s = bind (step a s) (run tr).
Proof. done. Qed.

Lemma run_app tr1 : forall tr2 s,
  run (tr1 ++ tr2) s = bind (run tr1 s) (run tr2).
Proof.
  induction tr1 as [|a tr1 IH]; intros tr2 s; [done|].
  rewrite <- app_comm_cons, !run_cons. destruct (step a s); simpl; auto.
Qed.

Lemma run_account tr : forall L s s',
  inv L s -> run tr s = Ok s' ->
  current_level s' = current_level s /\
  (out s').*2 ++ pending s' ⊆+
    (out s).*2 ++ pending s ++ accepted (current_level s) tr /\
  (quiet tr = true ->
   (out s').*2 ++ pending s' ≡ₚ
     (out s).*2 ++ pending s ++ accepted (current_level s) tr).
Proof.
  induction tr as [|a tr IH]; intros L s s' Hinv.
  - intros [= <-]. unfold accepted. simpl. by rewrite app_nil_r.
  - rewrite run_cons.
    destruct (step a s) as [s1| | | |] eqn:Hs; try done. cbn [bind]. intros Hr.
    destruct (step_inv L s a Hinv) as [Hb|(s1' & L1 & Hs' & Hinv1 & _)];
      [congruence|].
    rewrite Hs in Hs'. injection Hs' as <-.
    destruct (step_account L s a s1 Hinv Hs) as (Hl1 & Hsub1 & Hperm1).
    destruct (IH L1 s1 s' Hinv1 Hr) as (Hl2 & Hsub2 & Hperm2).
    rewrite Hl1 in *. rewrite accepted_cons.
    split; [done|]. split.
    + etrans; [exact Hsub2|]. rewrite !app_assoc.
      apply submseteq_app; [|done]. by rewrite <- app_assoc.
    + intros Hq. apply quiet_cons in Hq as [Hq1 Hq2].
      rewrite (Hperm2 Hq2). rewrite !app_assoc.
      apply Permutation_app; [|done]. rewrite <- app_assoc. auto.
Qed.

End accounting.

(** ** Life cycle of the background thread *)

Section lifecycle.
Implicit Types (s : state).

Lemma Log_enter_frame level msg ts s r :
  Log_enter level msg ts s = Ok r ->
  worker r.2 = worker s /\ shutdown r.2 = shutdown s /\
  worker_mutex r.2 = worker_mutex s /\ head r.2 = head s /\
  log_stream r.2 = log_stream s /\ out r.2 = out s /\
  log_stream_mutex r.2 = log_stream_mutex s /\
  current_level r.2 = current_level s.
Proof.
  unfold Log_enter. destruct (_ || _ || _); [by intros [= <-]|].
  destruct (level >=? current_level s); [|by intros [= <-]].
  destruct (severity_to_str level); [|done].
  unfold push_begin. by intros [= <-].
Qed.

Lemma push_cas_frame spurious p s r :
  push_cas spurious p s = Ok r ->
  worker r.2 = worker s /\ shutdown r.2 = shutdown s /\
  worker_mutex r.2 = worker_mutex s /\
  log_stream r.2 = log_stream s /\ out r.2 = out s /\
  log_stream_mutex r.2 = log_stream_mutex s /\
  current_level r.2 = current_level s.
Proof.
  unfold push_cas. destruct (heap s !! p) as [n|]; [|done].
  destruct (compare_exchange_weak spurious (head s) (next n) (Some p)) as [[ok hd] e].
  intros [= <-]. by destruct ok.
Qed.

Lemma thread_body_frame spurious o w s w' s' :
  thread_body spurious o w s = Ok (w', s') ->
  shutdown s' = shutdown s /\ worker_mutex s' = worker_mutex s /\
  pushing s' = pushing s /\ worker s' = worker s /\
  log_stream s' = log_stream s /\
  (head s' = head s \/ head s' = None /\ exists f p, w' = AtGetTail f p).
Proof.
  destruct w as [| |f|f p|f [p|]|f t|f [p|]|]; simpl thread_body.
  - intros [= <- <-]. tauto.
  - intros [= <- <-]. tauto.
  - intros [= <- <-]. tauto.
  - unfold compare_exchange_weak.
    destruct spurious; [intros [= <- <-]; tauto|].
    destruct (decide (head s = p)); intros [= <- <-]; simpl; [|tauto].
    split_and!; try done. right. eauto.
  - destruct (get_tail (size (heap s)) p (heap s)) as [r| | | |]; try done.
    simpl. intros [= <- <-]. tauto.
  - intros [= <- <-]. tauto.
  - destruct o as [|e]; simpl; [|done].
    destruct (log_stream_mutex s); simpl; [done|]. intros [= <- <-]. tauto.
  - unfold dump_iter. destruct (heap s !! p) as [n|]; [|done].
    simpl. intros [= <- <-]. simpl.
    destruct (written_frame (val n) o s)
      as (_ & _ & -> & -> & -> & _ & -> & -> & -> & _). tauto.
  - intros [= <- <-]. tauto.
  - done.
Qed.

(** A step of the loop stays in the loop as long as [shutdown] is not
    set. *)
Lemma thread_body_loop spurious w s w' s' :
  thread_body spurious Returns w s = Ok (w', s') ->
  shutdown s = false -> loop_pc w = true -> loop_pc w' = true.
Proof.
  destruct w as [| |f|f p|f [p|]|f t|f [p|]|]; simpl thread_body.
  - intros [= <- <-] ->. done.
  - by intros [= <- <-].
  - by intros [= <- <-].
  - unfold compare_exchange_weak.
    destruct spurious; [by intros [= <- <-]|].
    destruct (decide (head s = p)); by intros [= <- <-].
  - destruct (get_tail (size (heap s)) p (heap s)) as [r| | | |]; try done.
    simpl. by intros [= <- <-].
  - intros [= <- <-]. by destruct f.
  - destruct (log_stream_mutex s); simpl; [done|]. by intros [= <- <-].
  - unfold dump_iter. destruct (heap s !! p) as [n|]; [|done].
    simpl. by intros [= <- <-].
  - intros [= <- <-]. by destruct f.
  - done.
Qed.

Lemma get_tail_no_raise fuel : forall p h e, get_tail fuel p h <> Raise e.
Proof.
  induction fuel as [|f IH]; intros p h e; simpl; [done|].
  destruct (h !! p) as [n|]; [|done].
  destruct (next n) as [q|]; [|done].
  destruct (h !! q) as [m|]; [|done]. apply IH.
Qed.

(** Only the stream insertion and the lock can throw in the thread. *)
Lemma thread_body_no_raise spurious w s e :
  thread_body spurious Returns w s <> Raise e.
Proof.
  destruct w as [| |f|f p|f [p|]|f t|f [p|]|]; simpl thread_body; try done.
  - unfold compare_exchange_weak. destruct spurious; [done|].
    by destruct (decide (head s = p)).
  - destruct (get_tail (size (heap s)) p (heap s)) eqn:Hg; simpl; try done.
    by apply get_tail_no_raise in Hg.
  - by destruct (log_stream_mutex s).
  - unfold dump_iter. by destruct (heap s !! p).
Qed.

Lemma step_life s a s' :
  life s -> quiet_action a = true -> step a s = Ok s' -> life s'.
Proof.
  unfold life. intros Hlife Hq.
  destruct a as [level msg ts|p sp|name open_ok close| | |close|sp o];
    simpl step.
  - destruct (Log_enter level msg ts s) as [r| | | |] eqn:Hr; try done.
    simpl. intros [= <-].
    apply Log_enter_frame in Hr as (-> & -> & -> & _). done.
  - case_bool_decide; [|done].
    destruct (push_cas sp p s) as [r| | | |] eqn:Hr; try done.
    simpl. intros [= <-].
    apply push_cas_frame in Hr as (-> & -> & -> & _). done.
  - intros Hs. apply SetLogFile_frame in Hs
      as (_ & _ & _ & _ & -> & _ & _ & -> & -> & _). done.
  - unfold StartBackGroundThread. destruct (worker s) eqn:Hw.
    { intros [= <-]. rewrite Hw. exact Hlife. }
    destruct (worker_mutex s); simpl; [done|]. intros [= <-]. simpl.
    by intros _ w [= <-].
  - unfold ExitLogger_enter. destruct (worker s) eqn:Hw.
    2:{ intros [= <-]. rewrite Hw. exact Hlife. }
    destruct (worker_mutex s); simpl; [done|]. by intros [= <-].
  - unfold ExitLogger_join. destruct (worker_mutex s); [|done].
    destruct (worker s) as [[]|]; try done.
    destruct (SetLogFile EmptyString true close (set_worker None s))
      as [s1| | | |] eqn:Hs; try done.
    simpl. intros [= <-]. apply SetLogFile_frame in Hs
      as (_ & _ & _ & _ & Hw & _). simpl in *. intros _ w. by rewrite Hw.
  - destruct o as [|e]; [|done].
    unfold get_it_done. destruct (worker s) as [w|] eqn:Hw; [|done].
    destruct (thread_body sp Returns w s) as [[w' s1]|[what|]| | |] eqn:Hb; try done.
    + intros [= <-]. simpl.
      pose proof (thread_body_frame _ _ _ _ _ _ Hb) as (Hsd & Hm & _).
      rewrite Hsd, Hm. intros Hmf w0 [= <-].
      destruct (Hlife Hmf w eq_refl) as [Hs Hl]. split; [done|].
      by apply (thread_body_loop sp w s w' s1).
    + by apply thread_body_no_raise in Hb.
    + by apply thread_body_no_raise in Hb.
Qed.

End lifecycle.

(** ** Emptying the queue once the producers are silent *)

Section settle.
Implicit Types (s : state).

Lemma step_settling s a s' :
  settling s -> quiet_action a = true -> no_log_action a = true ->
  step a s = Ok s' -> settling s'.
Proof.
  unfold settling. intros [Hpu Hhd] Hq Hnl.
  destruct a as [level msg ts|p sp|name open_ok close| | |close|sp o];
    simpl step; try done.
  - rewrite Hpu. case_bool_decide as Hin; [|done]. by apply elem_of_nil in Hin.
  - intros Hs. apply SetLogFile_frame in Hs
      as (_ & _ & Hh & Hp & Hw & _). by rewrite Hh, Hp, Hw.
  - unfold StartBackGroundThread. destruct (worker s) eqn:Hw.
    { intros [= <-]. by rewrite Hw. }
    destruct (worker_mutex s); simpl; [done|]. intros [= <-]. simpl.
    split; [done|]. intros Hne. destruct (Hhd Hne) as (w & ? & _). done.
  - unfold ExitLogger_enter. destruct (worker s) eqn:Hw.
    2:{ intros [= <-]. by rewrite Hw. }
    destruct (worker_mutex s); simpl; [done|]. intros [= <-]. simpl.
    by rewrite Hw.
  - unfold ExitLogger_join. destruct (worker_mutex s); [|done].
    destruct (worker s) as [[]|] eqn:Hw; try done.
    destruct (SetLogFile EmptyString true close (set_worker None s))
      as [s1| | | |] eqn:Hs; try done.
    simpl. intros [= <-]. apply SetLogFile_frame in Hs
      as (_ & _ & Hh & Hp & _). simpl in *. rewrite Hh, Hp.
    split; [done|]. intros Hne. destruct (Hhd Hne) as (w & [= <-] & ?). done.
  - destruct o as [|e]; [|done].
    unfold get_it_done. destruct (worker s) as [w|] eqn:Hw; [|done].
    destruct (thread_body sp Returns w s) as [[w' s1]|[what|]| | |] eqn:Hb;
      try done; try (by apply thread_body_no_raise in Hb).
    intros [= <-]. simpl.
    pose proof (thread_body_frame _ _ _ _ _ _ Hb) as (_ & _ & Hp & _ & _ & Hh).
    split; [congruence|]. intros Hne.
    destruct Hh as [Hh|[Hh _]]; [|congruence].
    rewrite Hh in Hne. destruct (Hhd Hne) as (w0 & [= <-] & Hbefore).
    exists w'. split; [done|].
    clear -Hb Hbefore Hne Hh.
    destruct w as [| |f|f p|f [p|]|f t|f [p|]|]; simpl in Hb; try done.
    + injection Hb as <- <-. by destruct (shutdown s).
    + by injection Hb as <- <-.
    + by injection Hb as <- <-.
    + unfold compare_exchange_weak in Hb. destruct sp.
      * by injection Hb as <- <-.
      * destruct (decide (head s = p)); injection Hb as <- <-; [|done].
        simpl in Hh. congruence.
    + destruct (get_tail (size (heap s)) p (heap s)); try done.
      simpl in Hb. injection Hb as <- <-. by destruct f.
    + injection Hb as <- <-. by destruct f.
    + destruct (log_stream_mutex s); simpl in Hb; [done|].
      injection Hb as <- <-. by destruct f.
    + unfold dump_iter in Hb. destruct (heap s !! p); [|done].
      simpl in Hb. injection Hb as <- <-. by destruct f.
    + injection Hb as <- <-. by destruct f.
Qed.

Lemma run_settling tr : forall s s',
  settling s -> quiet tr = true -> no_log tr = true ->
  run tr s = Ok s' -> settling s'.
Proof.
  induction tr as [|a tr IH]; intros s s' Hs Hq Hnl.
  - by intros [= <-].
  - rewrite run_cons. apply quiet_cons in Hq as [Hq1 Hq2].
    unfold no_log in Hnl. simpl in Hnl. apply andb_true_iff in Hnl as [Hn1 Hn2].
    destruct (step a s) as [s1| | | |] eqn:Hst; try done. cbn [bind].
    apply IH; [|done|done]. by apply (step_settling s a).
Qed.

Lemma run_life tr : forall s s',
  life s -> quiet tr = true -> run tr s = Ok s' -> life s'.
Proof.
  induction tr as [|a tr IH]; intros s s' Hs Hq.
  - by intros [= <-].
  - rewrite run_cons. apply quiet_cons in Hq as [Hq1 Hq2].
    destruct (step a s) as [s1| | | |] eqn:Hst; try done. cbn [bind].
    apply IH; [|done]. by apply (step_life s a).
Qed.

End settle.

(** * The claims *)

(** C8.  [Logger(timeout, level)] throws exactly when the level is outside
    [Trace..Error] or the timeout is negative; otherwise the logger is
    built with the given threshold and interval. *)
Theorem Logger_new_fails_iff timeout level :
  ((exists e, Logger_new timeout level = Raise e) <->
   (level < Trace \/ Error < level \/ timeout < 0)) /\
  (~ (level < Trace \/ Error < level \/ timeout < 0) ->
   exists s, Logger_new timeout level = Ok s /\
     current_level s = level /\ current_timeout s = timeout /\
     worker s = None /\ head s = None /\ log_stream s = None).
Proof.
  unfold Logger_new.
  destruct (level <? Trace) eqn:H1; [apply Z.ltb_lt in H1|apply Z.ltb_ge in H1];
    simpl.
  { split; [|tauto]. split; [tauto | eauto]. }
  destruct (Error <? level) eqn:H2; [apply Z.ltb_lt in H2|apply Z.ltb_ge in H2];
    simpl.
  { split; [|tauto]. split; [tauto | eauto]. }
  destruct (timeout <? 0) eqn:H3; [apply Z.ltb_lt in H3|apply Z.ltb_ge in H3].
  { split; [|tauto]. split; [tauto | eauto]. }
  split.
  - split; [by intros [e ?] | lia].
  - intros _. by eexists.
Qed.

(** C7.  A [Log] call whose severity is outside the enumerated range or
    whose text is empty returns normally, enqueues nothing and leaves the
    state as it was, except for one warning line on [cerr]. *)
Theorem Log_invalid_rejected fuel level msg ts s :
  level < Trace \/ Error < level \/ msg = EmptyString ->
  Log fuel level msg ts s = Ok (put_cerr (invalid_parameters level msg) s) /\
  step (ALog level msg ts) s = Ok (put_cerr (invalid_parameters level msg) s) /\
  line_of (current_level s) (ALog level msg ts) = None.
Proof.
  intros Hbad.
  assert ((level <? Trace) || (Error <? level) || bool_decide (msg = EmptyString)
          = true) as Hb.
  { rewrite !orb_true_iff, !Z.ltb_lt, bool_decide_eq_true. tauto. }
  unfold Log, step, Log_enter, line_of, valid_args. rewrite Hb. done.
Qed.

Lemma Log_invalid_rejected_witness :
  Log 0 7 "z" "t" (init 0 1)
  = Ok (put_cerr (invalid_parameters 7 "z") (init 0 1)) /\
  step (ALog 7 "z" "t") (init 0 1)
  = Ok (put_cerr (invalid_parameters 7 "z") (init 0 1)) /\
  line_of (current_level (init 0 1)) (ALog 7 "z" "t") = None.
Proof.
  apply (Log_invalid_rejected 0 7 "z" "t" (init 0 1)).
  right. left. unfold Error. lia.
Defined.

(** C6.  [SetLogFile] with a non-empty name whose file does not open:
    the call returns normally, the current stream (or its absence) stays,
    nothing but one line on [cerr] changes. *)
Theorem SetLogFile_open_failure name close s :
  name <> EmptyString ->
  log_stream_mutex s = false ->
  SetLogFile name false close s
  = Ok (put_cerr ("cannot open log file " +:+ dquote +:+ name) s).
Proof.
  intros Hne Hm. unfold SetLogFile. rewrite Hm. simpl.
  rewrite decide_False by done. unfold log_file_closer. simpl.
  destruct s. simpl in *. by subst.
Qed.

Lemma SetLogFile_open_failure_witness :
  SetLogFile "nodir/f" false Returns
    (set_log_stream (Some (mk_ofstream "old" true)) (init 0 1))
  = Ok (put_cerr ("cannot open log file " +:+ dquote +:+ "nodir/f")
          (set_log_stream (Some (mk_ofstream "old" true)) (init 0 1))).
Proof.
  apply (SetLogFile_open_failure "nodir/f" Returns
           (set_log_stream (Some (mk_ofstream "old" true)) (init 0 1)));
    [discriminate | reflexivity].
Defined.

(** C10.  [severity_to_str] reads its four-entry table inside its bounds
    exactly for the severities [Trace..Error], and [Log] calls it only
    after its sanity check: no [Log] call reads outside the table. *)
Theorem severity_to_str_reachable_in_bounds level :
  (is_Some (severity_to_str level) <-> Trace <= level <= Error) /\
  (forall msg ts s, Log_enter level msg ts s <> Fault) /\
  (forall fuel msg ts s, Log (S fuel) level msg ts s <> Fault).
Proof.
  assert (Hiff : is_Some (severity_to_str level) <-> Trace <= level <= Error).
  { split; [|apply severity_to_str_in_range].
    unfold severity_to_str, Trace, Error.
    destruct (level <? 0) eqn:Hneg; [by intros [? ?]|].
    apply Z.ltb_ge in Hneg. intros [nm Hnm].
    apply lookup_lt_Some in Hnm. simpl in Hnm. lia. }
  assert (Henter : forall msg ts s, Log_enter level msg ts s <> Fault).
  { intros msg ts s. unfold Log_enter.
    destruct (_ || _ || _) eqn:Hbad; [done|].
    destruct (level >=? current_level s); [|done].
    destruct (severity_to_str_in_range level) as [nm ->]; [|done].
    apply (valid_args_spec level msg). unfold valid_args. by rewrite Hbad. }
  split; [done|]. split; [done|].
  intros fuel msg ts s. unfold Log.
  pose proof (Henter msg ts s) as Hne. unfold Log_enter in *.
  destruct (_ || _ || _) eqn:Hbad; [done|].
  destruct (level >=? current_level s); [|done].
  destruct (severity_to_str level) as [nm|]; [|done].
  unfold push_begin. simpl. unfold push_cas. simpl.
  rewrite lookup_insert_eq. unfold compare_exchange_weak. simpl.
  rewrite decide_True by done. done.
Qed.

Section console.
Implicit Types (s : state).

Lemma thread_body_out spurious o w s w' s' :
  thread_body spurious o w s = Ok (w', s') ->
  out s' = out s \/ exists v, out s' = out s ++ [(sink_of s, v)].
Proof.
  destruct w as [| |f|f p|f [p|]|f t|f [p|]|]; simpl thread_body;
    try (intros [= <- <-]; by left); try done.
  - unfold compare_exchange_weak.
    destruct spurious; [intros [= <- <-]; by left|].
    destruct (decide (head s = p)); intros [= <- <-]; by left.
  - destruct (get_tail (size (heap s)) p (heap s)) as [r| | | |]; try done.
    simpl. intros [= <- <-]. by left.
  - destruct o as [|e]; simpl; [|done].
    destruct (log_stream_mutex s); simpl; [done|]. intros [= <- <-]. by left.
  - unfold dump_iter. destruct (heap s !! p) as [n|]; [|done].
    simpl. intros [= <- <-]. simpl. rewrite written_out.
    destruct o; [right; eauto | by left].
Qed.

Lemma SetLogFile_empty open_ok close s s' :
  SetLogFile EmptyString open_ok close s = Ok s' -> log_stream s' = None.
Proof.
  unfold SetLogFile. destruct (log_stream_mutex s); simpl; [done|].
  intros [= <-]. simpl.
  match goal with |- context [release_stream ?c ?f ?t] =>
    destruct (release_stream_frame c f t)
      as (_ & _ & _ & _ & _ & _ & -> & _) end.
  done.
Qed.



End console.



(** ** One pass of the drain, as a whole *)

Section drain_pass.
Implicit Types (s : state) (h : gmap addr node) (l : list addr).

Lemma chain_suffix link h l1 : forall p l2,
  chain link h p (l1 ++ l2) -> exists q, chain link h q l2.
Proof.
  induction l1 as [|a l1 IH]; intros p l2; [by exists p|].
  intros [_ (n & _ & Hc)]. by apply (IH (link n)).
Qed.

(** A chain that ends in [nullptr] visits no node twice. *)
Lemma chain_NoDup link h l : forall p, chain link h p l -> NoDup l.
Proof.
  induction l as [|a l IH]; intros p; [intros _; apply NoDup_nil_2|].
  intros [_ (n & Hn & Hc)]. apply NoDup_cons. split; [|by apply (IH (link n))].
  intros Hin. apply list_elem_of_split in Hin as (l1 & l2 & ->).
  destruct (chain_suffix link h l1 _ _ Hc) as (q & Hq).
  pose proof Hq as [_ (n' & Hn' & Hc')].
  rewrite Hn in Hn'. injection Hn' as <-.
  pose proof (chain_functional link h _ _ _ Hc Hc') as Heq.
  apply (f_equal length) in Heq. rewrite length_app in Heq. simpl in Heq. lia.
Qed.

Lemma vals_rev h l : vals h (rev l) = rev (vals h l).
Proof.
  induction l as [|a l IH]; [done|].
  simpl rev. rewrite vals_app, IH, !vals_cons.
  destruct (h !! a) as [n|]; simpl; [done|]. by rewrite app_nil_r.
Qed.

(** After [get_tail], every node but the first points back to the node
    before it in the forward chain. *)
Lemma back_linked_prev rest : forall h p i x y,
  chain next h (Some p) (p :: rest) ->
  NoDup (p :: rest) ->
  (p :: rest) !! i = Some x -> (p :: rest) !! S i = Some y ->
  exists n, back_linked h p rest !! y = Some n /\ prev n = Some x.
Proof.
  induction rest as [|q r IH]; intros h p i x y Hc Hnd Hx Hy.
  - destruct i; simpl in Hy; done.
  - destruct Hc as [_ (n & Hn & Hq & (m & Hm & Hc'))].
    apply NoDup_cons in Hnd as [Hp Hnd].
    assert (chain next (alter (set_prev (Some p)) q h) (Some q) (q :: r)) as Hc2.
    { apply chain_next_alter_prev. split; [done|]. by exists m. }
    destruct i as [|j].
    + simpl in Hx, Hy. injection Hx as <-. injection Hy as <-.
      simpl back_linked. rewrite back_linked_outside.
      * rewrite lookup_alter_eq, Hm. simpl. eauto.
      * by apply NoDup_cons in Hnd as [? _].
    + simpl back_linked. by apply (IH _ q j x y).
Qed.

Lemma writes_frame os vs : forall s,
  heap (writes os vs s) = heap s /\
  log_stream_mutex (writes os vs s) = log_stream_mutex s /\
  log_stream (writes os vs s) = log_stream s.
Proof.
  revert os. induction vs as [|v vs IH]; intros os s; [done|].
  simpl. destruct (IH (tl os) (written v (hd Returns os) s)) as (-> & -> & ->).
  destruct (written_frame v (hd Returns os) s) as (-> & _ & _ & _ & _ & -> & -> & _).
  done.
Qed.

(** When no insertion throws, the lines go out in the given order. *)
Lemma writes_out vs : forall s,
  out (writes [] vs s) = out s ++ ((fun v => (sink_of s, v)) <$> vs).
Proof.
  induction vs as [|v vs IH]; intros s; [simpl; by rewrite app_nil_r|].
  change (writes [] (v :: vs) s) with (writes [] vs (written v Returns s)).
  rewrite IH, written_out, <- app_assoc.
  assert (sink_of (written v Returns s) = sink_of s) as ->; [|done].
  unfold sink_of.
  by destruct (written_frame v Returns s) as (_ & _ & _ & _ & _ & _ & -> & _).
Qed.

Lemma unlock_after_drain s h1 :
  log_stream_mutex s = false ->
  set_log_stream_mutex false
    (set_heap (fun _ => h1) (set_log_stream_mutex true s))
  = set_heap (fun _ => h1) s.
Proof. intros Hm. destruct s. simpl in *. by subst. Qed.

(** [dump_que] on a chain fresh from the queue: the payloads are written
    from the last node of the chain to the first, and all its nodes are
    released. *)
Lemma dump_que_chain os s p l :
  chain next (heap s) (Some p) l ->
  unlinked (heap s) l ->
  log_stream_mutex s = false ->
  dump_que os (Some p) s
  = Ok (set_heap (released l) (writes os (rev (vals (heap s) l)) s)).
Proof.
  intros Hc Hu Hm. pose proof (chain_NoDup _ _ _ _ Hc) as Hnd.
  destruct l as [|p' rest]; [done|]. pose proof Hc as [[= <-] _].
  unfold dump_que.
  rewrite (get_tail_chain rest); [|done|].
  2:{ assert (length (p :: rest) <= size (heap s))%nat; [|simpl in *; lia].
      apply nodup_length_size; [done|].
      intros a Ha. apply elem_of_dom. by apply (chain_allocated next _ _ _ _ Hc). }
  cbn [bind fst snd]. rewrite Hm. cbn [lock bind].
  assert (Hperm : rev rest ++ [p] ≡ₚ p :: rest).
  { rewrite <- Permutation_cons_append. by rewrite <- Permutation_rev. }
  rewrite (dump_loop_chain (rev rest ++ [p])).
  - cbn [bind]. f_equal. simpl heap.
    rewrite writes_set_mutex, writes_set_heap.
    change (set_heap (released (rev rest ++ [p]))
              (set_log_stream_mutex true (set_heap (fun _ => back_linked (heap s) p rest) ?w)))
      with (set_heap (fun _ => released (rev rest ++ [p]) (back_linked (heap s) p rest))
              (set_log_stream_mutex true w)).
    rewrite unlock_after_drain.
    2:{ destruct (writes_frame os (vals (back_linked (heap s) p rest) (rev rest ++ [p])) s)
          as (_ & -> & _). done. }
    assert (vals (back_linked (heap s) p rest) (rev rest ++ [p])
            = rev (vals (heap s) (p :: rest))) as ->.
    { rewrite <- vals_rev. simpl rev. apply vals_agree.
      intros a _. apply back_linked_val_next. }
    assert (released (rev rest ++ [p]) (back_linked (heap s) p rest)
            = released (p :: rest) (heap s)) as Hrel.
    { apply map_eq. intros a. rewrite !released_lookup.
      destruct (decide (a ∈ rev rest ++ [p])) as [Hin|Hnin].
      - rewrite decide_True; [done|]. by rewrite <- Hperm.
      - rewrite decide_False by (by rewrite <- Hperm).
        apply back_linked_outside. intros Hr. apply Hnin.
        rewrite Hperm. by right. }
    rewrite Hrel. unfold set_heap.
    by rewrite (proj1 (writes_frame os (rev (vals (heap s) (p :: rest))) s)).
  - simpl heap. apply (back_linked_chain_prev rest (heap s) p []); [done| |].
    + destruct (Hu p ltac:(left)) as (n & Hn & Hprev).
      split; [done|]. by exists n.
    + by rewrite <- Permutation_cons_append.
  - by rewrite Hperm.
  - rewrite Hperm. apply nodup_length_size; [done|].
    intros a Ha. rewrite back_linked_dom.
    apply elem_of_dom. by apply (chain_allocated next _ _ _ _ Hc).
Qed.

End drain_pass.

(** C2.  One drain pass over a chain fresh from the queue.  [get_tail]
    walks the chain forward with one test of [p->next] per node, returns
    its last node and sets the backward link of every node to the node
    before it; following [prev] from the returned node then visits the
    chain in reverse, and [dump_que] writes the payloads in that order,
    last node of the chain (the oldest record) first, releasing every
    node. *)
Theorem drain_pass_chronological os s p l :
  chain next (heap s) (Some p) l ->
  unlinked (heap s) l ->
  log_stream_mutex s = false ->
  exists t h',
    get_tail (length l) p (heap s) = Ok (t, h') /\
    List.last l p = t /\
    (forall i x y, l !! i = Some x -> l !! S i = Some y ->
       exists n, h' !! y = Some n /\ prev n = Some x) /\
    chain prev h' (Some t) (rev l) /\
    dump_que os (Some p) s
    = Ok (set_heap (released l) (writes os (rev (vals (heap s) l)) s)) /\
    out (writes [] (rev (vals (heap s) l)) s)
    = out s ++ ((fun v => (sink_of s, v)) <$> rev (vals (heap s) l)).
Proof.
  intros Hc Hu Hm. pose proof (chain_NoDup _ _ _ _ Hc) as Hnd.
  destruct l as [|p' rest]; [done|]. pose proof Hc as [[= <-] _].
  exists (List.last rest p), (back_linked (heap s) p rest).
  split; [apply get_tail_chain; [done | simpl; lia]|].
  split; [apply last_cons_shift|].
  split; [intros i x y; by apply back_linked_prev|].
  split.
  - replace (rev (p :: rest)) with (rev rest ++ [p]) by done.
    apply (back_linked_chain_prev rest (heap s) p []); [done| |].
    + destruct (Hu p ltac:(left)) as (n & Hn & Hprev).
      split; [done|]. by exists n.
    + by rewrite <- Permutation_cons_append.
  - split; [by apply dump_que_chain | apply writes_out].
Qed.

Lemma drain_pass_chronological_witness :
  let s := mk_state
             (<[1%nat := mk_node "t2 Info: b" None (Some 0%nat)]>
                (<[0%nat := mk_node "t1 Debug: a" None None]> ∅))
             2%nat None [] false 1 0 false (Some (AtGetTail false (Some 1%nat)))
             false None [] [] [] in
  exists t h',
    get_tail 2 1%nat (heap s) = Ok (t, h') /\
    List.last [1%nat; 0%nat] 1%nat = t /\
    (forall i x y, [1%nat; 0%nat] !! i = Some x -> [1%nat; 0%nat] !! S i = Some y ->
       exists n, h' !! y = Some n /\ prev n = Some x) /\
    chain prev h' (Some t) (rev [1%nat; 0%nat]) /\
    dump_que [] (Some 1%nat) s
    = Ok (set_heap (released [1%nat; 0%nat])
            (writes [] (rev (vals (heap s) [1%nat; 0%nat])) s)) /\
    out (writes [] (rev (vals (heap s) [1%nat; 0%nat])) s)
    = out s ++ ((fun v => (sink_of s, v)) <$> rev (vals (heap s) [1%nat; 0%nat])).
Proof.
  intros s. apply (drain_pass_chronological [] s 1%nat [1%nat; 0%nat]).
  - split; [reflexivity|]. eexists; split; [reflexivity|].
    split; [reflexivity|]. eexists; split; reflexivity.
  - intros a Ha. apply elem_of_cons in Ha as [->|Ha].
    + eexists; split; reflexivity.
    + apply elem_of_cons in Ha as [->|Ha]; [eexists; split; reflexivity|].
      by apply elem_of_nil in Ha.
  - reflexivity.
Defined.

(** C3, as stated, fails: between the two line writes of one pass the
    lock is taken, and a [SetLogFile] call has to wait. *)
Lemma sink_lock_held_between_writes :
  exists s s',
    run mid_pass (init 0 1) = Ok s /\
    out s = [(Console, "t1 Debug: a")] /\
    step (ASetLogFile "log_file1.txt" true Returns) s = Blocked /\
    step (AWorker false Returns) s = Ok s' /\
    out s' = [(Console, "t1 Debug: a"); (Console, "t2 Info: b")].
Proof. eexists _, _. vm_compute. split_and!; reflexivity. Qed.

(** C3, amended.  The lock of the stream is taken exactly while the
    thread is in the write loop of a pass: it stays taken from one line
    write to the next and is released when the pass is over.  A
    [SetLogFile] call waits as long as it is taken and otherwise does
    its swap and leaves the lock free.  No step of a [Log] call waits. *)
Theorem sink_lock_scope timeout level tr s :
  run tr (init timeout level) = Ok s ->
  (log_stream_mutex s = true <-> exists f p, worker s = Some (AtWrite f p)) /\
  (forall name open_ok close,
     log_stream_mutex s = true -> SetLogFile name open_ok close s = Blocked) /\
  (forall name open_ok close,
     log_stream_mutex s = false ->
     exists s', SetLogFile name open_ok close s = Ok s' /\
                log_stream_mutex s' = false) /\
  (forall f p spurious o,
     worker s = Some (AtWrite f (Some p)) ->
     exists s' q, get_it_done spurious o s = Ok s' /\
                  worker s' = Some (AtWrite f q) /\ log_stream_mutex s' = true) /\
  (forall f spurious o,
     worker s = Some (AtWrite f None) ->
     exists s', get_it_done spurious o s = Ok s' /\
                worker s' = Some (finish f) /\ log_stream_mutex s' = false) /\
  (forall lvl msg ts, exists s', step (ALog lvl msg ts) s = Ok s') /\
  (forall p spurious, p ∈ pushing s -> exists s', step (ACas p spurious) s = Ok s').
Proof.
  intros Hrun.
  destruct (run_inv tr ∅ _ (init_inv timeout level))
    as [Hb|(s1 & L & Hr & Hinv & _)]; [congruence|].
  rewrite Hrun in Hr. injection Hr as <-.
  pose proof Hinv as (lq & lw & Hat).
  pose proof Hat as [_ _ Hwk _ _ _ _ _ Hmx].
  split; [done|]. split; [|split; [|split; [|split; [|split]]]].
  - intros name open_ok close Hm. unfold SetLogFile. by rewrite Hm.
  - intros name open_ok close Hm. unfold SetLogFile. rewrite Hm. simpl.
    eexists. split; [done|]. done.
  - intros f p sp o Hw.
    pose proof (thread_body_inv L lq lw s sp o _ Hat Hw) as Hstep.
    unfold get_it_done. rewrite Hw. rewrite Hw in Hwk. simpl in Hwk.
    destruct lw as [|p' l']; [done|]. destruct Hwk as [[= <-] (n & Hn & _)].
    simpl thread_body. unfold dump_iter. rewrite Hn. simpl.
    eexists _, _. split; [done|]. simpl. split; [done|].
    destruct (written_frame (val n) o s) as (_ & _ & _ & _ & _ & -> & _).
    apply Hmx. eauto.
  - intros f sp o Hw. unfold get_it_done. rewrite Hw. simpl.
    eexists. split; [done|]. done.
  - intros lvl msg ts. simpl.
    destruct (Log_enter_inv L s lvl msg ts Hinv) as (r & -> & _). simpl. eauto.
  - intros p sp Hp. simpl. rewrite bool_decide_eq_true_2 by done.
    destruct (push_cas_inv L lq lw s sp p Hat Hp) as (ok & s' & -> & _).
    simpl. eauto.
Qed.

Lemma sink_lock_scope_witness :
  exists s, run mid_pass (init 0 1) = Ok s /\
  (log_stream_mutex s = true <-> exists f p, worker s = Some (AtWrite f p)) /\
  (forall name open_ok close,
     log_stream_mutex s = true -> SetLogFile name open_ok close s = Blocked) /\
  (forall name open_ok close,
     log_stream_mutex s = false ->
     exists s', SetLogFile name open_ok close s = Ok s' /\
                log_stream_mutex s' = false) /\
  (forall f p spurious o,
     worker s = Some (AtWrite f (Some p)) ->
     exists s' q, get_it_done spurious o s = Ok s' /\
                  worker s' = Some (AtWrite f q) /\ log_stream_mutex s' = true) /\
  (forall f spurious o,
     worker s = Some (AtWrite f None) ->
     exists s', get_it_done spurious o s = Ok s' /\
                worker s' = Some (finish f) /\ log_stream_mutex s' = false) /\
  (forall lvl msg ts, exists s', step (ALog lvl msg ts) s = Ok s') /\
  (forall p spurious, p ∈ pushing s -> exists s', step (ACas p spurious) s = Ok s').
Proof.
  eexists. split; [vm_compute; reflexivity|].
  apply (sink_lock_scope 0 1 mid_pass). vm_compute. reflexivity.
Defined.

Section full.
Implicit Types (s : state).

(** With the insertion into the stream doing what [o] says and every
    report printed, the step in full is the step of the interleavings. *)
Lemma write_written msg o s :
  write msg (insertion_of o) Put s = Ok (written msg o s).
Proof.
  unfold write, written, sink_of.
  destruct o as [|[w|]]; simpl;
    destruct (log_stream s) as [[nm []]|]; done.
Qed.

Lemma dump_iter_plain p o s :
  dump_iter_full p (insertion_of o) Put s = dump_iter p o s.
Proof.
  unfold dump_iter_full, dump_iter. destruct (heap s !! p); [|done].
  by rewrite write_written.
Qed.

Lemma thread_body_plain spurious o w s :
  thread_body_full spurious o (insertion_of o) Put w s
  = thread_body spurious o w s.
Proof.
  destruct w as [| |f|f p|f [p|]|f t|f [p|]|]; try done.
  simpl. by rewrite dump_iter_plain.
Qed.

Lemma get_it_done_plain spurious o s :
  get_it_done_full spurious o (insertion_of o) Put Put s
  = get_it_done spurious o s.
Proof.
  unfold get_it_done_full, get_it_done. destruct (worker s) as [w|]; [|done].
  rewrite thread_body_plain.
  destruct (thread_body spurious o w s) as [[w' s']|e| | |] eqn:Hb; try done.
  assert (exists f t, w = AtLock f t) as (f & t & ->).
  { destruct w as [| |f|f p|f [p|]|f t|f [p|]|]; simpl in Hb; try done.
    - unfold compare_exchange_weak in Hb. destruct spurious; [done|].
      by destruct (decide (head s = p)).
    - destruct (get_tail (size (heap s)) p (heap s)) eqn:Hg; try done.
      simpl in Hb. injection Hb as ->. by apply get_tail_no_raise in Hg.
    - eauto.
    - unfold dump_iter in Hb. by destruct (heap s !! p). }
  by destruct e.
Qed.

(** What makes the body of the thread function throw: the lock, or the
    report in the handler of [write]. *)
Lemma thread_body_full_raise spurious o i report w s e :
  thread_body_full spurious o i report w s = Raise e ->
  (exists f t, w = AtLock f t /\ o = Throws e) \/
  (exists f p e0, w = AtWrite f (Some p) /\ sink_of s = Console /\
     i = Thrown e0 /\ report = Thrown e).
Proof.
  destruct w as [| |f|f p|f [p|]|f t|f [p|]|]; simpl; try done.
  - unfold compare_exchange_weak. destruct spurious; [done|].
    by destruct (decide (head s = p)).
  - destruct (get_tail (size (heap s)) p (heap s)) eqn:Hg; try done.
    simpl. intros [= ->]. by apply get_tail_no_raise in Hg.
  - destruct o as [|e']; simpl.
    + by destruct (log_stream_mutex s).
    + intros [= ->]. left. eauto.
  - unfold dump_iter_full. destruct (heap s !! p); [|done].
    unfold write. destruct (sink_of s) eqn:Hsink.
    + destruct i as [| |e0]; simpl; try done.
      destruct report as [| |e']; simpl; try done.
      intros [= ->]. right. by exists f, p, e0.
    + by destruct i.
Qed.

End full.

(** C4, as stated, fails.  A line is written to the file of the logger
    and the insertion fails: nothing is thrown, nothing is caught and
    nothing comes on [cerr]; the line is lost and its node released.
    And on the console, with exceptions set on [cout] by the
    application: the insertion throws, the report of the handler of
    [write] throws (its [cerr] flushes [cout] first), and so does the
    report of the handlers of [get_it_done]: the exception leaves the
    thread function, and [shutdown] was never set. *)
Lemma write_failure_unreported :
  (exists s s',
     run (ASetLogFile "log_file0.txt" true Returns :: mid_pass) (init 0 1)
       = Ok s /\
     worker s = Some (AtWrite false (Some 1%nat)) /\
     sink_of s = File "log_file0.txt" /\ pending s = ["t2 Info: b"] /\
     get_it_done_full false Returns Lost Put Put s = Ok s' /\
     worker s' = Some (AtWrite false None) /\ pending s' = [] /\
     out s' = out s /\ files s' = files s /\ cerr s' = []) /\
  (exists s,
     run mid_pass (init 0 1) = Ok s /\
     worker s = Some (AtWrite false (Some 1%nat)) /\ shutdown s = false /\
     get_it_done_full false Returns
       (Thrown (std_exception "basic_ios::clear"))
       (Thrown (std_exception "basic_ios::clear"))
       (Thrown (std_exception "basic_ios::clear")) s
     = Raise (std_exception "basic_ios::clear")).
Proof.
  split.
  - eexists _, _. vm_compute. split_and!; reflexivity.
  - eexists. vm_compute. split_and!; reflexivity.
Qed.

(** C4, amended.  Exceptions are caught, and none reaches a producer.
    An exception of the stream insertion is caught in [write] and
    reported on [cerr]; the node is released and the loop goes on with
    the next node.  An exception that gets past [write] (the report of
    its handler threw) or that the lock throws reaches the handlers of
    [get_it_done]: they report it, the thread function returns, and the
    thread has ended although [shutdown] may not be set.  Otherwise the
    thread leaves its loop only after reading [shutdown] as set and ends
    only at the end of the pass after the loop.  Each report is an
    insertion into [cerr] and is on [cerr] when that insertion puts it
    there; an exception leaves the thread function only when the report
    of its own handlers throws. *)
Theorem drain_error_policy spurious o i report report' s :
  (forall f p n e,
     worker s = Some (AtWrite f (Some p)) -> heap s !! p = Some n ->
     sink_of s = Console -> i = Thrown e -> report = Put ->
     exists s', get_it_done_full spurious o i report report' s = Ok s' /\
       worker s' = Some (AtWrite f (prev n)) /\
       cerr s' = cerr s ++ [write_report e] /\ out s' = out s /\
       heap s' = delete p (heap s) /\
       log_stream_mutex s' = log_stream_mutex s) /\
  (forall w e,
     worker s = Some w ->
     thread_body_full spurious o i report w s = Raise e ->
     ((exists f t, w = AtLock f t /\ o = Throws e) \/
      (exists f p e0, w = AtWrite f (Some p) /\ sink_of s = Console /\
         i = Thrown e0 /\ report = Thrown e)) /\
     (report' = Put ->
      exists s', get_it_done_full spurious o i report report' s = Ok s' /\
        worker s' = Some Exited /\
        cerr s' = cerr s ++ [thread_report e] /\
        shutdown s' = shutdown s /\ out s' = out s /\ heap s' = heap s /\
        log_stream_mutex s' = log_stream_mutex (unwind w s))) /\
  (forall w s',
     worker s = Some w ->
     get_it_done_full spurious o i report report' s = Ok s' ->
     worker s' = Some Exited ->
     (exists p, w = AtGetTail true p \/ w = AtWrite true p) \/
     (exists e, thread_body_full spurious o i report w s = Raise e)) /\
  (forall w s',
     worker s = Some w -> loop_pc w = true ->
     get_it_done_full spurious o i report report' s = Ok s' ->
     exists w', worker s' = Some w' /\
       (loop_pc w' = true \/
        (w = AtWhile /\ shutdown s = true /\ w' = AtLoad true) \/
        (w' = Exited /\
         exists e, thread_body_full spurious o i report w s = Raise e))) /\
  (forall e,
     get_it_done_full spurious o i report report' s = Raise e ->
     report' = Thrown e /\
     exists w e0, worker s = Some w /\
       thread_body_full spurious o i report w s = Raise e0) /\
  (forall a e, producer_action a = true -> step a s <> Raise e).
Proof.
  split_and!.
  - intros f p n e Hw Hn Hsink -> ->.
    unfold get_it_done_full. rewrite Hw. simpl.
    unfold dump_iter_full. rewrite Hn. unfold write. rewrite Hsink. simpl.
    eexists. split; [done|]. done.
  - intros w e Hw Hb. split; [by apply (thread_body_full_raise _ _ _ _ _ _ _ Hb)|].
    intros ->. unfold get_it_done_full. rewrite Hw, Hb. simpl.
    eexists. split; [done|]. by destruct w.
  - intros w s' Hw. unfold get_it_done_full. rewrite Hw.
    destruct (thread_body_full spurious o i report w s)
      as [[w' s1]|e| | |] eqn:Hb; try done; [|by eauto].
    intros [= <-]. simpl. intros [= ->]. left.
    destruct w as [| |f|f p|f [p|]|f t|f [p|]|]; simpl in Hb; try done.
    + injection Hb as Hb _. by destruct (shutdown s).
    + unfold compare_exchange_weak in Hb. destruct spurious; [done|].
      by destruct (decide (head s = p)).
    + destruct (get_tail (size (heap s)) p (heap s)); done.
    + injection Hb as Hb _. destruct f; [eauto | done].
    + destruct (lock o (log_stream_mutex s)); done.
    + destruct (dump_iter_full p i report s); done.
    + injection Hb as Hb _. destruct f; [eauto | done].
  - intros w s' Hw Hloop. unfold get_it_done_full. rewrite Hw.
    destruct (thread_body_full spurious o i report w s)
      as [[w' s1]|e| | |] eqn:Hb; try done.
    + intros [= <-]. simpl. exists w'. split; [done|].
      destruct w as [| |f|f p|f [p|]|f t|f [p|]|]; simpl in Hb, Hloop; try done.
      * injection Hb as <- _. destruct (shutdown s); [right; left; done | by left].
      * injection Hb as <- _. by left.
      * injection Hb as <- _. left. by destruct f.
      * unfold compare_exchange_weak in Hb. destruct f; [done|].
        destruct spurious; [injection Hb as <- _; by left|].
        destruct (decide (head s = p)); injection Hb as <- _; by left.
      * destruct (get_tail (size (heap s)) p (heap s)); try done.
        simpl in Hb. injection Hb as <- _. left. by destruct f.
      * injection Hb as <- _. left. by destruct f.
      * destruct (lock o (log_stream_mutex s)); try done.
        simpl in Hb. injection Hb as <- _. left. by destruct f.
      * destruct (dump_iter_full p i report s); try done.
        simpl in Hb. injection Hb as <- _. left. by destruct f.
      * injection Hb as <- _. left. by destruct f.
    + intros Hs'. exists Exited. split.
      * unfold handlers in Hs'.
        destruct report'; try done; by injection Hs' as <-.
      * right. right. eauto.
  - intros e. unfold get_it_done_full. destruct (worker s) as [w|]; [|done].
    destruct (thread_body_full spurious o i report w s)
      as [[w' s1]|e0| | |] eqn:Hb; try done.
    unfold handlers. destruct report' as [| |e']; try done.
    intros [= ->]. eauto.
  - intros a e Ha. destruct a as [level msg ts|p sp| | | | |]; try done; simpl.
    + unfold Log_enter. destruct (_ || _ || _); [done|].
      destruct (level >=? current_level s); [|done].
      by destruct (severity_to_str level).
    + case_bool_decide; [|done]. unfold push_cas.
      destruct (heap s !! p); [|done]. unfold compare_exchange_weak.
      destruct sp; [done|]. by destruct (decide (head s = next n)).
Qed.

Lemma drain_error_policy_witness :
  let s := match run mid_pass (init 0 1) with Ok s => s | _ => init 0 1 end in
  exists s',
    get_it_done_full false Returns
      (Thrown (std_exception "basic_ios::clear")) Put Put s = Ok s' /\
    worker s' = Some (AtWrite false None) /\
    cerr s' = cerr s ++ ["basic_ios::clear"] /\ out s' = out s /\
    heap s' = delete 1%nat (heap s) /\
    log_stream_mutex s' = log_stream_mutex s.
Proof.
  intros s.
  destruct (drain_error_policy false Returns
              (Thrown (std_exception "basic_ios::clear")) Put Put s)
    as (Hwrite & _).
  apply (Hwrite false 1%nat (mk_node "t2 Info: b" None (Some 0%nat))
           (std_exception "basic_ios::clear")); vm_compute; reflexivity.
Defined.

Section stop.
Implicit Types (s : state).

Lemma accepted_no_log T tr : no_log tr = true -> accepted T tr = [].
Proof.
  induction tr as [|a tr IH]; [done|].
  intros Hn. unfold no_log in Hn. simpl in Hn.
  apply andb_true_iff in Hn as [Ha Htr].
  rewrite accepted_cons, IH by done. by destruct a.
Qed.

Lemma loop_before_last_take w : loop_pc w = true -> before_last_take w = true.
Proof. destruct w as [| |[]|[]|[]|[]|[]|]; done. Qed.

Lemma ExitLogger_join_worker close s s' :
  ExitLogger_join close s = Ok s' -> worker s' = None.
Proof.
  unfold ExitLogger_join. destruct (worker_mutex s); [|done].
  destruct (worker s) as [[]|]; try done.
  destruct (SetLogFile EmptyString true close (set_worker None s))
    as [s1| | | |] eqn:Hs; try done.
  simpl. intros [= <-]. simpl.
  by apply SetLogFile_frame in Hs as (_ & _ & _ & _ & -> & _).
Qed.

Lemma Logger_new_init timeout level s :
  Logger_new timeout level = Ok s -> s = init timeout level.
Proof.
  unfold Logger_new. destruct (_ || _); [done|].
  destruct (timeout <? 0); [done|]. by intros [= <-].
Qed.

(** A state with no node linked, held or being pushed has an empty
    store, unless nodes were lost. *)
Lemma inv_empty s :
  inv ∅ s -> head s = None -> worker s = None -> pushing s = [] ->
  heap s = ∅.
Proof.
  intros (lq & lw & [Hque _ Hwk _ _ Hdom _ _ _]) Hh Hw Hp.
  rewrite Hh in Hque. apply chain_nil in Hque. subst lq.
  rewrite Hw in Hwk. simpl in Hwk. subst lw. rewrite Hp in Hdom.
  apply map_empty. intros a. apply not_elem_of_dom. intros Hin.
  apply Hdom in Hin as [Hin|Hin]; [by apply elem_of_nil in Hin|].
  by apply not_elem_of_empty in Hin.
Qed.

End stop.

(** * The files *)

Section on_disk.
Implicit Types (s : state) (fs : list (string * list string)).

Lemma file_lines_absent name fs : name ∉ fs.*1 -> file_lines name fs = [].
Proof.
  induction fs as [|[m c] fs IH]; [done|]. simpl. intros Hn.
  apply not_elem_of_cons in Hn as [Hne Hn].
  rewrite (proj2 (String.eqb_neq m name)) by congruence. auto.
Qed.

Lemma truncate_absent name fs : name ∉ fs.*1 -> truncate name fs = fs.
Proof.
  induction fs as [|[m c] fs IH]; [done|]. simpl. intros Hn.
  apply not_elem_of_cons in Hn as [Hne Hn]. unfold truncate.
  rewrite filter_cons_True.
  - f_equal. by apply IH.
  - simpl. apply String.eqb_neq. congruence.
Qed.

Lemma truncate_cons_eq name c fs :
  truncate name ((name, c) :: fs) = truncate name fs.
Proof.
  unfold truncate. rewrite filter_cons_False; [done|].
  simpl. by rewrite String.eqb_refl.
Qed.

Lemma truncate_cons_ne name m c fs :
  m <> name -> truncate name ((m, c) :: fs) = (m, c) :: truncate name fs.
Proof.
  intros Hne. unfold truncate. rewrite filter_cons_True; [done|].
  simpl. by apply String.eqb_neq.
Qed.

Lemma truncate_keys name fs n :
  n ∈ (truncate name fs).*1 -> n ∈ fs.*1 /\ n <> name.
Proof.
  unfold truncate. intros Hn. apply list_elem_of_fmap in Hn as ([m c] & -> & Hin).
  apply list_elem_of_filter in Hin as [Hne Hin]. simpl in *. split.
  - apply list_elem_of_fmap. by exists (m, c).
  - by apply String.eqb_neq.
Qed.

Lemma truncate_NoDup name fs : NoDup fs.*1 -> NoDup (truncate name fs).*1.
Proof.
  induction fs as [|[m c] fs IH]; [done|]. simpl. intros Hnd.
  apply NoDup_cons in Hnd as [Hm Hnd].
  destruct (decide (m = name)) as [->|Hne].
  - rewrite truncate_cons_eq. auto.
  - rewrite truncate_cons_ne by done. simpl. apply NoDup_cons. split; [|auto].
    intros Hin. by apply truncate_keys in Hin as [? _].
Qed.

Lemma file_lines_truncate name fs : file_lines name (truncate name fs) = [].
Proof.
  apply file_lines_absent. intros Hin. by apply truncate_keys in Hin as [_ ?].
Qed.

Lemma file_lines_truncate_ne name m fs :
  m <> name -> file_lines m (truncate name fs) = file_lines m fs.
Proof.
  intros Hne. induction fs as [|[k c] fs IH]; [done|].
  destruct (decide (k = name)) as [->|Hk].
  - rewrite truncate_cons_eq, IH. simpl.
    by rewrite (proj2 (String.eqb_neq name m)).
  - rewrite truncate_cons_ne by done. simpl. by rewrite IH.
Qed.

Lemma truncate_submseteq name fs :
  concat (truncate name fs).*2 ⊆+ concat fs.*2.
Proof.
  induction fs as [|[m c] fs IH]; [done|].
  destruct (decide (m = name)) as [->|Hne].
  - rewrite truncate_cons_eq. simpl. by apply submseteq_inserts_l.
  - rewrite truncate_cons_ne by done. simpl. by apply submseteq_skips_l.
Qed.

(** The lines of one file, and the lines of the others. *)
Lemma files_split name fs :
  NoDup fs.*1 ->
  concat fs.*2 ≡ₚ file_lines name fs ++ concat (truncate name fs).*2.
Proof.
  induction fs as [|[m c] fs IH]; [done|]. simpl. intros Hnd.
  apply NoDup_cons in Hnd as [Hm Hnd].
  destruct (decide (m = name)) as [->|Hne].
  - rewrite String.eqb_refl, truncate_cons_eq.
    by rewrite (truncate_absent name fs).
  - rewrite (proj2 (String.eqb_neq m name)) by done.
    rewrite truncate_cons_ne by done. simpl.
    rewrite (IH Hnd). rewrite !app_assoc.
    apply Permutation_app; [apply Permutation_app_comm | done].
Qed.

Lemma lines_at_snoc d d' v l :
  lines_at d (l ++ [(d', v)])
  = lines_at d l ++ (if decide (d' = d) then [v] else []).
Proof.
  unfold lines_at. rewrite filter_app, fmap_app. f_equal.
  destruct (decide (d' = d)) as [->|Hne].
  - by rewrite filter_cons_True.
  - rewrite filter_cons_False by done. done.
Qed.

Lemma lines_at_nothing d l :
  (forall v, (d, v) ∉ l) -> lines_at d l = [].
Proof.
  intros Hn. induction l as [|[d' v] l IH]; [done|]. unfold lines_at.
  rewrite filter_cons_False.
  - apply IH. intros v' Hin. apply (Hn v'). by right.
  - simpl. intros ->. apply (Hn v). by left.
Qed.

Lemma holdings_put d v s :
  NoDup (files s).*1 ->
  holdings (put_out d v s) ≡ₚ holdings s ++ [v].
Proof.
  intros Hnd. unfold holdings. simpl. rewrite lines_at_snoc.
  destruct d as [|name]; simpl.
  - rewrite <- !app_assoc. apply Permutation_app; [done|].
    apply Permutation_app_comm.
  - rewrite (files_split name (files s) Hnd), app_nil_r, <- !app_assoc.
    do 2 (apply Permutation_app; [done|]). apply Permutation_app_comm.
Qed.

Lemma written_files v o s :
  files (written v o s)
  = match o with
    | Returns => append_line (sink_of s) v (files s)
    | Throws _ => files s
    end.
Proof.
  unfold written, sink_of. destruct o as [|[|]]; simpl;
    by destruct (log_stream s) as [[? []]|].
Qed.

Lemma written_put v s : written v Returns s = put_out (sink_of s) v s.
Proof.
  unfold written, sink_of. by destruct (log_stream s) as [[? []]|].
Qed.

Lemma release_stream_files close f s :
  files (release_stream close f s) = files s /\
  out (release_stream close f s) = out s.
Proof.
  destruct f as [[nm op]|]; [|done]. unfold release_stream, log_file_closer.
  simpl. destruct op; [|done]. by destruct close as [|[|]].
Qed.

(** What a step does to the written lines and to the files. *)
Lemma step_effect a s s' :
  step a s = Ok s' ->
  (out s' = out s /\ files s' = files s /\ opened_by a = None) \/
  (exists v, opened_by a = None /\
     out s' = out (put_out (sink_of s) v s) /\
     files s' = files (put_out (sink_of s) v s)) \/
  (exists name, opened_by a = Some name /\ out s' = out s /\
     files s' = truncate name (files s)).
Proof.
  destruct a as [level msg ts|p sp|name open_ok close| | |close|sp o];
    simpl step.
  - unfold Log_enter. destruct (_ || _ || _); [intros [= <-]; by left|].
    destruct (level >=? current_level s); [|intros [= <-]; by left].
    destruct (severity_to_str level); [|done].
    unfold push_begin. simpl. intros [= <-]. by left.
  - case_bool_decide; [|done]. unfold push_cas.
    destruct (heap s !! p) as [n|]; [|done]. unfold compare_exchange_weak.
    destruct sp; [simpl; intros [= <-]; by left|].
    destruct (decide (head s = next n)); simpl; intros [= <-]; by left.
  - unfold SetLogFile. destruct (log_stream_mutex s); simpl; [done|].
    intros [= <-]. simpl.
    destruct (decide (name = EmptyString)) as [->|Hne].
    + left. simpl.
      match goal with |- context [release_stream ?c ?g ?t] =>
        destruct (release_stream_files c g t) as [-> ->] end.
      by destruct open_ok.
    + destruct open_ok; simpl.
      * right. right. exists name. split; [done|].
        match goal with |- context [release_stream ?c ?g ?t] =>
          destruct (release_stream_files c g t) as [-> ->] end.
        done.
      * by left.
  - unfold StartBackGroundThread. destruct (worker s); [intros [= <-]; by left|].
    destruct (worker_mutex s); simpl; [done|]. intros [= <-]. by left.
  - unfold ExitLogger_enter. destruct (worker s); [|intros [= <-]; by left].
    destruct (worker_mutex s); simpl; [done|]. intros [= <-]. by left.
  - unfold ExitLogger_join. destruct (worker_mutex s); [|done].
    destruct (worker s) as [[]|]; try done. unfold SetLogFile. simpl.
    destruct (log_stream_mutex s); simpl; [done|]. intros [= <-]. simpl.
    left.
    match goal with |- context [release_stream ?c ?g ?t] =>
      destruct (release_stream_files c g t) as [-> ->] end.
      done.
  - unfold get_it_done. destruct (worker s) as [w|]; [|done].
    destruct (thread_body sp o w s) as [[w' s1]|[|]| | |] eqn:Hb; try done;
      try (intros [= <-]; by left).
    intros [= <-]. simpl.
    destruct w as [| |f|f p|f [p|]|f t|f [p|]|]; simpl in Hb; try done;
      try (injection Hb as <- <-; by left).
    + unfold compare_exchange_weak in Hb. destruct sp.
      { injection Hb as <- <-. by left. }
      destruct (decide (head s = p)); injection Hb as <- <-; by left.
    + destruct (get_tail (size (heap s)) p (heap s)) as [r| | | |]; try done.
      simpl in Hb. injection Hb as <- <-. by left.
    + destruct (lock o (log_stream_mutex s)); try done.
      simpl in Hb. injection Hb as <- <-. by left.
    + unfold dump_iter in Hb. destruct (heap s !! p) as [n|]; [|done].
      simpl in Hb. injection Hb as <- <-. simpl.
      rewrite written_out, written_files.
      destruct o; [|by left].
      right. left. by exists (val n).
Qed.

Lemma opened_cons a tr :
  opened (a :: tr) = option_list (opened_by a) ++ opened tr.
Proof. unfold opened. simpl. by destruct (opened_by a). Qed.

Lemma opened_app tr1 tr2 : opened (tr1 ++ tr2) = opened tr1 ++ opened tr2.
Proof. unfold opened. apply omap_app. Qed.

End on_disk.

(** * Further properties of the queue *)

Section queue.
Implicit Types (s : state) (h : gmap addr node) (l lq lw : list addr) (L : gset addr).

Lemma filter_ne_fresh (p : addr) l : p ∉ l -> filter (fun a => a ≠ p) l = l.
Proof.
  induction l as [|a l IH]; intros Hp; [done|].
  apply not_elem_of_cons in Hp as [Hne Hp].
  rewrite filter_cons_True by done. by rewrite IH.
Qed.

(** An uninterrupted [push]: the first exchange succeeds. *)
Lemma que_push_spec L lq lw s fuel v :
  inv_at L lq lw s ->
  exists s',
    que_push (S fuel) v s = Ok s' /\
    inv_at L (brk s :: lq) lw s' /\
    head s' = Some (brk s) /\
    heap s' = <[brk s := mk_node v None (head s)]> (heap s) /\
    brk s' = S (brk s) /\ pushing s' = pushing s /\
    out s' = out s /\ cerr s' = cerr s /\ closed s' = closed s /\
    log_stream s' = log_stream s /\
    log_stream_mutex s' = log_stream_mutex s /\ worker s' = worker s.
Proof.
  intros Hinv. pose proof (push_begin_inv L lq lw s v Hinv) as Hinv1.
  pose proof (fun a => inv_at_below L lq lw s a Hinv) as Hlt.
  unfold que_push. destruct (push_begin v s) as [p s1] eqn:Hpb.
  unfold push_begin in Hpb. injection Hpb as <- <-. simpl in Hinv1.
  destruct (push_cas_inv L lq lw _ false (brk s) Hinv1 ltac:(left))
    as (ok & s' & Hcas & Hinv').
  cbn [push_spin]. rewrite Hcas. cbn [bind fst snd].
  unfold push_cas in Hcas. simpl in Hcas. rewrite lookup_insert_eq in Hcas.
  unfold compare_exchange_weak in Hcas. simpl in Hcas.
  rewrite decide_True in Hcas by done. injection Hcas as <- <-.
  eexists. split; [done|]. split; [done|]. simpl.
  rewrite insert_insert_eq.
  split_and!; try done.
  rewrite filter_cons_False by (intros Hne; by apply Hne).
  apply filter_ne_fresh. intros Hin.
  assert (brk s < brk s)%nat; [|lia]. apply Hlt.
  apply elem_of_app. right. apply elem_of_app. by right.
Qed.

Lemma que_push_vals L lq lw s v :
  inv_at L lq lw s ->
  vals (<[brk s := mk_node v None (head s)]> (heap s)) (brk s :: lq)
  = v :: vals (heap s) lq.
Proof.
  intros Hinv. pose proof (fun a => inv_at_below L lq lw s a Hinv) as Hlt.
  rewrite vals_cons, lookup_insert_eq. simpl. f_equal.
  apply vals_agree. intros a Ha. rewrite lookup_insert_ne; [done|].
  intros <-. assert (brk s < brk s)%nat; [|lia]. apply Hlt.
  apply elem_of_app. by left.
Qed.

(** [lq'] is the chain after the pushes, newest first. *)
Lemma push_all_spec vs : forall L lq lw s,
  inv_at L lq lw s ->
  exists s' lq',
    push_all 1 vs s = Ok s' /\ inv_at L lq' lw s' /\
    vals (heap s') lq' = rev vs ++ vals (heap s) lq /\
    pending s' ≡ₚ vs ++ pending s /\
    out s' = out s /\ log_stream s' = log_stream s /\
    log_stream_mutex s' = log_stream_mutex s.
Proof.
  induction vs as [|v vs IH]; intros L lq lw s Hinv.
  - exists s, lq. done.
  - destruct (que_push_spec L lq lw s 0 v Hinv)
      as (s1 & Hp & Hinv1 & _ & Hheap & _ & _ & Ho & _ & _ & Hl & Hm & _).
    destruct (IH L _ lw s1 Hinv1)
      as (s' & lq' & Hall & Hinv' & Hv & Hpe & Ho' & Hl' & Hm').
    exists s', lq'. cbn [push_all]. rewrite Hp. cbn [bind].
    split; [done|]. split; [done|]. split; [|split; [|by rewrite Ho', Hl', Hm']].
    + rewrite Hv, Hheap, (que_push_vals L lq lw s v Hinv).
      simpl rev. by rewrite <- app_assoc.
    + rewrite Hpe. unfold pending. rewrite Hheap, payloads_insert_fresh.
      * symmetry. apply Permutation_middle.
      * apply not_elem_of_dom. intros Hin.
        destruct Hinv as [_ _ _ _ _ _ _ Hbrk _]. apply Hbrk in Hin. lia.
Qed.

(** Releasing the nodes [l] takes exactly their payloads away. *)
Lemma payloads_released l : forall h,
  NoDup l -> (forall a, a ∈ l -> is_Some (h !! a)) ->
  payloads h ≡ₚ vals h l ++ payloads (released l h).
Proof.
  induction l as [|a l IH]; intros h Hnd Hall; [done|].
  apply NoDup_cons in Hnd as [Ha Hnd].
  destruct (Hall a ltac:(left)) as [n Hn].
  rewrite vals_cons, Hn. simpl released.
  rewrite (payloads_delete h a n Hn). simpl. f_equal.
  rewrite (IH (delete a h)); [|done|].
  - rewrite (vals_agree h (delete a h)); [done|].
    intros b Hb. rewrite lookup_delete_ne; [done | by intros ->].
  - intros b Hb. rewrite lookup_delete_ne by (by intros ->).
    apply Hall. by right.
Qed.

Lemma written_set_head hd v o s :
  written v o (set_head hd s) = set_head hd (written v o s).
Proof.
  unfold written. destruct o as [|[w|]]; simpl;
    by destruct (log_stream s) as [[nm []]|].
Qed.

Lemma writes_set_head hd os vs : forall s,
  writes os vs (set_head hd s) = set_head hd (writes os vs s).
Proof.
  revert os. induction vs as [|v vs IH]; intros os s; [done|].
  simpl. by rewrite written_set_head, IH.
Qed.

End queue.

(** X1.  First in, first out.  When one thread pushes the lines [vs] in
    this order onto an empty queue, and the whole queue is then taken
    and drained, the lines are written in the order in which they were
    pushed, and the queue is empty afterwards. *)
Theorem push_take_drain_fifo timeout level tr s vs :
  run tr (init timeout level) = Ok s ->
  head s = None ->
  log_stream_mutex s = false ->
  exists s1 p s2 s3,
    push_all 1 vs s = Ok s1 /\
    que_dump_que 1 s1 = Ok (p, s2) /\
    dump_que [] p s2 = Ok s3 /\
    out s3 = out s ++ ((fun v => (sink_of s, v)) <$> vs) /\
    head s3 = None /\ pending s3 ≡ₚ pending s.
Proof.
  intros Hrun Hhead Hm.
  destruct (run_inv tr ∅ _ (init_inv timeout level))
    as [Hb|(s0 & L & Hr & (lq & lw & Hinv) & _)]; [congruence|].
  rewrite Hrun in Hr. injection Hr as <-.
  assert (lq = []) as ->.
  { destruct Hinv as [Hque _ _ _ _ _ _ _ _]. rewrite Hhead in Hque.
    by apply chain_nil in Hque. }
  destruct (push_all_spec vs L [] lw s Hinv)
    as (s1 & lq' & Hall & Hinv1 & Hv & Hpend & Ho & Hl & Hm1).
  rewrite app_nil_r in Hv.
  pose proof Hinv1 as [Hque Hqun _ _ _ _ _ _ _].
  exists s1, (head s1), (set_head None s1).
  assert (que_dump_que 1 s1 = Ok (head s1, set_head None s1)) as Htake.
  { unfold que_dump_que. simpl. unfold compare_exchange_weak.
    by rewrite decide_True. }
  assert (sink_of s1 = sink_of s) as Hsink by (unfold sink_of; by rewrite Hl).
  destruct (head s1) as [p|] eqn:Hh1.
  - eexists. split; [done|]. split; [done|].
    rewrite (dump_que_chain [] (set_head None s1) p lq');
      [|done|done|by simpl; congruence].
    split; [done|]. cbn [heap set_head].
    rewrite writes_set_head.
    split; [|split; [done|]].
    + simpl. rewrite writes_out, Ho, Hsink, Hv, rev_involutive. done.
    + unfold pending. simpl.
      destruct (writes_frame [] (rev (vals (heap s1) lq')) s1) as (-> & _).
      pose proof (payloads_released lq' (heap s1)) as Hrel.
      rewrite Hv in Hrel. unfold pending in Hpend. rewrite Hrel in Hpend.
      * apply (Permutation_app_inv_l vs). etrans; [|exact Hpend].
        apply Permutation_app_tail. apply Permutation_rev.
      * exact (chain_NoDup next (heap s1) lq' (Some p) Hque).
      * intros a Ha. exact (chain_allocated next (heap s1) (Some p) lq' a Hque Ha).
  - exists (set_head None s1). split; [done|]. split; [done|]. split; [done|].
    apply chain_nil in Hque. subst lq'. simpl in Hv.
    assert (vs = []) as ->.
    { apply (f_equal (@rev string)) in Hv. rewrite rev_involutive in Hv.
      by rewrite <- Hv. }
    simpl. rewrite app_nil_r. split; [done|]. split; [done|].
    exact Hpend.
Qed.

Lemma push_take_drain_fifo_witness :
  exists s1 p s2 s3,
    push_all 1 ["one"; "two"; "three"] (init 0 1) = Ok s1 /\
    que_dump_que 1 s1 = Ok (p, s2) /\
    dump_que [] p s2 = Ok s3 /\
    out s3 = out (init 0 1)
             ++ ((fun v => (sink_of (init 0 1), v)) <$> ["one"; "two"; "three"]) /\
    head s3 = None /\ pending s3 ≡ₚ pending (init 0 1).
Proof.
  apply (push_take_drain_fifo 0 1 [] (init 0 1) ["one"; "two"; "three"]);
    reflexivity.
Defined.

(** X2.  The exchange of [push] links the node exactly when it is not a
    spurious failure and [head] still is what the node's [next] says.
    A failed exchange loads the current [head] into [next], so that the
    next exchange, if nothing comes in between and it does not fail
    spuriously, succeeds: the node is then the head, in front of the node
    that was the head, and the call is over. *)
Theorem push_retry_succeeds timeout level tr s p spurious :
  run tr (init timeout level) = Ok s ->
  p ∈ pushing s ->
  exists n ok s1,
    heap s !! p = Some n /\
    push_cas spurious p s = Ok (ok, s1) /\
    (ok = true <-> spurious = false /\ next n = head s) /\
    (ok = true -> head s1 = Some p /\ (p ∉ pushing s1) /\
                  heap s1 !! p = Some n) /\
    (ok = false ->
     head s1 = head s /\ pushing s1 = pushing s /\
     heap s1 !! p = Some (set_next (head s) n) /\
     exists s2, push_cas false p s1 = Ok (true, s2) /\
                head s2 = Some p /\ (p ∉ pushing s2) /\
                heap s2 !! p = Some (set_next (head s) n)).
Proof.
  intros Hrun Hp.
  destruct (run_inv tr ∅ _ (init_inv timeout level))
    as [Hb|(s0 & L & Hr & (lq & lw & Hinv) & _)]; [congruence|].
  rewrite Hrun in Hr. injection Hr as <-.
  destruct Hinv as [_ _ _ Hpu _ _ _ _ _].
  destruct (Hpu p Hp) as (n & Hn & _). exists n.
  assert (Hnot : forall l : list addr, p ∉ filter (fun a => a ≠ p) l).
  { intros l Hin. by apply list_elem_of_filter in Hin as [Hne _]. }
  assert (Hretry : exists s2,
    push_cas false p (set_head (head s)
      (set_heap (fun m => <[p := set_next (head s) n]> m) s)) = Ok (true, s2) /\
    head s2 = Some p /\ (p ∉ pushing s2) /\
    heap s2 !! p = Some (set_next (head s) n)).
  { unfold push_cas. simpl. rewrite lookup_insert_eq.
    unfold compare_exchange_weak. simpl. rewrite decide_True by done.
    eexists. split; [done|]. simpl. split; [done|]. split; [apply Hnot|].
    by rewrite lookup_insert_eq. }
  assert (Hfail : spurious = true \/ head s <> next n ->
    push_cas spurious p s
    = Ok (false, set_head (head s)
                   (set_heap (fun m => <[p := set_next (head s) n]> m) s))).
  { intros Hc. unfold push_cas. rewrite Hn. unfold compare_exchange_weak.
    destruct spurious; [done|]. destruct Hc as [?|Hc]; [done|].
    by rewrite decide_False. }
  destruct spurious.
  - eexists false, _. split; [done|]. split; [apply Hfail; by left|].
    split; [split; [done | by intros [? _]]|]. split; [done|].
    intros _. split; [done|]. split; [done|].
    split; [simpl; by rewrite lookup_insert_eq | exact Hretry].
  - destruct (decide (head s = next n)) as [Heq|Hne].
    + eexists true, _. split; [done|]. split.
      { unfold push_cas. rewrite Hn. unfold compare_exchange_weak.
        rewrite decide_True by done. done. }
      split; [done|]. split; [|done].
      intros _. simpl. split; [done|]. split; [apply Hnot|].
      rewrite lookup_insert_eq. by destruct n.
    + eexists false, _. split; [done|]. split; [apply Hfail; by right|].
      split; [split; [done | intros [_ ?]; congruence]|]. split; [done|].
      intros _. split; [done|]. split; [done|].
      split; [simpl; by rewrite lookup_insert_eq | exact Hretry].
Qed.

Lemma push_retry_succeeds_witness :
  exists s, run [ALog 1 "a" "t1"; ALog 2 "b" "t2"; ACas 1%nat false] (init 0 1) = Ok s /\
  exists n ok s1,
    heap s !! 0%nat = Some n /\
    push_cas false 0%nat s = Ok (ok, s1) /\
    (ok = true <-> false = false /\ next n = head s) /\
    (ok = true -> head s1 = Some 0%nat /\ (0%nat ∉ pushing s1) /\
                  heap s1 !! 0%nat = Some n) /\
    (ok = false ->
     head s1 = head s /\ pushing s1 = pushing s /\
     heap s1 !! 0%nat = Some (set_next (head s) n) /\
     exists s2, push_cas false 0%nat s1 = Ok (true, s2) /\
                head s2 = Some 0%nat /\ (0%nat ∉ pushing s2) /\
                heap s2 !! 0%nat = Some (set_next (head s) n)).
Proof.
  eexists. split; [vm_compute; reflexivity|].
  apply (push_retry_succeeds 0 1
           [ALog 1 "a" "t1"; ALog 2 "b" "t2"; ACas 1%nat false]).
  - vm_compute. reflexivity.
  - vm_compute. apply list_elem_of_here.
Defined.

(** X3.  [StartBackGroundThread] is idempotent: a call that finds a
    thread object changes nothing, whatever the mutex; a call that finds
    none clears [shutdown] and starts the thread at the head of its loop,
    and waits only while an [ExitLogger] holds the mutex.  After a call
    has returned, another call changes nothing. *)
Theorem Start_idempotent s :
  (StartBackGroundThread s = Blocked <->
   worker s = None /\ worker_mutex s = true) /\
  (forall s1, StartBackGroundThread s = Ok s1 ->
     (worker s <> None -> s1 = s) /\
     (worker s = None ->
      s1 = set_worker (Some AtWhile) (set_shutdown false s)) /\
     StartBackGroundThread s1 = Ok s1).
Proof.
  unfold StartBackGroundThread.
  destruct (worker s) as [w|] eqn:Hw.
  - split; [split; [done | by intros [? _]]|].
    intros s1 [= <-]. rewrite Hw. done.
  - destruct (worker_mutex s) eqn:Hm; simpl.
    + split; [done | done].
    + split; [split; [done | by intros [_ ?]]|].
      intros s1 [= <-]. done.
Qed.

(** X4.  [ExitLogger] returns from [join] only when the thread function
    has returned, and then leaves a stopped logger that can be started
    again: no thread object, the mutex free, a further [ExitLogger] a
    no-op, and [StartBackGroundThread] starting a fresh thread with
    [shutdown] cleared. *)
Theorem ExitLogger_join_cases close s s' :
  ExitLogger_join close s = Ok s' ->
  worker s = Some Exited /\ worker_mutex s = true /\
  log_stream_mutex s = false /\
  worker s' = None /\ worker_mutex s' = false /\
  heap s' = heap s /\ head s' = head s /\ out s' = out s /\
  ExitLogger_enter s' = Ok s' /\
  StartBackGroundThread s'
  = Ok (set_worker (Some AtWhile) (set_shutdown false s')).
Proof.
  unfold ExitLogger_join. destruct (worker_mutex s) eqn:Hm; [|done].
  destruct (worker s) as [[]|] eqn:Hw; try done.
  destruct (SetLogFile EmptyString true close (set_worker None s))
    as [s1| | | |] eqn:Hs; try done.
  simpl. intros [= <-].
  assert (log_stream_mutex s = false) as Hlm.
  { unfold SetLogFile in Hs. simpl in Hs. by destruct (log_stream_mutex s). }
  apply SetLogFile_frame in Hs as (Hh & _ & Hhd & _ & Hw1 & _ & Ho & _).
  simpl in *. unfold ExitLogger_enter, StartBackGroundThread. simpl.
  rewrite Hw1. done.
Qed.

Lemma ExitLogger_join_cases_witness :
  let s := mk_state ∅ 0%nat None [] true 1 0 true (Some Exited) false
             (Some (mk_ofstream "log_file0.txt" true)) [] [] [] in
  let s' := mk_state ∅ 0%nat None [] true 1 0 false None false
              None [] [] ["log_file0.txt"] in
  worker s = Some Exited /\ worker_mutex s = true /\
  log_stream_mutex s = false /\
  worker s' = None /\ worker_mutex s' = false /\
  heap s' = heap s /\ head s' = head s /\ out s' = out s /\
  ExitLogger_enter s' = Ok s' /\
  StartBackGroundThread s'
  = Ok (set_worker (Some AtWhile) (set_shutdown false s')).
Proof.
  intros s s'. apply (ExitLogger_join_cases Returns s s'). reflexivity.
Defined.

(** X5.  [SetLogFile] with a name whose file opens: the new stream
    becomes the destination.  The file of that name holds nothing any
    more, whatever it held; the other files and the console keep their
    lines, and the record of the insertions made stays.  The next line
    goes to that file, which then holds this line and no other.  The
    stream that is replaced is flushed and closed by its deleter; if
    that throws, the message goes to [cerr] and the swap stands all the
    same.  The queue, the store, the pushes under way, the thread, its
    mutex and [shutdown] are not touched. *)
Theorem SetLogFile_swap name close s :
  name <> EmptyString ->
  log_stream_mutex s = false ->
  exists s',
    SetLogFile name true close s = Ok s' /\
    log_stream s' = Some (mk_ofstream name true) /\
    sink_of s' = File name /\
    log_stream_mutex s' = false /\
    files s' = truncate name (files s) /\
    file_lines name (files s') = [] /\
    (forall other, other <> name ->
       file_lines other (files s') = file_lines other (files s)) /\
    out s' = out s /\
    (forall msg report, exists s'',
       write msg Put report s' = Ok s'' /\
       out s'' = out s ++ [(File name, msg)] /\
       file_lines name (files s'') = [msg] /\
       (forall other, other <> name ->
          file_lines other (files s'') = file_lines other (files s)) /\
       cerr s'' = cerr s') /\
    heap s' = heap s /\ head s' = head s /\ pushing s' = pushing s /\
    worker s' = worker s /\ worker_mutex s' = worker_mutex s /\
    shutdown s' = shutdown s /\
    match log_stream s, close with
    | Some old, Returns =>
        if is_open old
        then closed s' = closed s ++ [fname old] /\ cerr s' = cerr s
        else closed s' = closed s /\ cerr s' = cerr s
    | Some old, Throws e =>
        if is_open old
        then closed s' = closed s /\ cerr s' = cerr s ++ [close_report e]
        else closed s' = closed s /\ cerr s' = cerr s
    | None, _ => closed s' = closed s /\ cerr s' = cerr s
    end.
Proof.
  intros Hne Hm.
  destruct (SetLogFile name true close s) as [s'| | | |] eqn:Hs;
    try (unfold SetLogFile in Hs; rewrite Hm in Hs; simpl in Hs; done).
  exists s'. split; [done|].
  pose proof (SetLogFile_frame _ _ _ _ _ Hs)
    as (Hh & _ & Hhd & Hpu & Hw & Hlm & Ho & Hsh & Hwm & _).
  assert (Hop : opened_by (ASetLogFile name true close) = Some name).
  { simpl. by rewrite decide_False. }
  destruct (step_effect (ASetLogFile name true close) s s' Hs)
    as [(_ & _ & Hc)|[(v & Hc & _)|(nm & Hc & _ & Hf)]]; try congruence.
  rewrite Hop in Hc. injection Hc as <-.
  assert (Hl : log_stream s' = Some (mk_ofstream name true)).
  { unfold SetLogFile in Hs. rewrite Hm in Hs. simpl in Hs.
    rewrite decide_False in Hs by done. injection Hs as <-. simpl.
    match goal with |- context [release_stream ?c ?g ?t] =>
      destruct (release_stream_frame c g t)
        as (_ & _ & _ & _ & _ & _ & -> & _) end. done. }
  assert (Hsink : sink_of s' = File name).
  { unfold sink_of. by rewrite Hl. }
  split; [done|]. split; [done|]. split; [congruence|]. split; [done|].
  split; [rewrite Hf; apply file_lines_truncate|].
  split; [intros other Ho'; rewrite Hf; by apply file_lines_truncate_ne|].
  split; [done|]. split.
  { intros msg report. unfold write. rewrite Hsink. eexists. split; [done|].
    simpl. rewrite Ho, Hf, String.eqb_refl, file_lines_truncate.
    split; [done|]. split; [done|]. split; [|done].
    intros other Ho'. rewrite (proj2 (String.eqb_neq name other)) by congruence.
    unfold truncate. rewrite list_filter_filter.
    rewrite (list_filter_iff _ (fun x => String.eqb x.1 name = false)).
    2:{ intros x. tauto. }
    by apply file_lines_truncate_ne. }
  split_and!; try done.
  unfold SetLogFile in Hs. rewrite Hm in Hs. simpl in Hs.
  rewrite decide_False in Hs by done. injection Hs as <-.
  destruct (log_stream s) as [[old op]|] eqn:Hls; simpl.
  - unfold log_file_closer. simpl.
    destruct op; [destruct close as [|[what|]]|]; simpl; try done.
    by destruct close.
  - by destruct close.
Qed.

Lemma SetLogFile_swap_witness :
  exists s s',
    run opened_twice (init 0 1) = Ok s' /\
    run (removelast opened_twice) (init 0 1) = Ok s /\
    files s = [("log.txt", ["t1 Debug: a"])] /\ files s' = [] /\
    out s' = [(File "log.txt", "t1 Debug: a")] /\
    closed s' = ["log.txt"] /\
    forall msg report, exists s'',
      write msg Put report s' = Ok s'' /\
      out s'' = out s ++ [(File "log.txt", msg)] /\
      file_lines "log.txt" (files s'') = [msg].
Proof.
  eexists _, _. split; [vm_compute; reflexivity|].
  split; [vm_compute; reflexivity|].
  match goal with |- context [files ?t = [("log.txt", _)]] =>
    destruct (SetLogFile_swap "log.txt" Returns t)
      as (s' & Hs & _ & _ & _ & _ & _ & _ & _ & Hw & _) end;
    [discriminate | reflexivity |].
  vm_compute in Hs. injection Hs as <-.
  split_and!; try reflexivity.
  intros msg report. destruct (Hw msg report) as (s'' & ? & ? & ? & _).
  by exists s''.
Defined.

(** X6.  [strcpy] copies up to the first NUL: the copy is a prefix of the
    source, holds no NUL, is never longer than the source (the buffer of
    [length + 1] characters is large enough), and is the source itself
    when that holds no NUL; what is cut off starts with a NUL. *)
Theorem strcpy_prefix src :
  has_nul (strcpy src) = false /\
  (String.length (strcpy src) <= String.length src)%nat /\
  (has_nul src = false -> strcpy src = src) /\
  exists rest, src = strcpy src +:+ rest /\
    (has_nul src = true -> exists r, rest = String zero r).
Proof.
  induction src as [|c r (IH1 & IH2 & IH3 & rest & IH4 & IH5)]; simpl.
  - split_and!; try done. exists EmptyString. done.
  - destruct (Ascii.eqb c zero) eqn:Hc; simpl.
    + apply Ascii.eqb_eq in Hc. subst c.
      split_and!; try done; [lia|]. exists (String zero r). split; [done|eauto].
    + rewrite Hc. simpl. split_and!; [done|lia| |].
      * intros Hn. by rewrite IH3.
      * exists rest. split; [|done].
        change (String c r = String c (strcpy r +:+ rest)). by rewrite <- IH4.
Qed.

(** X7.  Whatever fails, no line is written twice: along any
    interleaving, with any stream insertion, lock or close throwing, the
    lines written together with the lines still held by nodes form a
    sub-multiset of the lines of the accepted [Log] calls. *)
Theorem written_at_most_once T timeout tr s :
  run tr (init timeout T) = Ok s ->
  (out s).*2 ++ pending s ⊆+ accepted T tr.
Proof.
  intros Hrun.
  destruct (run_account tr ∅ _ s (init_inv timeout T) Hrun) as (_ & Hsub & _).
  simpl in Hsub. unfold pending at 2 in Hsub. unfold payloads in Hsub.
  simpl in Hsub. by rewrite map_to_list_empty in Hsub.
Qed.

Lemma written_at_most_once_witness :
  exists s,
    run (at_lock ++ [AWorker false Returns; AWorker false (Throws unknown_exception)])
      (init 0 1) = Ok s /\
    (out s).*2 ++ pending s ⊆+
      accepted 1 (at_lock ++ [AWorker false Returns;
                              AWorker false (Throws unknown_exception)]).
Proof.
  eexists. split; [vm_compute; reflexivity|].
  apply (written_at_most_once 1 0). vm_compute. reflexivity.
Defined.

(** X8.  No step of a [Log] call touches the destination: the streams,
    the lock of the stream, the thread and its mutex are as before; the
    call never waits. *)
Theorem Log_leaves_sink_alone timeout level tr s a :
  run tr (init timeout level) = Ok s ->
  producer_action a = true ->
  (forall p spurious, a = ACas p spurious -> p ∈ pushing s) ->
  exists s', step a s = Ok s' /\
    out s' = out s /\ closed s' = closed s /\
    log_stream s' = log_stream s /\
    log_stream_mutex s' = log_stream_mutex s /\
    worker s' = worker s /\ worker_mutex s' = worker_mutex s /\
    shutdown s' = shutdown s /\
    (cerr s' = cerr s \/
     exists lvl msg ts, a = ALog lvl msg ts /\ valid_args lvl msg = false /\
                        cerr s' = cerr s ++ [invalid_parameters lvl msg]).
Proof.
  intros Hrun Hprod Hcas.
  destruct (run_inv tr ∅ _ (init_inv timeout level))
    as [Hb|(s0 & L & Hr & Hinv & _)]; [congruence|].
  rewrite Hrun in Hr. injection Hr as <-.
  destruct a as [lvl msg ts|p sp| | | | |]; try done; simpl step.
  - destruct (Log_enter_inv L s lvl msg ts Hinv) as (r & Hr & _).
    rewrite Hr. simpl. exists r.2. split; [done|].
    unfold Log_enter, valid_args in *.
    destruct (_ || _ || _) eqn:Hbad.
    { injection Hr as <-. simpl. split_and!; try done. right.
      exists lvl, msg, ts. by rewrite Hbad. }
    destruct (lvl >=? current_level s).
    2:{ injection Hr as <-. simpl. split_and!; try done. by left. }
    destruct (severity_to_str lvl); [|done].
    unfold push_begin in Hr. injection Hr as <-. simpl.
    split_and!; try done. by left.
  - specialize (Hcas p sp eq_refl). rewrite bool_decide_eq_true_2 by done.
    destruct Hinv as (lq & lw & Hat).
    destruct (push_cas_inv L lq lw s sp p Hat Hcas) as (ok & s' & Hc & _).
    rewrite Hc. simpl. exists s'. split; [done|].
    unfold push_cas in Hc. destruct (heap s !! p) as [n|]; [|done].
    destruct (compare_exchange_weak sp (head s) (next n) (Some p)) as [[ok' hd] e].
    injection Hc as <- <-. destruct ok'; simpl; split_and!; try done; by left.
Qed.

Lemma Log_leaves_sink_alone_witness :
  exists s', step (ALog 2 "b" "t2") (init 0 1) = Ok s' /\
    out s' = out (init 0 1) /\ closed s' = closed (init 0 1) /\
    log_stream s' = log_stream (init 0 1) /\
    log_stream_mutex s' = log_stream_mutex (init 0 1) /\
    worker s' = worker (init 0 1) /\ worker_mutex s' = worker_mutex (init 0 1) /\
    shutdown s' = shutdown (init 0 1) /\
    (cerr s' = cerr (init 0 1) \/
     exists lvl msg ts, ALog 2 "b" "t2" = ALog lvl msg ts /\
                        valid_args lvl msg = false /\
                        cerr s' = cerr (init 0 1) ++ [invalid_parameters lvl msg]).
Proof.
  apply (Log_leaves_sink_alone 0 1 [] (init 0 1) (ALog 2 "b" "t2"));
    [reflexivity | reflexivity | discriminate].
Defined.

Section stopping.
Implicit Types (s : state) (h : gmap addr node).

Lemma get_tail_dom fuel : forall p h r,
  get_tail fuel p h = Ok r -> dom r.2 = dom h.
Proof.
  induction fuel as [|f IH]; intros p h r; simpl; [done|].
  destruct (h !! p) as [n|]; [|done].
  destruct (next n) as [q|]; [|by intros [= <-]].
  destruct (h !! q) as [m|] eqn:Hq; [|done].
  intros Hr. apply IH in Hr. rewrite Hr, dom_insert_L.
  apply elem_of_dom_2 in Hq. set_solver.
Qed.

Lemma get_tail_cases fuel : forall p h,
  (exists r, get_tail fuel p h = Ok r) \/ get_tail fuel p h = Fault
  \/ get_tail fuel p h = OutOfFuel.
Proof.
  induction fuel as [|f IH]; intros p h; simpl; [by right; right|].
  destruct (h !! p) as [n|]; [|by right; left].
  destruct (next n) as [q|]; [|left; eauto].
  destruct (h !! q) as [m|]; [|by right; left]. apply IH.
Qed.

Lemma get_tail_size fuel p h r :
  get_tail fuel p h = Ok r -> size r.2 = size h.
Proof.
  intros Hr. apply get_tail_dom in Hr.
  by rewrite <- !(size_dom (D := gset addr)), Hr.
Qed.

Lemma size_delete_lt h p n :
  h !! p = Some n -> (size (delete p h) < size h)%nat.
Proof.
  intros Hp. rewrite map_size_delete, Hp.
  assert (size h <> 0%nat); [|simpl; lia].
  intros Hz. apply map_size_empty_inv in Hz. by rewrite Hz in Hp.
Qed.

(** With [shutdown] set, every step of the thread brings it nearer to
    its end; it never waits and never faults. *)
Lemma stop_rank_decreases L s w :
  inv L s -> worker s = Some w -> w <> Exited -> shutdown s = true ->
  exists s1 w1,
    get_it_done false Returns s = Ok s1 /\ worker s1 = Some w1 /\
    inv L s1 /\ shutdown s1 = true /\ worker_mutex s1 = worker_mutex s /\
    (stop_rank w1 s1 < stop_rank w s)%nat.
Proof.
  intros Hinv Hw Hne Hsd.
  destruct (get_it_done_inv L s false Returns Hinv)
    as [Hb|(s1 & L1 & Hs1 & Hinv1 & HL)].
  - exfalso. unfold get_it_done in Hb. rewrite Hw in Hb.
    destruct (thread_body false Returns w s) as [[w' s']|[|]| | |] eqn:Hbody;
      try done.
    destruct Hinv as (lq & lw & [_ _ _ _ _ _ _ _ Hmx]).
    destruct w as [| |f|f p|f [p|]|f t|f [p|]|]; simpl in Hbody; try done.
    + unfold compare_exchange_weak in Hbody. by destruct (decide (head s = p)).
    + destruct (get_tail_cases (size (heap s)) p (heap s))
        as [[r Hr]|[Hr|Hr]]; rewrite Hr in Hbody; done.
    + destruct (log_stream_mutex s) eqn:Hm; simpl in Hbody; [|done].
      destruct (proj1 Hmx eq_refl) as (? & ? & ?). congruence.
    + unfold dump_iter in Hbody. by destruct (heap s !! p).
  - rewrite (HL eq_refl) in Hinv1. exists s1.
    unfold get_it_done in Hs1. rewrite Hw in Hs1.
    destruct (thread_body false Returns w s) as [[w' s']|[|]| | |] eqn:Hbody;
      try done; try (by apply thread_body_no_raise in Hbody).
    injection Hs1 as <-. exists w'. split.
    { unfold get_it_done. by rewrite Hw, Hbody. }
    split; [done|]. split; [done|].
    pose proof (thread_body_frame _ _ _ _ _ _ Hbody) as (Hsd' & Hwm & _).
    simpl. split; [congruence|]. split; [done|].
    unfold stop_rank. cbn [heap head set_worker].
    destruct w as [| |f|f p|f [p|]|f t|f [p|]|]; simpl in Hbody; try done.
    + injection Hbody as <- <-. rewrite Hsd. lia.
    + injection Hbody as <- <-. lia.
    + injection Hbody as <- <-. destruct f; simpl; repeat case_decide;
        try congruence; lia.
    + unfold compare_exchange_weak in Hbody.
      destruct (decide (head s = p)) as [Heq|Hneq];
        injection Hbody as <- <-; destruct f; simpl; repeat case_decide;
        try congruence; lia.
    + destruct (get_tail (size (heap s)) p (heap s)) as [r| | | |] eqn:Hg;
        try done.
      simpl in Hbody. injection Hbody as <- <-. simpl.
      rewrite (get_tail_size _ _ _ _ Hg). destruct f; lia.
    + injection Hbody as <- <-. destruct f; simpl; lia.
    + destruct (log_stream_mutex s); simpl in Hbody; [done|].
      injection Hbody as <- <-. simpl. destruct f; lia.
    + unfold dump_iter in Hbody. destruct (heap s !! p) as [n|] eqn:Hn; [|done].
      cbn [bind fst snd] in Hbody. injection Hbody as <- <-.
      pose proof (size_delete_lt _ _ _ Hn) as Hlt.
      assert (forall t, heap t = heap s ->
                size (heap (set_heap (fun h => delete p h) t))
                = size (delete p (heap s))) as Hsz.
      { intros t Ht. cbn [heap set_heap]. by rewrite Ht. }
      rewrite Hsz; [destruct f; lia|].
      by destruct (log_stream s) as [[? []]|].
    + injection Hbody as <- <-. destruct f; simpl; lia.
Qed.

Lemma alone_S n s :
  run (alone (S n)) s = bind (get_it_done false Returns s) (run (alone n)).
Proof. done. Qed.

Lemma stop_within k : forall L s w,
  inv L s -> worker s = Some w -> shutdown s = true ->
  (stop_rank w s <= k)%nat ->
  exists n s',
    (n <= k)%nat /\ run (alone n) s = Ok s' /\ worker s' = Some Exited /\
    inv L s' /\ worker_mutex s' = worker_mutex s.
Proof.
  induction k as [|k IH]; intros L s w Hinv Hw Hsd Hrank.
  - assert (w = Exited) as ->.
    { destruct w as [| |[]|[] p|[] p|[] t|[] p|]; unfold stop_rank in Hrank;
        simpl in Hrank; repeat case_decide; try lia; done. }
    exists 0%nat, s. done.
  - destruct (decide (w = Exited)) as [->|Hne].
    { exists 0%nat, s. split; [lia|]. done. }
    destruct (stop_rank_decreases L s w Hinv Hw Hne Hsd)
      as (s1 & w1 & Hstep & Hw1 & Hinv1 & Hsd1 & Hwm1 & Hlt).
    destruct (IH L s1 w1 Hinv1 Hw1 Hsd1 ltac:(lia))
      as (n & s' & Hn & Hrun & Hw' & Hinv' & Hwm').
    exists (S n), s'. split; [lia|]. rewrite alone_S, Hstep. simpl.
    split; [done|]. split; [done|]. split; [done|]. congruence.
Qed.

End stopping.

(** X9.  A stop comes to its end.  Once [shutdown] is set, a thread that
    runs alone and meets no failure finishes the pass it is in, makes
    its last pass and returns, within [14 + n] steps where [n] is the
    number of nodes in the store; it never waits for the lock.  The
    [ExitLogger] call that waits in [join] then returns. *)
Theorem Stop_terminates timeout level tr close s :
  run tr (init timeout level) = Ok s ->
  worker s <> None ->
  shutdown s = true ->
  exists n s',
    (n <= 14 + size (heap s))%nat /\
    run (alone n) s = Ok s' /\ worker s' = Some Exited /\
    (worker_mutex s = true -> exists s'', ExitLogger_join close s' = Ok s'').
Proof.
  intros Hrun Hw Hsd.
  destruct (run_inv tr ∅ _ (init_inv timeout level))
    as [Hb|(s0 & L & Hr & Hinv & _)]; [congruence|].
  rewrite Hrun in Hr. injection Hr as <-.
  destruct (worker s) as [w|] eqn:Hws; [|done].
  destruct (stop_within (14 + size (heap s)) L s w Hinv Hws Hsd)
    as (n & s' & Hn & Hrun' & Hw' & Hinv' & Hwm).
  { unfold stop_rank. destruct w as [| |[]|[]|[]|[]|[]|];
      try destruct (decide _); lia. }
  exists n, s'. split; [done|]. split; [done|]. split; [done|].
  intros Hm. unfold ExitLogger_join. rewrite Hwm, Hm, Hw'.
  unfold SetLogFile.
  destruct Hinv' as (lq & lw & [_ _ _ _ _ _ _ _ Hmx]).
  destruct (log_stream_mutex s') eqn:Hlm.
  { destruct (proj1 Hmx eq_refl) as (? & ? & ?). congruence. }
  simpl. rewrite Hlm. simpl. eauto.
Qed.

Lemma Stop_terminates_witness :
  exists s, run (mid_pass ++ [AExit]) (init 0 1) = Ok s /\
  exists n s',
    (n <= 14 + size (heap s))%nat /\
    run (alone n) s = Ok s' /\ worker s' = Some Exited /\
    (worker_mutex s = true -> exists s'', ExitLogger_join Returns s' = Ok s'').
Proof.
  eexists. split; [vm_compute; reflexivity|].
  apply (Stop_terminates 0 1 (mid_pass ++ [AExit]) Returns).
  - vm_compute. reflexivity.
  - vm_compute. discriminate.
  - vm_compute. reflexivity.
Defined.

Section order.
Implicit Types (s : state) (h : gmap addr node) (l lq lw : list addr) (L : gset addr).

Lemma walk_chain link h l : forall fuel p,
  chain link h p l -> (length l <= fuel)%nat -> walk link fuel h p = vals h l.
Proof.
  induction l as [|a l IH]; intros fuel p.
  - intros -> _. by destruct fuel.
  - intros [-> (n & Hn & Hc)] Hf. destruct fuel as [|f]; [simpl in Hf; lia|].
    rewrite vals_cons, Hn. cbn [walk]. rewrite Hn. f_equal. apply IH; [done|].
    simpl in Hf. lia.
Qed.

Lemma walk_of_chain link h p l :
  chain link h p l -> walk link (size h) h p = vals h l.
Proof.
  intros Hc. apply walk_chain; [done|].
  apply nodup_length_size; [by apply (chain_NoDup link h l p)|].
  intros a Ha. apply elem_of_dom. by apply (chain_allocated link h p l).
Qed.

(** The time line read off the chains. *)
Lemma timeline_chains s lq lw :
  chain next (heap s) (head s) lq ->
  worker_chain (heap s) (worker s) lw ->
  timeline s
  = (out s).*2 ++ write_order (worker s) (vals (heap s) lw)
    ++ rev (vals (heap s) lq).
Proof.
  intros Hq Hw. unfold timeline, queued, held.
  rewrite (walk_of_chain next _ _ lq Hq). f_equal. f_equal.
  destruct (worker s) as [[| |f|f p|f p|f t|f p|]|]; simpl in *;
    try (by subst lw).
  - destruct Hw as [Hc _]. by rewrite (walk_of_chain next _ _ lw Hc).
  - by rewrite (walk_of_chain prev _ _ lw Hw).
  - by rewrite (walk_of_chain prev _ _ lw Hw).
Qed.

Lemma timeline_at L lq lw s :
  inv_at L lq lw s ->
  timeline s
  = (out s).*2 ++ write_order (worker s) (vals (heap s) lw)
    ++ rev (vals (heap s) lq).
Proof. intros [Hq _ Hw _ _ _ _ _ _]. by apply timeline_chains. Qed.

(** Steps that change neither the store nor the queue nor what is
    written, and leave the thread at a point where it holds nothing. *)
Lemma timeline_frame L lq s s' :
  inv_at L lq [] s ->
  heap s' = heap s -> head s' = head s -> out s' = out s ->
  worker_chain (heap s') (worker s') [] ->
  timeline s' = timeline s.
Proof.
  intros Hinv Hh Hhd Ho Hw'.
  rewrite (timeline_at L lq [] s Hinv).
  destruct Hinv as [Hq _ Hw _ _ _ _ _ _].
  rewrite (timeline_chains s' lq []); [|by rewrite Hh, Hhd | done].
  rewrite Hh, Ho. unfold vals. simpl.
  by destruct (worker s) as [[]|], (worker s') as [[]|].
Qed.

(** A step of the thread that meets no failure moves lines along the
    time line, but never changes it. *)
Lemma thread_body_timeline L lq lw s spurious w w' s1 :
  inv_at L lq lw s -> worker s = Some w ->
  thread_body spurious Returns w s = Ok (w', s1) ->
  timeline (set_worker (Some w') s1) = timeline s.
Proof.
  intros Hinv Hw Hbody.
  pose proof Hinv as [Hque Hqun Hwk Hpu Hnd0 Hdom0 Hleak Hbrk Hmx].
  rewrite Hw in Hwk.
  destruct w as [| |f|f p|f [p|]|f t|f [p|]|]; simpl in Hbody, Hwk; try done.
  - (* AtWhile *)
    injection Hbody as <- <-. subst lw.
    apply (timeline_frame L lq s); try done. simpl. by destruct (shutdown s).
  - (* AtSleep *)
    injection Hbody as <- <-. subst lw. by apply (timeline_frame L lq s).
  - (* AtLoad *)
    injection Hbody as <- <-. subst lw. by apply (timeline_frame L lq s).
  - (* AtCas *)
    subst lw. unfold compare_exchange_weak in Hbody.
    destruct spurious.
    { injection Hbody as <- <-. by apply (timeline_frame L lq s). }
    destruct (decide (head s = p)) as [Heq|Hne]; injection Hbody as <- <-.
    2:{ by apply (timeline_frame L lq s). }
    rewrite (timeline_at L lq [] s Hinv), Hw.
    rewrite (timeline_chains _ [] lq); simpl; [|done|by rewrite <- Heq].
    by rewrite app_nil_r.
  - (* AtGetTail, non-empty *)
    destruct Hwk as [Hc Hu].
    destruct lw as [|p' rest]; [done|]. pose proof Hc as [[= <-] _].
    pose proof Hnd0 as Hnd1.
    apply NoDup_app in Hnd1 as (Hq & Hd1 & Hwp).
    apply NoDup_app in Hwp as (Hnd & Hd2 & Hps).
    rewrite (get_tail_chain rest) in Hbody; [|done|].
    2:{ assert (length (p :: rest) <= size (heap s))%nat; [|simpl in *; lia].
        apply nodup_length_size; [done|].
        intros a Ha. apply Hdom0. left.
        apply elem_of_app. right. apply elem_of_app. by left. }
    simpl in Hbody. injection Hbody as <- <-.
    rewrite (timeline_at L lq (p :: rest) s Hinv), Hw.
    rewrite (timeline_chains _ lq (rev rest ++ [p]));
      cbn [heap head out worker set_worker set_heap write_order].
    + f_equal. f_equal.
      * rewrite <- vals_rev. apply vals_agree.
        intros a _. apply back_linked_val_next.
      * f_equal. apply vals_agree. intros a _. apply back_linked_val_next.
    + apply (chain_agree next (heap s)); [|done].
      intros a Ha. apply back_linked_outside. intros Hin.
      apply (Hd1 a Ha). apply elem_of_app. left. by right.
    + apply (back_linked_chain_prev rest (heap s) p []); [done| |].
      * destruct (Hu p ltac:(left)) as (n & Hn & Hprev).
        split; [done|]. by exists n.
      * by rewrite <- Permutation_cons_append.
  - (* AtGetTail, empty *)
    destruct Hwk as [Hc _]. apply chain_nil in Hc. subst lw.
    injection Hbody as <- <-.
    apply (timeline_frame L lq s); try done. simpl. by destruct f.
  - (* AtLock *)
    destruct (log_stream_mutex s); simpl in Hbody; [done|].
    injection Hbody as <- <-.
    rewrite (timeline_at L lq lw s Hinv), Hw.
    by rewrite (timeline_chains _ lq lw).
  - (* AtWrite, a node left *)
    destruct lw as [|p' l']; [done|].
    destruct Hwk as [[= <-] (n & Hn & Hc)].
    unfold dump_iter in Hbody. rewrite Hn in Hbody.
    cbn [bind fst snd] in Hbody.
    pose proof (written_out (val n) Returns s) as Hwo.
    destruct (written_frame (val n) Returns s)
      as (Hwh & _ & Hwhd & _ & Hww & _).
    remember (written (val n) Returns s) as ws eqn:Hws. clear Hws.
    injection Hbody as <- <-.
    pose proof Hnd0 as Hnd1.
    apply NoDup_app in Hnd1 as (Hq & Hd1 & Hwp).
    apply NoDup_app in Hwp as (Hnd & Hd2 & Hps).
    apply NoDup_cons in Hnd as [Hpl Hnd].
    assert (Hag : forall a, a ∈ lq ++ l' ->
              delete p (heap s) !! a = heap s !! a).
    { intros a Ha. apply lookup_delete_ne. intros <-.
      apply elem_of_app in Ha as [Ha|Ha]; [|done].
      apply (Hd1 p Ha). apply elem_of_app. left. by left. }
    rewrite (timeline_at L lq (p :: l') s Hinv), Hw.
    rewrite (timeline_chains _ lq l'); cbn [heap head out worker set_worker set_heap];
      rewrite ?Hwh, ?Hwhd.
    + rewrite Hwo, fmap_app, <- app_assoc, vals_cons, Hn.
      cbn [write_order fmap list_fmap snd app].
      rewrite (vals_agree (heap s) (delete p (heap s)) l').
      2:{ intros a Ha. f_equal. apply Hag. apply elem_of_app. by right. }
      rewrite (vals_agree (heap s) (delete p (heap s)) lq).
      2:{ intros a Ha. f_equal. apply Hag. apply elem_of_app. by left. }
      done.
    + apply (chain_agree next (heap s)); [|done].
      intros a Ha. apply Hag. apply elem_of_app. by left.
    + apply (chain_agree prev (heap s)); [|done].
      intros a Ha. apply Hag. apply elem_of_app. by right.
  - (* AtWrite, done *)
    apply chain_nil in Hwk. subst lw. injection Hbody as <- <-.
    apply (timeline_frame L lq s); try done. simpl. by destruct f.
Qed.

(** Steps that leave the linked and the held nodes, the head, the
    thread and the output as they are. *)
Lemma timeline_frame_nodes L lq lw s s' :
  inv_at L lq lw s ->
  (forall a, a ∈ lq ++ lw -> heap s' !! a = heap s !! a) ->
  head s' = head s -> out s' = out s -> worker s' = worker s ->
  timeline s' = timeline s.
Proof.
  intros Hinv Hag Hhd Ho Hw.
  rewrite (timeline_at L lq lw s Hinv).
  destruct Hinv as [Hq _ Hwk _ _ _ _ _ _].
  rewrite (timeline_chains s' lq lw).
  - rewrite Ho, Hw.
    rewrite (vals_agree (heap s) (heap s') lw).
    2:{ intros a Ha. f_equal. apply Hag. apply elem_of_app. by right. }
    rewrite (vals_agree (heap s) (heap s') lq).
    2:{ intros a Ha. f_equal. apply Hag. apply elem_of_app. by left. }
    done.
  - rewrite Hhd. apply (chain_agree next (heap s)); [|done].
    intros a Ha. apply Hag. apply elem_of_app. by left.
  - rewrite Hw. apply (worker_chain_agree (heap s)); [|done].
    intros a Ha. apply Hag. apply elem_of_app. by right.
Qed.

Lemma step_timeline L s a s' :
  inv L s -> quiet_action a = true -> step a s = Ok s' ->
  timeline s' = timeline s ++ linked_by a s.
Proof.
  intros (lq & lw & Hinv) Hq.
  pose proof (fun a => inv_at_below L lq lw s a Hinv) as Hlt.
  pose proof Hinv as [Hque Hqun Hwk Hpu Hnd0 Hdom0 Hleak Hbrk Hmx].
  destruct a as [level msg ts|p sp|name open_ok close| | |close|sp o];
    simpl step; cbn [linked_by]; rewrite ?app_nil_r.
  - (* a call enters Log *)
    unfold Log_enter. destruct (_ || _ || _).
    { intros [= <-]. by apply (timeline_frame_nodes L lq lw s). }
    destruct (level >=? current_level s).
    2:{ intros [= <-]. by apply (timeline_frame_nodes L lq lw s). }
    destruct (severity_to_str level) as [nm|]; [|done].
    unfold push_begin. cbn [bind snd]. intros [= <-].
    apply (timeline_frame_nodes L lq lw s); try done.
    intros a Ha. simpl. apply lookup_insert_ne. intros <-.
    assert (brk s < brk s)%nat; [|lia]. apply Hlt.
    apply elem_of_app in Ha as [Ha|Ha]; apply elem_of_app; [by left|right].
    apply elem_of_app. by left.
  - (* an exchange of push *)
    case_bool_decide as Hp; [|done].
    destruct (Hpu p Hp) as (n & Hn & Hprev).
    pose proof (fun a => pushing_apart lq lw (pushing s) p a Hnd0 Hp) as Hne.
    unfold push_cas. rewrite Hn. unfold compare_exchange_weak.
    destruct sp; cbn [bind snd negb andb].
    { intros [= <-]. rewrite app_nil_r.
      apply (timeline_frame_nodes L lq lw s); try done.
      intros a Ha. simpl. apply lookup_insert_ne. intros <-. by apply (Hne p). }
    destruct (decide (head s = next n)) as [Heq|Hneq]; cbn [bind snd];
      intros [= <-].
    2:{ rewrite bool_decide_eq_false_2 by done. cbn [andb]. rewrite app_nil_r.
        apply (timeline_frame_nodes L lq lw s); try done.
        intros a Ha. simpl. apply lookup_insert_ne. intros <-. by apply (Hne p). }
    rewrite !bool_decide_eq_true_2 by done. cbn [andb].
    rewrite (timeline_at L lq lw s Hinv).
    assert (Hag : forall e a, a ∈ lq ++ lw ->
              <[p := set_next e n]> (heap s) !! a = heap s !! a).
    { intros e a Ha. apply lookup_insert_ne. intros <-. by apply (Hne p). }
    rewrite (timeline_chains _ (p :: lq) lw);
      cbn [heap head out worker set_pushing set_head set_heap].
    + rewrite vals_cons, lookup_insert_eq.
      rewrite (vals_agree (heap s) _ lw).
      2:{ intros a Ha. f_equal. apply Hag. apply elem_of_app. by right. }
      rewrite (vals_agree (heap s) _ lq).
      2:{ intros a Ha. f_equal. apply Hag. apply elem_of_app. by left. }
      simpl rev. by rewrite !app_assoc.
    + split; [done|]. exists (set_next (next n) n).
      split; [by rewrite lookup_insert_eq|]. simpl. rewrite <- Heq.
      apply (chain_agree next (heap s)); [|done].
      intros a Ha. apply Hag. apply elem_of_app. by left.
    + apply (worker_chain_agree (heap s)); [|done].
      intros a Ha. apply Hag. apply elem_of_app. by right.
  - (* SetLogFile *)
    intros Hs. apply SetLogFile_frame in Hs
      as (Hh & _ & Hhd & _ & Hw & _ & Ho & _).
    apply (timeline_frame_nodes L lq lw s); try done. intros a _. by rewrite Hh.
  - (* StartBackGroundThread *)
    unfold StartBackGroundThread. destruct (worker s) as [w|] eqn:Hw.
    { by intros [= <-]. }
    destruct (worker_mutex s); simpl; [done|]. intros [= <-].
    simpl in Hwk. subst lw. by apply (timeline_frame L lq s).
  - (* ExitLogger, first half *)
    unfold ExitLogger_enter. destruct (worker s) as [w|] eqn:Hw.
    2:{ by intros [= <-]. }
    destruct (worker_mutex s); simpl; [done|]. intros [= <-].
    by apply (timeline_frame_nodes L lq lw s).
  - (* ExitLogger, second half *)
    unfold ExitLogger_join. destruct (worker_mutex s); [|done].
    destruct (worker s) as [[]|] eqn:Hw; try done.
    destruct (SetLogFile EmptyString true close (set_worker None s))
      as [s1| | | |] eqn:Hs; try done.
    simpl. intros [= <-]. apply SetLogFile_frame in Hs
      as (Hh & _ & Hhd & _ & Hw1 & _ & Ho & _).
    simpl in Hwk. subst lw.
    apply (timeline_frame L lq s); try done. simpl. by rewrite Hw1.
  - (* the thread *)
    destruct o as [|e]; [|done].
    unfold get_it_done. destruct (worker s) as [w|] eqn:Hw; [|done].
    destruct (thread_body sp Returns w s) as [[w' s1]|[|]| | |] eqn:Hb;
      try done; try (by apply thread_body_no_raise in Hb).
    intros [= <-]. by apply (thread_body_timeline L lq lw s sp w).
Qed.

Lemma run_timeline tr : forall L s s',
  inv L s -> quiet tr = true -> run tr s = Ok s' ->
  timeline s' = timeline s ++ linearized tr s.
Proof.
  induction tr as [|a tr IH]; intros L s s' Hinv Hq.
  - intros [= <-]. simpl. by rewrite app_nil_r.
  - rewrite run_cons. apply quiet_cons in Hq as [Hq1 Hq2].
    destruct (step a s) as [s1| | | |] eqn:Hs; try done. cbn [bind]. intros Hr.
    destruct (step_inv L s a Hinv) as [Hb|(s1' & L1 & Hs' & Hinv1 & HL)];
      [congruence|].
    rewrite Hs in Hs'. injection Hs' as <-. rewrite (HL Hq1) in Hinv1.
    rewrite (IH L s1 s' Hinv1 Hq2 Hr), (step_timeline L s a s1 Hinv Hq1 Hs).
    cbn [linearized]. rewrite Hs. by rewrite app_assoc.
Qed.

End order.

(** X10.  Written in the order of the pushes.  Along any interleaving
    in which no stream insertion and no lock throws, the lines written so
    far, followed by the lines the thread holds and by the lines in the
    queue, oldest first, are exactly the lines of the pushes in the order
    in which their exchanges succeeded.  So the lines come out in that
    order, none overtaking another, passes and changes of destination
    notwithstanding; and once the queue is empty and no thread object is
    left, all of them have come out.  Two calls of [Log] by one thread,
    the second made after the first returned, are therefore written in
    the order of the calls. *)
Theorem written_in_push_order timeout level tr s :
  run tr (init timeout level) = Ok s ->
  quiet tr = true ->
  timeline s = linearized tr (init timeout level) /\
  (out s).*2 `prefix_of` linearized tr (init timeout level) /\
  (head s = None -> worker s = None ->
   (out s).*2 = linearized tr (init timeout level)).
Proof.
  intros Hrun Hq.
  pose proof (run_timeline tr ∅ _ s (init_inv timeout level) Hq Hrun) as Ht.
  change (timeline (init timeout level)) with (@nil string) in Ht.
  simpl in Ht. split; [done|]. split.
  - rewrite <- Ht. unfold timeline. by eexists.
  - intros Hh Hw. rewrite <- Ht. unfold timeline, held, queued.
    rewrite Hw, Hh. destruct (size (heap s)); simpl; by rewrite app_nil_r.
Qed.

Lemma written_in_push_order_witness :
  exists s,
    run (two_records ++ [AExit] ++ alone 8 ++ [AJoin Returns]) (init 0 1) = Ok s /\
    timeline s
    = linearized (two_records ++ [AExit] ++ alone 8 ++ [AJoin Returns]) (init 0 1) /\
    (out s).*2 `prefix_of`
      linearized (two_records ++ [AExit] ++ alone 8 ++ [AJoin Returns]) (init 0 1) /\
    (head s = None -> worker s = None ->
     (out s).*2
     = linearized (two_records ++ [AExit] ++ alone 8 ++ [AJoin Returns]) (init 0 1)).
Proof.
  eexists. split; [vm_compute; reflexivity|].
  apply (written_in_push_order 0 1); vm_compute; reflexivity.
Defined.

Section destinations.
Implicit Types (s : state).

Lemma sink_ok_mono names names' s :
  (forall x, x ∈ names -> x ∈ names') -> sink_ok names s -> sink_ok names' s.
Proof.
  intros Hsub [Hl Ho]. split.
  - intros f Hf. destruct (Hl f Hf). auto.
  - intros d line Hin. destruct (Ho d line Hin) as [?|(name & ? & ?)]; eauto.
Qed.

Lemma sink_ok_frame names s s' :
  log_stream s' = log_stream s -> out s' = out s ->
  sink_ok names s -> sink_ok names s'.
Proof. intros Hl Ho [H1 H2]. split; rewrite ?Hl, ?Ho; done. Qed.

Lemma step_sink_ok names s a s' :
  sink_ok names s -> step a s = Ok s' ->
  sink_ok (names ++ option_list (opened_by a)) s'.
Proof.
  intros Hok.
  assert (Hmono : forall t, sink_ok names t ->
            sink_ok (names ++ option_list (opened_by a)) t).
  { intros t. apply sink_ok_mono. intros x Hx. apply elem_of_app. by left. }
  destruct a as [level msg ts|p sp|name open_ok close| | |close|sp o];
    simpl step.
  - destruct (Log_enter level msg ts s) as [r| | | |] eqn:Hr; try done.
    cbn [bind]. intros [= <-].
    apply Log_enter_frame in Hr as (_ & _ & _ & _ & Hl & Ho & _).
    apply Hmono. by apply (sink_ok_frame names s).
  - case_bool_decide; [|done].
    destruct (push_cas sp p s) as [r| | | |] eqn:Hr; try done.
    cbn [bind]. intros [= <-].
    apply push_cas_frame in Hr as (_ & _ & _ & Hl & Ho & _).
    apply Hmono. by apply (sink_ok_frame names s).
  - intros Hs. pose proof (SetLogFile_frame _ _ _ _ _ Hs)
      as (_ & _ & _ & _ & _ & _ & Ho & _).
    destruct Hok as [Hl Hout]. split.
    + unfold SetLogFile in Hs. destruct (log_stream_mutex s); simpl in Hs; [done|].
      injection Hs as <-. simpl. intros f.
      destruct (decide (name = EmptyString)) as [->|Hne].
      * match goal with |- context [release_stream ?c ?g ?t] =>
          destruct (release_stream_frame c g t)
            as (_ & _ & _ & _ & _ & _ & -> & _) end. done.
      * destruct open_ok; simpl.
        -- match goal with |- context [release_stream ?c ?g ?t] =>
             destruct (release_stream_frame c g t)
               as (_ & _ & _ & _ & _ & _ & -> & _) end.
           simpl. intros [= <-]. simpl. split; [done|].
           apply elem_of_app. right. by left.
        -- unfold log_file_closer. simpl. intros Hf.
           destruct (Hl f Hf). split; [done|]. apply elem_of_app. by left.
    + rewrite Ho. intros d line Hin.
      destruct (Hout d line Hin) as [?|(nm & ? & ?)]; [by left|right].
      exists nm. split; [done|]. apply elem_of_app. by left.
  - unfold StartBackGroundThread. destruct (worker s).
    { intros [= <-]. by apply Hmono. }
    destruct (worker_mutex s); simpl; [done|]. intros [= <-].
    apply Hmono. by apply (sink_ok_frame names s).
  - unfold ExitLogger_enter. destruct (worker s).
    2:{ intros [= <-]. by apply Hmono. }
    destruct (worker_mutex s); simpl; [done|]. intros [= <-].
    apply Hmono. by apply (sink_ok_frame names s).
  - unfold ExitLogger_join. destruct (worker_mutex s); [|done].
    destruct (worker s) as [[]|]; try done.
    destruct (SetLogFile EmptyString true close (set_worker None s))
      as [s1| | | |] eqn:Hs; try done.
    simpl. intros [= <-]. rewrite app_nil_r.
    pose proof (SetLogFile_empty _ _ _ _ Hs) as Hl.
    apply SetLogFile_frame in Hs as (_ & _ & _ & _ & _ & _ & Ho & _).
    destruct Hok as [_ Hout]. split; simpl.
    + rewrite Hl. done.
    + by rewrite Ho.
  - unfold get_it_done. destruct (worker s) as [w|]; [|done].
    destruct (thread_body sp o w s) as [[w' s1]|[what|]| | |] eqn:Hb; try done.
    + intros [= <-]. rewrite app_nil_r.
      pose proof (thread_body_frame _ _ _ _ _ _ Hb) as (_ & _ & _ & _ & Hl & _).
      destruct Hok as [Hls Hout]. split; simpl; [by rewrite Hl|].
      destruct (thread_body_out _ _ _ _ _ _ Hb) as [Ho|[v Ho]]; rewrite Ho;
        [done|].
      intros d line Hin. apply elem_of_app in Hin as [Hin|Hin]; [by apply (Hout d line)|].
      apply list_elem_of_singleton in Hin. injection Hin as -> ->.
      unfold sink_of. destruct (log_stream s) as [f|] eqn:Hf; [|by left].
      destruct (Hls f eq_refl) as [-> Hn]. right. eauto.
    + intros [= <-]. apply Hmono. by apply (sink_ok_frame names s).
    + intros [= <-]. apply Hmono. by apply (sink_ok_frame names s).
Qed.

Lemma run_sink_ok tr : forall names s s',
  sink_ok names s -> run tr s = Ok s' -> sink_ok (names ++ opened tr) s'.
Proof.
  induction tr as [|a tr IH]; intros names s s' Hok.
  - intros [= <-]. unfold opened. simpl. by rewrite app_nil_r.
  - rewrite run_cons. destruct (step a s) as [s1| | | |] eqn:Hs; try done.
    cbn [bind]. intros Hr.
    pose proof (IH _ s1 s' (step_sink_ok names s a s1 Hok Hs) Hr) as Hok'.
    assert (opened (a :: tr) = option_list (opened_by a) ++ opened tr) as ->.
    { unfold opened. simpl. by destruct (opened_by a). }
    by rewrite app_assoc.
Qed.

End destinations.

Section in_files.
Implicit Types (s : state).

Lemma all_files_frame s s' : out s' = out s -> all_files s -> all_files s'.
Proof. unfold all_files. by intros ->. Qed.

Lemma stream_open_frame s s' :
  log_stream s' = log_stream s -> stream_open s -> stream_open s'.
Proof. unfold stream_open. by intros ->. Qed.

Lemma phase_inv_frame ph s s' :
  worker s' = worker s -> log_stream s' = log_stream s ->
  phase_inv ph s -> phase_inv ph s'.
Proof.
  intros Hw Hl. unfold phase_inv, stream_open. rewrite Hw, Hl. done.
Qed.

Lemma run_main_order tr : forall ph s s',
  phase_inv ph s -> all_files s ->
  run tr s = Ok s' -> main_order ph tr = true -> all_files s'.
Proof.
  induction tr as [|a tr IH]; intros ph s s' Hph Hall.
  - by intros [= <-].
  - rewrite run_cons. destruct (step a s) as [s1| | | |] eqn:Hs; try done.
    cbn [bind]. intros Hr Hord.
    destruct a as [level msg ts|p sp|name open_ok close| | |close|sp o].
    + simpl in Hs, Hord.
      destruct (Log_enter level msg ts s) as [r| | | |] eqn:Hl; try done.
      cbn [bind] in Hs. injection Hs as <-.
      apply Log_enter_frame in Hl as (Hw & _ & _ & _ & Hls & Ho & _).
      apply (IH ph r.2 s'); try done.
      * by apply (phase_inv_frame ph s).
      * by apply (all_files_frame s).
    + simpl in Hs, Hord. case_bool_decide; [|done].
      destruct (push_cas sp p s) as [r| | | |] eqn:Hl; try done.
      cbn [bind] in Hs. injection Hs as <-.
      apply push_cas_frame in Hl as (Hw & _ & _ & Hls & Ho & _).
      apply (IH ph r.2 s'); try done.
      * by apply (phase_inv_frame ph s).
      * by apply (all_files_frame s).
    + simpl in Hs. destruct ph; simpl in Hord; try done.
      apply andb_true_iff in Hord as [Hn Hord].
      apply andb_true_iff in Hn as [Hn ->].
      apply negb_true_iff, bool_decide_eq_false in Hn.
      destruct (SetLogFile_frame _ _ _ _ _ Hs)
        as (_ & _ & _ & _ & Hw & _ & Ho & _).
      refine (IH Opened s1 s' _ _ Hr Hord).
      * simpl in *. split; [by rewrite Hw|].
        unfold SetLogFile in Hs.
        destruct (log_stream_mutex s); simpl in Hs; [done|].
        injection Hs as <-. simpl. rewrite decide_False by done. simpl.
        match goal with |- context [release_stream ?c ?g ?t] =>
          destruct (release_stream_frame c g t)
            as (_ & _ & _ & _ & _ & _ & Hl & _) end.
        eexists. unfold stream_open. simpl. rewrite Hl. simpl. done.
      * by apply (all_files_frame s).
    + simpl in Hs. destruct ph; simpl in Hord; try done.
      destruct Hph as [Hw Hop]. unfold StartBackGroundThread in Hs.
      rewrite Hw in Hs. destruct (worker_mutex s); simpl in Hs; [done|].
      injection Hs as <-. refine (IH Running _ s' _ _ Hr Hord); [exact Hop|exact Hall].
    + simpl in Hs. destruct ph; simpl in Hord; try done.
      unfold ExitLogger_enter in Hs. destruct (worker s).
      * destruct (worker_mutex s); simpl in Hs; [done|].
        injection Hs as <-. refine (IH Stopping _ s' _ _ Hr Hord); [exact Hph|exact Hall].
      * injection Hs as <-. refine (IH Stopping _ s' _ _ Hr Hord); [exact Hph|exact Hall].
    + simpl in Hs. destruct ph; simpl in Hord; try done.
      unfold ExitLogger_join in Hs. destruct (worker_mutex s); [|done].
      destruct (worker s) as [[]|]; try done.
      destruct (SetLogFile EmptyString true close (set_worker None s))
        as [s2| | | |] eqn:Hs2; try done.
      simpl in Hs. injection Hs as <-.
      apply SetLogFile_frame in Hs2 as (_ & _ & _ & _ & Hw & _ & Ho & _).
      refine (IH Closed _ s' _ _ Hr Hord).
      * simpl. by rewrite Hw.
      * apply (all_files_frame s); [|done]. simpl. by rewrite Ho.
    + simpl in Hs, Hord. unfold get_it_done in Hs.
      destruct (worker s) as [w|] eqn:Hw.
      2:{ done. }
      assert (Hop : stream_open s).
      { destruct ph; simpl in Hph; try done; [congruence|].
        destruct Hph; congruence. }
      assert (Hall' : forall t, log_stream t = log_stream s ->
        (out t = out s \/ exists v, out t = out s ++ [(sink_of s, v)]) ->
        all_files t).
      { intros t _ [Ho|[v Ho]]; [by apply (all_files_frame s)|].
        intros d line. rewrite Ho. intros Hin.
        apply elem_of_app in Hin as [Hin|Hin]; [by apply (Hall d line)|].
        apply list_elem_of_singleton in Hin. injection Hin as -> ->.
        destruct Hop as (f & Hf & Hopen). unfold sink_of. rewrite Hf, Hopen.
        eauto. }
      assert (Hph' : forall t, log_stream t = log_stream s ->
        (worker t <> None) -> phase_inv ph t).
      { intros t Hl Hwt. destruct ph; simpl in *; try congruence.
        - destruct Hph. congruence.
        - by apply (stream_open_frame s).
        - by apply (stream_open_frame s). }
      destruct (thread_body sp o w s) as [[w' s2]|[what|]| | |] eqn:Hb;
        try done.
      * injection Hs as <-.
        pose proof (thread_body_frame _ _ _ _ _ _ Hb)
          as (_ & _ & _ & _ & Hl & _).
        refine (IH ph _ s' _ _ Hr Hord).
        -- by apply Hph'.
        -- apply Hall'; [done|]. apply (thread_body_out _ _ _ _ _ _ Hb).
      * injection Hs as <-. refine (IH ph _ s' _ _ Hr Hord).
        -- by apply Hph'.
        -- by apply (all_files_frame s).
      * injection Hs as <-. refine (IH ph _ s' _ _ Hr Hord).
        -- by apply Hph'.
        -- by apply (all_files_frame s).
Qed.

End in_files.

(** X11.  Where the lines go: in every reachable state the stream the
    logger keeps is open and was opened by a [SetLogFile] call of the
    run, and every line written is on the console or in a file that such
    a call opened; no line goes anywhere else, whatever throws. *)
Theorem destinations_were_set timeout level tr s :
  run tr (init timeout level) = Ok s ->
  (forall f, log_stream s = Some f ->
     is_open f = true /\ fname f ∈ opened tr) /\
  (forall d line, (d, line) ∈ out s ->
     d = Console \/ exists name, d = File name /\ name ∈ opened tr).
Proof.
  intros Hrun.
  assert (H0 : sink_ok [] (init timeout level)).
  { split; simpl; [done|]. intros d line Hin. by apply elem_of_nil in Hin. }
  exact (run_sink_ok tr [] _ s H0 Hrun).
Qed.

Lemma destinations_were_set_witness :
  exists s,
    run swap_after_pass (init 0 0) = Ok s /\
    out s = [(Console, "t1 Debug: a"); (Console, "t2 Info: b");
             (File "log_file1.txt", "t3 Error: c")] /\
    (forall d line, (d, line) ∈ out s ->
       d = Console \/ exists name, d = File name /\
         name ∈ opened swap_after_pass).
Proof.
  eexists. split; [vm_compute; reflexivity|]. split; [reflexivity|].
  refine (proj2 (destinations_were_set 0 0 swap_after_pass _ _)).
  vm_compute. reflexivity.
Defined.

(** X12.  With the calls in the order of [main] - [SetLogFile] with a
    file that opens, [StartBackGroundThread], [ExitLogger], and again,
    the producers logging all the while - the background thread never
    runs without an open file: every line written is in a file that a
    [SetLogFile] call of the run opened and none on the console; the
    second branch of [write] is never taken. *)
Theorem main_order_all_in_files timeout level tr s :
  run tr (init timeout level) = Ok s ->
  main_order Closed tr = true ->
  forall d line, (d, line) ∈ out s ->
    exists name, d = File name /\ name ∈ opened tr.
Proof.
  intros Hrun Hord d line Hin.
  assert (Hall : all_files s).
  { apply (run_main_order tr Closed (init timeout level) s); try done.
    intros d' l' Hin'. by apply elem_of_nil in Hin'. }
  destruct (Hall d line Hin) as [name ->].
  assert (H0 : sink_ok [] (init timeout level)).
  { split; simpl; [done|]. intros d' l' Hin'. by apply elem_of_nil in Hin'. }
  destruct (run_sink_ok tr [] _ s H0 Hrun) as [_ Hout].
  destruct (Hout _ _ Hin) as [?|(nm & [= <-] & Hnm)]; [done|]. eauto.
Qed.

Lemma main_order_all_in_files_witness :
  exists s,
    run main_start (init 0 0) = Ok s /\
    out s = [(File "log_file0.txt", "t0 Debug: Start Logging");
             (File "log_file0.txt", "t1 Info: x");
             (File "log_file1.txt", "t2 Info: y")] /\
    (forall d line, (d, line) ∈ out s ->
       exists name, d = File name /\ name ∈ opened main_start).
Proof.
  eexists. split; [vm_compute; reflexivity|]. split; [reflexivity|].
  refine (main_order_all_in_files 0 0 main_start _ _ _);
    vm_compute; reflexivity.
Defined.

Section harness.

Lemma length_append (a b : string) :
  String.length (a +:+ b) = (String.length a + String.length b)%nat.
Proof. induction a as [|c a IH]; simpl; [done|]. by rewrite <- IH. Qed.

Lemma has_nul_append (a b : string) :
  has_nul (a +:+ b) = has_nul a || has_nul b.
Proof.
  induction a as [|c a IH]; simpl; [done|].
  change (has_nul (a +:+ b)) with (has_nul (a +:+ b)).
  rewrite <- orb_assoc. f_equal. exact IH.
Qed.

Lemma strcpy_no_nul src : has_nul src = false -> strcpy src = src.
Proof.
  induction src as [|c r IH]; simpl; [done|].
  intros H. apply orb_false_iff in H as [-> H]. by rewrite IH.
Qed.

(** The bytes of a line of [Log] whose parts hold no NUL. *)
Lemma bytes_format ts name msg :
  stamp ts = true -> has_nul name = false -> has_nul msg = false ->
  bytes (format ts name msg) =
    23 + Z.of_nat (String.length name) + Z.of_nat (String.length msg).
Proof.
  unfold stamp. intros Hs Hn Hm. apply andb_true_iff in Hs as [Hl Hz].
  apply Nat.eqb_eq in Hl. apply negb_true_iff in Hz.
  unfold bytes, format. rewrite strcpy_no_nul.
  - rewrite !length_append, Hl. simpl String.length. lia.
  - rewrite !has_nul_append, Hz, Hn, Hm. done.
Qed.

(** Decimal numbers below 5000 hold no NUL. *)
Lemma pretty_no_nul n :
  (n < 5000)%nat -> has_nul (pretty (Z.of_nat n)) = false.
Proof.
  intros Hn.
  assert (H : forallb (fun n => negb (has_nul (pretty (Z.of_nat n))))
                (seq 0 5000) = true) by (vm_compute; reflexivity).
  rewrite forallb_forall in H. apply negb_true_iff, H.
  apply in_seq. lia.
Qed.

Lemma worker_message_length id i :
  String.length (worker_message id i) =
    (42 + String.length (pretty id) + String.length (pretty i))%nat.
Proof.
  unfold worker_message. rewrite !length_append. simpl String.length. lia.
Qed.

Lemma worker_farewell_length id :
  String.length (worker_farewell id) = (19 + String.length (pretty id))%nat.
Proof.
  unfold worker_farewell. rewrite !length_append. simpl String.length. lia.
Qed.

Lemma worker_message_no_nul id i :
  (id < 5000)%nat -> (i < 5000)%nat ->
  has_nul (worker_message (Z.of_nat id) (Z.of_nat i)) = false.
Proof.
  intros Hid Hi. unfold worker_message.
  rewrite !has_nul_append, !pretty_no_nul by done. done.
Qed.

Lemma worker_farewell_no_nul id :
  (id < 5000)%nat -> has_nul (worker_farewell (Z.of_nat id)) = false.
Proof.
  intros Hid. unfold worker_farewell.
  rewrite !has_nul_append, !pretty_no_nul by done. done.
Qed.

Lemma worker_message_nonempty id i : worker_message id i <> EmptyString.
Proof. done. Qed.

Lemma worker_farewell_nonempty id : worker_farewell id <> EmptyString.
Proof. done. Qed.

Lemma line_of_accepted T level msg ts name :
  Trace <= level <= Error -> msg <> EmptyString -> T <= level ->
  severity_to_str level = Some name ->
  line_of T (ALog level msg ts) = Some (format ts name msg).
Proof.
  intros Hl Hm HT Hn. unfold line_of.
  rewrite (proj2 (valid_args_spec level msg)) by done.
  rewrite (proj2 (Z.geb_le level T)) by lia. simpl. by rewrite Hn.
Qed.

Lemma accepted_loop T level id name ts (l : list nat) :
  Trace <= level <= Error -> T <= level ->
  severity_to_str level = Some name ->
  accepted T
    ((fun i => ALog level (worker_message id (Z.of_nat i)) (ts i)) <$> l) =
  (fun i => format (ts i) name (worker_message id (Z.of_nat i))) <$> l.
Proof.
  intros Hl HT Hn. induction l as [|i l IH]; [done|].
  rewrite !fmap_cons, accepted_cons, IH.
  by rewrite (line_of_accepted T level _ _ name).
Qed.

Lemma flat_map_cons {A B} (f : A -> list B) x (l : list A) :
  flat_map f (x :: l) = f x ++ flat_map f l.
Proof. reflexivity. Qed.

Lemma flat_map_length {A B} (f : A -> list B) (l : list A) n :
  (forall x, x ∈ l -> length (f x) = n) ->
  length (flat_map f l) = (length l * n)%nat.
Proof.
  induction l as [|x l IH]; intros Hl; [reflexivity|].
  rewrite flat_map_cons, length_app, IH, Hl.
  - simpl length. lia.
  - by left.
  - intros y Hy. apply Hl. by right.
Qed.

Lemma total_cons x (l : list Z) : total (x :: l) = x + total l.
Proof. done. Qed.

Lemma total_app (l k : list Z) : total (l ++ k) = total l + total k.
Proof.
  induction l as [|x l IH]; [done|].
  change ((x :: l) ++ k) with (x :: (l ++ k)). rewrite !total_cons, IH. lia.
Qed.

Lemma total_fmap_add {A} (g : A -> Z) a (l : list A) :
  total ((fun i => a + g i) <$> l) = a * Z.of_nat (length l) + total (g <$> l).
Proof.
  induction l as [|i l IH]; [simpl; lia|].
  rewrite !fmap_cons, !total_cons, IH. simpl length. lia.
Qed.

Lemma total_fmap_ext {A} (f g : A -> Z) (l : list A) :
  (forall i, i ∈ l -> f i = g i) ->
  total (f <$> l) = total (g <$> l).
Proof.
  intros H. f_equal. apply list_fmap_ext. intros k i Hk. apply H.
  by apply list_elem_of_lookup_2 in Hk.
Qed.

Lemma total_flat_map {A} (f : A -> list Z) (l : list A) :
  total (flat_map f l) = total ((fun x => total (f x)) <$> l).
Proof.
  induction l as [|x l IH]; [done|].
  by rewrite fmap_cons, total_cons, <- IH, flat_map_cons, total_app.
Qed.

Lemma accepted_flat_map {A} T (f : A -> list action) (l : list A) :
  accepted T (flat_map f l) = flat_map (fun x => accepted T (f x)) l.
Proof.
  induction l as [|x l IH]; [done|].
  by rewrite !flat_map_cons, accepted_app, IH.
Qed.

Lemma fmap_flat_map {A B C} (h : B -> C) (f : A -> list B) (l : list A) :
  h <$> flat_map f l = flat_map (fun x => h <$> f x) l.
Proof.
  induction l as [|x l IH]; [done|].
  by rewrite !flat_map_cons, fmap_app, IH.
Qed.

Lemma accepted_test_worker T N id level name ts :
  Trace <= level <= Error -> T <= level ->
  severity_to_str level = Some name ->
  accepted T (test_worker_loop N id level ts) =
    ((fun i => format (ts i) name (worker_message id (Z.of_nat i)))
       <$> seq 0 N) ++
    [format (ts N) name (worker_farewell id)].
Proof.
  intros Hl HT Hn. unfold test_worker_loop.
  rewrite accepted_app, (accepted_loop T level id name) by done.
  f_equal. rewrite accepted_cons.
  by rewrite (line_of_accepted T level _ _ name).
Qed.

(** The bytes of the lines of one [test_worker]. *)
Lemma test_worker_bytes id ts :
  (id < 50)%nat -> (forall i, stamp (ts i) = true) ->
  total (bytes <$> accepted Trace (test_worker (Z.of_nat id) Info ts)) =
    5001 * Z.of_nat (String.length (pretty (Z.of_nat id))) + 363936.
Proof.
  intros Hid Hts. unfold test_worker.
  rewrite (accepted_test_worker Trace 5000 _ Info "Info") by done.
  rewrite fmap_app, total_app, <- list_fmap_compose.
  rewrite (total_fmap_ext _
    (fun i => (69 + Z.of_nat (String.length (pretty (Z.of_nat id)))) +
               Z.of_nat (String.length (pretty (Z.of_nat i))))).
  2:{ intros i Hi. apply elem_of_seq in Hi. unfold compose.
      rewrite bytes_format; [|done|done|apply worker_message_no_nul; lia].
      rewrite worker_message_length. simpl String.length. lia. }
  rewrite (total_fmap_add
    (fun i => Z.of_nat (String.length (pretty (Z.of_nat i))))).
  rewrite length_seq.
  assert (total ((fun i => Z.of_nat (String.length (pretty (Z.of_nat i))))
            <$> seq 0 5000) = 18890) as -> by (vm_compute; reflexivity).
  rewrite list_fmap_singleton.
  change (total [?x]) with (x + 0).
  rewrite bytes_format; [|done|done|apply worker_farewell_no_nul; lia].
  rewrite worker_farewell_length. simpl String.length. lia.
Qed.

End harness.

(** X13.  The number in the comment of [main]: the lines of the calls of
    [Log] of [main] and of its fifty [test_worker] threads - one line of
    [main], 5001 of each thread, every call passing the checks of [Log]
    on a logger of level [Trace] - come to 18646931 bytes, whatever the
    time of each call, a newline after each line. *)
Theorem main_bytes_total t0 ts :
  stamp t0 = true -> (forall id i, stamp (ts id i) = true) ->
  Z.of_nat (length (accepted Trace (main_logs t0 ts))) = 250051 /\
  total (bytes <$> accepted Trace (main_logs t0 ts)) = 18646931.
Proof.
  intros H0 Hts. unfold main_logs.
  rewrite accepted_cons, accepted_flat_map.
  rewrite (line_of_accepted Trace Debug _ _ "Debug") by done.
  change (option_list (Some ?x) ++ ?l) with (x :: l). split.
  - rewrite length_cons, (flat_map_length _ _ (S 5000)), length_seq.
    { rewrite Nat2Z.inj_succ, Nat2Z.inj_mul, Nat2Z.inj_succ.
      vm_compute. reflexivity. }
    intros id _. unfold test_worker.
    rewrite (accepted_test_worker Trace 5000 _ Info "Info") by done.
    rewrite length_app, length_fmap, length_seq. reflexivity.
  - rewrite fmap_cons, total_cons, bytes_format by done.
    rewrite fmap_flat_map, total_flat_map.
    rewrite (total_fmap_ext _
      (fun id => 5001 * Z.of_nat (String.length (pretty (Z.of_nat id)))
                 + 363936)).
    2:{ intros id Hid. apply elem_of_seq in Hid.
        apply test_worker_bytes; [lia|done]. }
    vm_compute. reflexivity.
Qed.

Lemma main_bytes_total_witness :
  total (bytes <$> accepted Trace
    (main_logs "30.10.2026 12:00:00" (fun _ _ => "30.10.2026 12:00:01"))) =
  18646931.
Proof.
  refine (proj2 (main_bytes_total _ _ _ _)); [reflexivity|].
  intros id i. reflexivity.
Defined.

Section synchronous.
Implicit Types (s : state).

Lemma queued_chain s lq :
  chain next (heap s) (head s) lq -> queued s = vals (heap s) lq.
Proof. intros Hc. unfold queued. by apply walk_of_chain. Qed.

Lemma queued_empty s : head s = None -> queued s = [].
Proof. unfold queued. intros ->. by destruct (size (heap s)). Qed.

Lemma queued_agree lq s s' :
  chain next (heap s) (head s) lq ->
  (forall a, a ∈ lq -> heap s' !! a = heap s !! a) ->
  head s' = head s -> queued s' = queued s.
Proof.
  intros Hc Hag Hhd. rewrite (queued_chain s lq Hc).
  rewrite (queued_chain s' lq).
  - apply vals_agree. intros a Ha. by rewrite Hag.
  - rewrite Hhd. by apply (chain_agree next (heap s)).
Qed.

Lemma queued_same s s' :
  heap s' = heap s -> head s' = head s -> queued s' = queued s.
Proof. unfold queued. by intros -> ->. Qed.

(** A step of the thread empties the queue or leaves it alone. *)
Lemma thread_body_queued L lq lw s spurious w w' s1 :
  inv_at L lq lw s -> worker s = Some w ->
  thread_body spurious Returns w s = Ok (w', s1) ->
  head s1 = None \/ queued s1 = queued s.
Proof.
  intros Hinv Hw Hbody.
  pose proof Hinv as [Hque Hqun Hwk Hpu Hnd0 Hdom0 Hleak Hbrk Hmx].
  rewrite Hw in Hwk.
  assert (Hapart : forall a, a ∈ lq -> a ∉ lw).
  { intros a Ha Hin. apply NoDup_app in Hnd0 as (_ & Hd & _).
    apply (Hd a Ha). apply elem_of_app. by left. }
  destruct w as [| |f|f p|f [p|]|f t|f [p|]|]; simpl in Hbody, Hwk; try done.
  - injection Hbody as <- <-. by right.
  - injection Hbody as <- <-. by right.
  - injection Hbody as <- <-. by right.
  - unfold compare_exchange_weak in Hbody. destruct spurious.
    { injection Hbody as <- <-. right. by apply queued_same. }
    destruct (decide (head s = p)); injection Hbody as <- <-.
    + by left.
    + right. by apply queued_same.
  - destruct Hwk as [Hc Hu].
    destruct lw as [|p' rest]; [done|]. pose proof Hc as [[= <-] _].
    rewrite (get_tail_chain rest) in Hbody; [|done|].
    2:{ assert (length (p :: rest) <= size (heap s))%nat; [|simpl in *; lia].
        apply nodup_length_size.
        - apply NoDup_app in Hnd0 as (_ & _ & Hnd).
          by apply NoDup_app in Hnd as (Hnd & _).
        - intros a Ha. apply Hdom0. left.
          apply elem_of_app. right. apply elem_of_app. by left. }
    simpl in Hbody. injection Hbody as <- <-. right.
    apply (queued_agree lq s); try done.
    intros a Ha. simpl. apply back_linked_outside. intros Hin.
    apply (Hapart a Ha). by right.
  - injection Hbody as <- <-. by right.
  - destruct (log_stream_mutex s); simpl in Hbody; [done|].
    injection Hbody as <- <-. right. by apply queued_same.
  - destruct lw as [|p' l']; [done|].
    destruct Hwk as [[= <-] (n & Hn & Hc)].
    unfold dump_iter in Hbody. rewrite Hn in Hbody.
    cbn [bind fst snd] in Hbody.
    destruct (written_frame (val n) Returns s) as (Hwh & _ & Hwhd & _).
    remember (written (val n) Returns s) as ws eqn:Hws. clear Hws.
    injection Hbody as <- <-. right.
    apply (queued_agree lq s); [done| |simpl; by rewrite Hwhd].
    intros a Ha. simpl. rewrite Hwh. apply lookup_delete_ne. intros <-.
    apply (Hapart p Ha). by left.
  - injection Hbody as <- <-. right. by apply queued_same.
Qed.

(** The queue grows by the lines that are linked, and by nothing else. *)
Lemma step_queued L s a s' :
  inv L s -> quiet_action a = true -> step a s = Ok s' ->
  (length (queued s') <= length (queued s) + length (linked_by a s))%nat.
Proof.
  intros (lq & lw & Hinv) Hq.
  pose proof (fun a => inv_at_below L lq lw s a Hinv) as Hlt.
  pose proof Hinv as [Hque Hqun Hwk Hpu Hnd0 Hdom0 Hleak Hbrk Hmx].
  assert (Hsame : forall t, queued t = queued s ->
    (length (queued t) <= length (queued s) + length (linked_by a s))%nat).
  { intros t ->. lia. }
  destruct a as [level msg ts|p sp|name open_ok close| | |close|sp o];
    simpl step.
  - unfold Log_enter. destruct (_ || _ || _).
    { intros [= <-]. by apply Hsame. }
    destruct (level >=? current_level s).
    2:{ intros [= <-]. by apply Hsame. }
    destruct (severity_to_str level) as [nm|]; [|done].
    unfold push_begin. cbn [bind snd]. intros [= <-].
    apply Hsame, (queued_agree lq s); try done.
    intros a Ha. simpl. apply lookup_insert_ne. intros <-.
    assert (brk s < brk s)%nat; [|lia]. apply Hlt.
    apply elem_of_app. by left.
  - case_bool_decide as Hp; [|done].
    destruct (Hpu p Hp) as (n & Hn & Hprev).
    pose proof (fun a => pushing_apart lq lw (pushing s) p a Hnd0 Hp) as Hne.
    assert (Hag : forall e a, a ∈ lq ->
              <[p := set_next e n]> (heap s) !! a = heap s !! a).
    { intros e a Ha. apply lookup_insert_ne. intros <-.
      apply (Hne p); [|done]. apply elem_of_app. by left. }
    unfold push_cas. rewrite Hn. unfold compare_exchange_weak.
    destruct sp; cbn [bind snd negb andb].
    { intros [= <-]. apply Hsame, (queued_agree lq s); try done.
      intros a Ha. simpl. by apply Hag. }
    destruct (decide (head s = next n)) as [Heq|Hneq]; cbn [bind snd];
      intros [= <-].
    2:{ apply Hsame, (queued_agree lq s); try done.
        intros a Ha. simpl. by apply Hag. }
    cbn [linked_by]. rewrite Hn.
    rewrite !bool_decide_eq_true_2 by done. cbn [negb andb].
    rewrite (queued_chain s lq Hque).
    rewrite (queued_chain _ (p :: lq)).
    + cbn [heap set_pushing set_head set_heap].
      rewrite vals_cons, lookup_insert_eq.
      rewrite (vals_agree (heap s) _ lq).
      2:{ intros a Ha. f_equal. by apply Hag. }
      simpl. lia.
    + cbn [heap head set_pushing set_head set_heap].
      split; [done|]. exists (set_next (next n) n).
      split; [by rewrite lookup_insert_eq|]. simpl. rewrite <- Heq.
      apply (chain_agree next (heap s)); [|done].
      intros a Ha. by apply Hag.
  - intros Hs. apply SetLogFile_frame in Hs as (Hh & _ & Hhd & _).
    by apply Hsame, queued_same.
  - unfold StartBackGroundThread. destruct (worker s) as [w|] eqn:Hw.
    { intros [= <-]. by apply Hsame. }
    destruct (worker_mutex s); simpl; [done|]. intros [= <-].
    by apply Hsame, queued_same.
  - unfold ExitLogger_enter. destruct (worker s) as [w|] eqn:Hw.
    2:{ intros [= <-]. by apply Hsame. }
    destruct (worker_mutex s); simpl; [done|]. intros [= <-].
    by apply Hsame, queued_same.
  - unfold ExitLogger_join. destruct (worker_mutex s); [|done].
    destruct (worker s) as [[]|] eqn:Hw; try done.
    destruct (SetLogFile EmptyString true close (set_worker None s))
      as [s1| | | |] eqn:Hs; try done.
    simpl. intros [= <-]. apply SetLogFile_frame in Hs as (Hh & _ & Hhd & _).
    by apply Hsame, queued_same.
  - destruct o as [|e]; [|done].
    unfold get_it_done. destruct (worker s) as [w|] eqn:Hw; [|done].
    destruct (thread_body sp Returns w s) as [[w' s1]|[|]| | |] eqn:Hb;
      try done; try (by apply thread_body_no_raise in Hb).
    intros [= <-].
    destruct (thread_body_queued L lq lw s sp w w' s1 Hinv Hw Hb) as [Hn|He].
    + rewrite (queued_empty (set_worker (Some w') s1)) by done. simpl. lia.
    + apply Hsame. by rewrite <- He.
Qed.

(** What is written or in the hands of the thread never gets less. *)
Lemma step_settled L s a s' :
  inv L s -> quiet_action a = true -> step a s = Ok s' ->
  (length (out s) + length (held s) <= length (out s') + length (held s'))%nat.
Proof.
  intros Hinv Hq Hs.
  pose proof (step_timeline L s a s' Hinv Hq Hs) as Ht.
  pose proof (step_queued L s a s' Hinv Hq Hs) as Hl.
  apply (f_equal length) in Ht. unfold timeline in Ht.
  rewrite !length_app, !length_fmap, !length_rev in Ht. lia.
Qed.

(** The step after which the last look at the queue is behind the
    thread is the exchange that empties it. *)
Lemma thread_body_take spurious o w s w' s1 :
  thread_body spurious o w s = Ok (w', s1) ->
  before_last_take w = true -> before_last_take w' = false ->
  head s1 = None.
Proof.
  destruct w as [| |f|f p|f [p|]|f t|f [p|]|]; simpl thread_body; try done.
  - intros [= <- <-]. by destruct (shutdown s).
  - by intros [= <- <-].
  - by intros [= <- <-].
  - unfold compare_exchange_weak. destruct spurious; [by intros [= <- <-]|].
    destruct (decide (head s = p)); by intros [= <- <-].
  - destruct (get_tail (size (heap s)) p (heap s)) as [r| | | |]; try done.
    simpl. intros [= <- <-]. by destruct f.
  - intros [= <- <-]. by destruct f.
  - destruct (lock o (log_stream_mutex s)); try done. simpl.
    intros [= <- <-]. by destruct f.
  - destruct (dump_iter p o s) as [r| | | |]; try done. simpl.
    intros [= <- <-]. by destruct f.
  - intros [= <- <-]. by destruct f.
Qed.

Lemma step_winding_down L k s a s' :
  inv L s -> winding_down k s ->
  quiet_action a = true -> no_join_action a = true ->
  step a s = Ok s' -> winding_down k s'.
Proof.
  intros Hinv (Hsh & Hmx & Hk & w & Hw & Hor) Hq Hnj Hs.
  pose proof (step_timeline L s a s' Hinv Hq Hs) as Ht.
  pose proof (step_settled L s a s' Hinv Hq Hs) as Hm.
  assert (Hk' : (k <= length (timeline s'))%nat).
  { rewrite Ht, length_app. lia. }
  assert (Hkeep : shutdown s' = true -> worker_mutex s' = true ->
            worker s' = Some w -> winding_down k s').
  { intros ? ? ?. split_and!; try done. exists w. split; [done|].
    destruct Hor as [?|?]; [by left|right]. lia. }
  destruct a as [level msg ts|p sp|name open_ok close| | |close|sp o];
    simpl in Hs; try done.
  - destruct (Log_enter level msg ts s) as [r| | | |] eqn:Hr; try done.
    cbn [bind] in Hs. injection Hs as <-.
    apply Log_enter_frame in Hr as (Hw' & Hsh' & Hmx' & _).
    apply Hkeep; congruence.
  - case_bool_decide; [|done].
    destruct (push_cas sp p s) as [r| | | |] eqn:Hr; try done.
    cbn [bind] in Hs. injection Hs as <-.
    apply push_cas_frame in Hr as (Hw' & Hsh' & Hmx' & _).
    apply Hkeep; congruence.
  - apply SetLogFile_frame in Hs
      as (_ & _ & _ & _ & Hw' & _ & _ & Hsh' & Hmx' & _).
    apply Hkeep; congruence.
  - unfold StartBackGroundThread in Hs. rewrite Hw in Hs.
    injection Hs as <-. by apply Hkeep.
  - unfold ExitLogger_enter in Hs. rewrite Hw, Hmx in Hs. done.
  - destruct o as [|e]; [|done].
    unfold get_it_done in Hs. rewrite Hw in Hs.
    destruct (thread_body sp Returns w s) as [[w' s1]|[|]| | |] eqn:Hb;
      try done; try (by apply thread_body_no_raise in Hb).
    injection Hs as <-.
    pose proof (thread_body_frame _ _ _ _ _ _ Hb) as (Hsh' & Hmx' & _).
    split_and!; simpl; try congruence. exists w'. split; [done|].
    destruct (before_last_take w') eqn:Hb'; [by left|right].
    destruct Hor as [Hbw|Hge]; [|simpl in Hm; lia].
    pose proof (thread_body_take _ _ _ _ _ _ Hb Hbw Hb') as Hnone.
    unfold timeline in Hk'.
    rewrite (queued_empty (set_worker (Some w') s1)) in Hk' by done.
    rewrite !length_app, length_fmap in Hk'. simpl in Hk'. simpl. lia.
Qed.

Lemma run_winding_down tr : forall L k s s',
  inv L s -> winding_down k s ->
  quiet tr = true -> no_join tr = true ->
  run tr s = Ok s' -> winding_down k s' /\ inv L s'.
Proof.
  induction tr as [|a tr IH]; intros L k s s' Hinv Hwd Hq Hnj.
  - by intros [= <-].
  - rewrite run_cons. apply quiet_cons in Hq as [Hq1 Hq2].
    unfold no_join in Hnj. simpl in Hnj.
    apply andb_true_iff in Hnj as [Hn1 Hn2].
    destruct (step a s) as [s1| | | |] eqn:Hs; try done. cbn [bind]. intros Hr.
    destruct (step_inv L s a Hinv) as [Hb|(s1' & L1 & Hs' & Hinv1 & HL)];
      [congruence|].
    rewrite Hs in Hs'. injection Hs' as <-. rewrite (HL Hq1) in Hinv1.
    apply (IH L k s1 s'); try done.
    by apply (step_winding_down L k s a).
Qed.

Lemma prefix_by_length {A} (t x o y : list A) :
  t ++ x = o ++ y -> (length t <= length o)%nat -> t `prefix_of` o.
Proof.
  intros Heq Hl. exists (drop (length t) o).
  rewrite <- (take_drop (length t) o) at 1. f_equal.
  rewrite <- (take_app_le o y) by done.
  by rewrite <- Heq, take_app_length.
Qed.

End synchronous.

(** X14.  [ExitLogger] is synchronous.  It is called while the thread
    runs; producers go on logging, the thread goes on, no stream
    insertion and no lock throwing, until [join] returns.  Then every
    line whose push had taken effect before the call is written, in the
    order of the pushes - the lines of calls of [Log] that had returned,
    in particular. *)
Theorem ExitLogger_synchronous timeout level tr1 tr2 close s1 s :
  run tr1 (init timeout level) = Ok s1 ->
  worker s1 <> None ->
  run (AExit :: tr2 ++ [AJoin close]) s1 = Ok s ->
  quiet (tr1 ++ tr2) = true -> no_join tr2 = true ->
  linearized tr1 (init timeout level) `prefix_of` (out s).*2.
Proof.
  intros Hr1 Hw Hr2 Hq Hnj. apply quiet_app in Hq as [Hq1 Hq2].
  destruct (run_inv tr1 ∅ _ (init_inv timeout level))
    as [Hb|(s1' & L1 & Hr1' & Hinv1 & HL)]; [congruence|].
  rewrite Hr1 in Hr1'. injection Hr1' as <-. rewrite (HL Hq1) in Hinv1.
  assert (Hlife : life s1).
  { by apply (run_life tr1 (init timeout level)). }
  pose proof (run_timeline tr1 ∅ _ s1 (init_inv timeout level) Hq1 Hr1) as Ht1.
  change (timeline (init timeout level)) with (@nil string) in Ht1.
  simpl in Ht1. rewrite <- Ht1.
  rewrite run_cons in Hr2.
  destruct (step AExit s1) as [s2| | | |] eqn:Hs2; try done.
  cbn [bind] in Hr2. rewrite run_app in Hr2.
  destruct (run tr2 s2) as [s3| | | |] eqn:Hr3; try done.
  cbn [bind] in Hr2.
  destruct (step_inv ∅ s1 AExit Hinv1)
    as [Hb|(s2' & L2 & Hs2' & Hinv2 & HL2)]; [congruence|].
  rewrite Hs2 in Hs2'. injection Hs2' as <-. rewrite (HL2 eq_refl) in Hinv2.
  pose proof (step_timeline ∅ s1 AExit s2 Hinv1 eq_refl Hs2) as Ht2.
  simpl in Ht2. rewrite app_nil_r in Ht2.
  assert (Hwd : winding_down (length (timeline s1)) s2).
  { simpl in Hs2. unfold ExitLogger_enter in Hs2.
    destruct (worker s1) as [w|] eqn:Hw1; [|done].
    destruct (worker_mutex s1) eqn:Hm1; simpl in Hs2; [done|].
    injection Hs2 as <-.
    split; [done|]. split; [done|]. split; [by rewrite Ht2|].
    exists w. split; [done|]. left. apply loop_before_last_take.
    by apply (Hlife Hm1 w). }
  destruct (run_winding_down tr2 ∅ _ s2 s3 Hinv2 Hwd Hq2 Hnj Hr3)
    as [(_ & Hmx & Hk & w & Hw3 & Hor) Hinv3].
  simpl in Hr2. unfold ExitLogger_join in Hr2. rewrite Hmx, Hw3 in Hr2.
  destruct w; try done.
  destruct (SetLogFile EmptyString true close (set_worker None s3))
    as [s4| | | |] eqn:Hs4; try done.
  simpl in Hr2. injection Hr2 as <-.
  apply SetLogFile_frame in Hs4 as (_ & _ & _ & _ & _ & _ & Ho & _).
  simpl in Ho |- *. rewrite Ho.
  destruct Hor as [?|Hge]; [done|].
  pose proof (run_timeline tr2 ∅ s2 s3 Hinv2 Hq2 Hr3) as Ht3.
  rewrite Ht2 in Ht3. unfold timeline at 1 in Ht3.
  unfold held in Ht3, Hge. rewrite Hw3 in Ht3, Hge. simpl in Ht3, Hge.
  apply (prefix_by_length _ _ _ _ (eq_sym Ht3)).
  rewrite length_fmap. lia.
Qed.

Lemma ExitLogger_synchronous_witness :
  exists s,
    run (AExit :: stop_waits ++ [AJoin Returns])
      match run stop_called (init 0 0) with Ok s1 => s1 | _ => init 0 0 end
    = Ok s /\
    linearized stop_called (init 0 0) = ["t1 Debug: a"] /\
    (out s).*2 = ["t1 Debug: a"; "t2 Info: b"] /\
    linearized stop_called (init 0 0) `prefix_of` (out s).*2.
Proof.
  eexists. split; [vm_compute; reflexivity|].
  split; [vm_compute; reflexivity|]. split; [vm_compute; reflexivity|].
  refine (ExitLogger_synchronous 0 0 stop_called stop_waits Returns _ _
            _ _ _ _ _); vm_compute; (reflexivity || discriminate).
Defined.

(** X15.  The nodes.  Along any interleaving, whatever throws, no step
    reads or deletes a node that is not allocated - none is used after
    its [delete], none deleted twice - and the walk of [get_tail] ends:
    a run is only ever held up by a lock or by [join].  If moreover no
    stream insertion and no lock throws, every node of the store is
    linked in the queue, held by the thread or owned by a push under
    way; so once the queue is empty, the thread joined and no push under
    way, every node made by [push] has been deleted. *)
Theorem nodes_safe_and_released timeout level tr :
  (run tr (init timeout level) = Blocked \/
   exists s, run tr (init timeout level) = Ok s) /\
  (forall s, run tr (init timeout level) = Ok s -> quiet tr = true ->
     inv ∅ s /\
     (head s = None -> worker s = None -> pushing s = [] -> heap s = ∅)).
Proof.
  destruct (run_inv tr ∅ _ (init_inv timeout level))
    as [Hb|(s' & L & Hr & Hinv & HL)].
  - split; [by left|]. intros s Hs. congruence.
  - split; [right; by exists s'|]. intros s Hs Hq.
    rewrite Hr in Hs. injection Hs as <-. rewrite (HL Hq) in Hinv.
    split; [done|]. intros Hh Hw Hp.
    destruct Hinv as (lq & lw & [Hque _ Hwk _ _ Hdom _ _ _]).
    rewrite Hh in Hque. apply chain_nil in Hque. subst lq.
    rewrite Hw in Hwk. simpl in Hwk. subst lw. rewrite Hp in Hdom.
    apply map_empty. intros a. apply not_elem_of_dom. intros Ha.
    apply Hdom in Ha as [Ha|Ha]; [by apply elem_of_nil in Ha|].
    by apply elem_of_empty in Ha.
Qed.

Lemma nodes_safe_and_released_witness :
  exists s,
    run (two_records ++ [AExit] ++ alone 8 ++ [AJoin Returns]) (init 0 1)
      = Ok s /\
    length (out s) = 2%nat /\ heap s = ∅.
Proof.
  eexists. split; [vm_compute; reflexivity|]. split; [reflexivity|].
  refine (proj2 (proj2 (nodes_safe_and_released 0 1
    (two_records ++ [AExit] ++ alone 8 ++ [AJoin Returns])) _ _ _) _ _ _);
    vm_compute; reflexivity.
Defined.

(** * What the destinations hold *)

Section disk.
Implicit Types (s : state) (fs : list (string * list string)).

Lemma sink_of_name names s name :
  sink_ok names s -> sink_of s = File name -> name ∈ names.
Proof.
  intros [Hl _]. unfold sink_of.
  destruct (log_stream s) as [f|] eqn:Hf; [|done].
  destruct (Hl f eq_refl) as [-> Hn]. by intros [= <-].
Qed.

Lemma step_disk_ok names s a s' :
  disk_ok names s -> step a s = Ok s' ->
  disk_ok (names ++ option_list (opened_by a)) s'.
Proof.
  intros (Hsink & Hnd & Hkeys & Hsub) Hs.
  pose proof (step_sink_ok names s a s' Hsink Hs) as Hsink'.
  split; [done|].
  destruct (step_effect a s s' Hs)
    as [(Ho & Hf & Hop)|[(v & Hop & Ho & Hf)|(name & Hop & Ho & Hf)]];
    rewrite Hop in *; simpl; rewrite ?app_nil_r.
  - unfold holdings. rewrite Ho, Hf. done.
  - split_and!.
    + rewrite Hf. simpl. destruct (sink_of s) as [|name]; [done|]. simpl.
      apply NoDup_cons. split; [|by apply truncate_NoDup].
      intros Hin. by apply truncate_keys in Hin as [_ ?].
    + rewrite Hf. simpl. destruct (sink_of s) as [|name] eqn:Hd; [done|].
      simpl. intros n Hn. apply elem_of_cons in Hn as [->|Hn].
      * by apply (sink_of_name names s).
      * apply truncate_keys in Hn as [Hn _]. auto.
    + assert (holdings s' = holdings (put_out (sink_of s) v s)) as ->.
      { unfold holdings. by rewrite Ho, Hf. }
      rewrite holdings_put by done. rewrite Ho. simpl.
      rewrite fmap_app. simpl. by apply submseteq_app.
  - split_and!.
    + rewrite Hf. by apply truncate_NoDup.
    + rewrite Hf. intros n Hn. apply truncate_keys in Hn as [Hn _].
      apply elem_of_app. left. auto.
    + unfold holdings. rewrite Ho, Hf. etrans; [|exact Hsub].
      unfold holdings. apply submseteq_app; [done|].
      apply truncate_submseteq.
Qed.

Lemma step_disk_exact names s a s' :
  disk_ok names s -> disk_exact s ->
  (forall name, opened_by a = Some name -> name ∉ names) ->
  step a s = Ok s' -> disk_exact s'.
Proof.
  intros (Hsink & Hnd & Hkeys & Hsub) [Hperm Hfile] Hfresh Hs.
  destruct (step_effect a s s' Hs)
    as [(Ho & Hf & Hop)|[(v & Hop & Ho & Hf)|(name & Hop & Ho & Hf)]].
  - unfold disk_exact, holdings. rewrite Ho, Hf. done.
  - split.
    + assert (holdings s' = holdings (put_out (sink_of s) v s)) as ->.
      { unfold holdings. by rewrite Ho, Hf. }
      rewrite holdings_put by done. rewrite Ho. simpl.
      rewrite fmap_app. simpl. by f_equiv.
    + intros name. rewrite Hf, Ho. simpl. rewrite lines_at_snoc.
      destruct (sink_of s) as [|cur] eqn:Hd; simpl.
      * by rewrite app_nil_r.
      * destruct (decide (cur = name)) as [->|Hne].
        -- rewrite String.eqb_refl, decide_True by done. by rewrite Hfile.
        -- rewrite (proj2 (String.eqb_neq cur name)) by done.
           rewrite decide_False by congruence.
           rewrite app_nil_r, file_lines_truncate_ne by done. apply Hfile.
  - specialize (Hfresh name Hop).
    assert (name ∉ (files s).*1) as Habs by (intros Hin; by apply Hfresh, Hkeys).
    rewrite (truncate_absent name (files s) Habs) in Hf.
    unfold disk_exact, holdings. rewrite Ho, Hf. done.
Qed.

Lemma run_disk_ok tr : forall names s s',
  disk_ok names s -> run tr s = Ok s' -> disk_ok (names ++ opened tr) s'.
Proof.
  induction tr as [|a tr IH]; intros names s s' Hok.
  - intros [= <-]. unfold opened. simpl. by rewrite app_nil_r.
  - rewrite run_cons. destruct (step a s) as [s1| | | |] eqn:Hs; try done.
    cbn [bind]. intros Hr. rewrite opened_cons, app_assoc.
    apply (IH _ s1 s'); [|done]. by apply (step_disk_ok names s a).
Qed.

Lemma run_disk_exact tr : forall names s s',
  disk_ok names s -> disk_exact s -> NoDup (names ++ opened tr) ->
  run tr s = Ok s' -> disk_exact s'.
Proof.
  induction tr as [|a tr IH]; intros names s s' Hok Hex Hnd.
  - by intros [= <-].
  - rewrite run_cons. destruct (step a s) as [s1| | | |] eqn:Hs; try done.
    cbn [bind]. intros Hr. rewrite opened_cons, app_assoc in Hnd.
    apply (IH (names ++ option_list (opened_by a)) s1 s'); try done.
    + by apply (step_disk_ok names s a).
    + apply (step_disk_exact names s a); try done.
      intros name Hop. rewrite Hop in Hnd. simpl in Hnd.
      apply NoDup_app in Hnd as (Hnd & _). apply NoDup_app in Hnd as (_ & Hd & _).
      intros Hin. apply (Hd name Hin). by left.
Qed.

Lemma init_disk timeout level :
  disk_ok [] (init timeout level) /\ disk_exact (init timeout level).
Proof.
  split.
  - split_and!; simpl.
    + split; [done|]. intros d line Hin. by apply elem_of_nil in Hin.
    + apply NoDup_nil_2.
    + intros n Hn. by apply elem_of_nil in Hn.
    + done.
  - split; [done|]. intros name. done.
Qed.

End disk.

(** * A stop that joins a running thread *)

Section drained.
Implicit Types (s : state).

(** [ExitLogger] is called while a thread runs and no push is under way,
    and no [Log] call is made until it returns: then the queue is empty
    and every node released. *)
Lemma stop_drains tr2 close s1 s2 :
  inv ∅ s1 -> life s1 -> pushing s1 = [] -> worker s1 <> None ->
  quiet tr2 = true -> no_log tr2 = true ->
  run (AExit :: tr2 ++ [AJoin close]) s1 = Ok s2 ->
  inv ∅ s2 /\ heap s2 = ∅ /\ head s2 = None /\ worker s2 = None /\
  pushing s2 = [].
Proof.
  intros Hinv1 Hlife1 Hpush Hwork Hq2 Hnolog Hrun2.
  assert (Hq : quiet (AExit :: tr2 ++ [AJoin close]) = true).
  { apply quiet_cons. split; [done|]. apply quiet_app. split; [done|done]. }
  destruct (run_inv (AExit :: tr2 ++ [AJoin close]) ∅ s1 Hinv1)
    as [Hb|(s2' & L2 & Hr & Hinv2 & HL2)];
    [rewrite Hrun2 in Hb; done|].
  rewrite Hrun2 in Hr. injection Hr as <-. rewrite (HL2 Hq) in Hinv2.
  pose proof Hrun2 as Hsteps. rewrite run_cons in Hsteps.
  destruct (step AExit s1) as [sa| | | |] eqn:Hexit; try done.
  cbn [bind] in Hsteps. rewrite run_app in Hsteps.
  destruct (run tr2 sa) as [sb| | | |] eqn:Htr2; try done.
  cbn [bind] in Hsteps. rewrite run_cons in Hsteps.
  destruct (step (AJoin close) sb) as [sc| | | |] eqn:Hjoin; try done.
  cbn [bind run] in Hsteps. injection Hsteps as ->.
  assert (settling sa) as Hsa.
  { simpl in Hexit. unfold ExitLogger_enter in Hexit.
    destruct (worker s1) as [w|] eqn:Hw; [|done].
    destruct (worker_mutex s1) eqn:Hm; simpl in Hexit; [done|].
    injection Hexit as <-. split; [done|]. intros _. exists w.
    split; [done|]. apply loop_before_last_take. by apply (Hlife1 Hm w). }
  assert (settling sb) as Hsb by (by apply (run_settling tr2 sa)).
  assert (settling s2) as [Hp2 Hh2] by (by apply (step_settling sb (AJoin close))).
  assert (worker s2 = None) as Hw2 by (by apply (ExitLogger_join_worker close sb)).
  assert (head s2 = None) as Hhead.
  { destruct (head s2) eqn:Hh; [|done].
    destruct Hh2 as (w & Hw & _); [done | congruence]. }
  split_and!; try done. by apply inv_empty.
Qed.

(** The lines written are the accepted lines when nothing is left in the
    store. *)
Lemma written_when_empty T timeout tr s :
  run tr (init timeout T) = Ok s -> quiet tr = true -> heap s = ∅ ->
  (out s).*2 ≡ₚ accepted T tr.
Proof.
  intros Hrun Hq Hheap.
  destruct (run_account tr ∅ _ s (init_inv timeout T) Hrun) as (_ & _ & Hacc).
  specialize (Hacc Hq). simpl in Hacc.
  unfold pending in Hacc. rewrite Hheap in Hacc. unfold payloads in Hacc.
  simpl in Hacc. rewrite !map_to_list_empty in Hacc. simpl in Hacc.
  by rewrite app_nil_r in Hacc.
Qed.

Lemma reached timeout level tr s :
  run tr (init timeout level) = Ok s -> quiet tr = true ->
  inv ∅ s /\ life s.
Proof.
  intros Hrun Hq. split.
  - destruct (run_inv tr ∅ _ (init_inv timeout level))
      as [Hb|(s' & L & Hr & Hinv & HL)]; [congruence|].
    rewrite Hrun in Hr. injection Hr as <-. by rewrite (HL Hq) in Hinv.
  - by apply (run_life tr (init timeout level)).
Qed.

End drained.

(** C1, as stated, fails.  On a logger whose thread was never started
    a record is accepted and [ExitLogger] returns at once: the record is
    still in the queue and nothing has been written.  And with a thread
    running: a line is written to a file, the file is opened a second
    time, the logger is stopped; the line was written once, and no
    destination holds it. *)
Lemma record_lost_without_thread :
  (exists s,
     run never_started (init 0 1) = Ok s /\
     accepted 1 never_started = ["t1 Debug: a"] /\
     worker s = None /\ worker_mutex s = false /\
     out s = [] /\ holdings s = [] /\ pending s = ["t1 Debug: a"]) /\
  (exists s s',
     run opened_twice (init 0 1) = Ok s /\
     worker s = Some AtSleep /\ pushing s = [] /\
     run (AExit :: alone 8 ++ [AJoin Returns]) s = Ok s' /\
     accepted 1 opened_twice = ["t1 Debug: a"] /\
     out s' = [(File "log.txt", "t1 Debug: a")] /\
     files s' = [] /\ holdings s' = []).
Proof.
  split.
  - eexists. vm_compute. split_and!; reflexivity.
  - eexists _, _. vm_compute. split_and!; reflexivity.
Qed.

(** C1, amended.  Let [Log] calls and anything else be interleaved in
    any way ([tr1]), with no stream insertion failing and no lock
    throwing; let all [Log] calls have returned and a thread be running
    when [ExitLogger] is called, and let no [Log] call be made until it
    returns ([tr2]).  Then the lines written are, as a multiset, exactly
    the lines of the accepted [Log] calls: none is lost, none is written
    twice; every node has been released.  What the console and the files
    hold are lines of accepted calls, none twice; and if no file was
    opened a second time, they hold every accepted line, each file the
    lines that were written to it.  And along any interleaving
    whatsoever no step touches a node that is not allocated. *)
Theorem no_loss_no_duplication timeout level tr1 tr2 close s0 s1 s2 :
  Logger_new timeout level = Ok s0 ->
  run tr1 s0 = Ok s1 ->
  pushing s1 = [] ->
  worker s1 <> None ->
  quiet (tr1 ++ tr2) = true ->
  no_log tr2 = true ->
  run (AExit :: tr2 ++ [AJoin close]) s1 = Ok s2 ->
  (out s2).*2 ≡ₚ accepted level tr1 /\
  heap s2 = ∅ /\ head s2 = None /\ worker s2 = None /\
  holdings s2 ⊆+ accepted level tr1 /\
  (NoDup (opened (tr1 ++ tr2)) ->
   holdings s2 ≡ₚ accepted level tr1 /\
   forall name, file_lines name (files s2) = lines_at (File name) (out s2)) /\
  (forall tr, run tr s0 <> Fault /\ run tr s0 <> OutOfFuel /\
              forall e, run tr s0 <> Raise e).
Proof.
  intros Hnew Hrun1 Hpush Hwork Hquiet Hnolog Hrun2.
  apply Logger_new_init in Hnew. subst s0.
  apply quiet_app in Hquiet as [Hq1 Hq2].
  destruct (reached timeout level tr1 s1 Hrun1 Hq1) as [Hinv1 Hlife1].
  destruct (stop_drains tr2 close s1 s2 Hinv1 Hlife1 Hpush Hwork Hq2 Hnolog Hrun2)
    as (Hinv2 & Hheap & Hhead & Hw2 & Hp2).
  set (whole := tr1 ++ AExit :: tr2 ++ [AJoin close]).
  assert (Hrun : run whole (init timeout level) = Ok s2).
  { unfold whole. rewrite run_app, Hrun1. done. }
  assert (Hq : quiet whole = true).
  { unfold whole. apply quiet_app. split; [done|]. apply quiet_cons.
    split; [done|]. apply quiet_app. by split. }
  assert (Hacc : accepted level whole = accepted level tr1).
  { unfold whole. rewrite accepted_app, accepted_cons, accepted_app. simpl.
    rewrite (accepted_no_log level tr2 Hnolog). unfold accepted. simpl.
    by rewrite app_nil_r. }
  assert (Hopen : opened whole = opened (tr1 ++ tr2)).
  { unfold whole. rewrite !opened_app, opened_cons, opened_app. simpl.
    unfold opened at 3. simpl. by rewrite app_nil_r. }
  pose proof (written_when_empty level timeout whole s2 Hrun Hq Hheap) as Hout.
  rewrite Hacc in Hout.
  destruct (init_disk timeout level) as [Hok0 Hex0].
  pose proof (run_disk_ok whole [] _ s2 Hok0 Hrun) as (_ & _ & _ & Hsub).
  split; [done|]. split; [done|]. split; [done|]. split; [done|].
  split; [by rewrite <- Hout|]. split.
  - intros Hnd.
    assert (disk_exact s2) as [Hperm Hfile].
    { apply (run_disk_exact whole [] (init timeout level)); try done.
      simpl. by rewrite Hopen. }
    split; [by rewrite Hperm|done].
  - intros tr.
    destruct (run_inv tr ∅ _ (init_inv timeout level))
      as [->|(s' & L' & -> & _)]; done.
Qed.

Lemma no_loss_no_duplication_witness :
  exists s1 s2,
    run (ASetLogFile "log.txt" true Returns :: two_records) (init 0 1) = Ok s1 /\
    run (AExit :: alone 8 ++ [AJoin Returns]) s1 = Ok s2 /\
    files s2 = [("log.txt", ["t1 Debug: a"; "t2 Info: b"])] /\
    (out s2).*2 ≡ₚ ["t1 Debug: a"; "t2 Info: b"] /\
    heap s2 = ∅ /\
    holdings s2 ≡ₚ ["t1 Debug: a"; "t2 Info: b"].
Proof.
  eexists _, _. split; [vm_compute; reflexivity|].
  split; [vm_compute; reflexivity|]. split; [reflexivity|].
  match goal with |- context [heap ?t = ∅] =>
    destruct (no_loss_no_duplication 0 1
                (ASetLogFile "log.txt" true Returns :: two_records)
                (alone 8) Returns (init 0 1)
                (match run (ASetLogFile "log.txt" true Returns :: two_records)
                         (init 0 1) with Ok s => s | _ => init 0 1 end) t)
      as (Hout & Hheap & _ & _ & _ & Hhold & _) end;
    try (vm_compute; reflexivity); [discriminate|].
  split; [exact Hout|]. split; [exact Hheap|].
  apply Hhold. vm_compute. repeat constructor; set_solver.
Defined.

(** C5, as stated, fails: a record of the severity of the threshold is
    accepted and put in the queue of a logger that is never started;
    [ExitLogger] returns, and the record has not appeared. *)
Lemma boundary_record_not_written :
  exists s,
    Log 1 1 "m" "t" (init 0 1) = Ok s /\
    head s = Some 0%nat /\ pending s = ["t Debug: m"] /\
    run [AExit] s = Ok s /\ out s = [] /\ holdings s = [].
Proof. eexists. vm_compute. split_and!; reflexivity. Qed.

(** C5, amended.  On a logger of threshold [T], a [Log] call with valid
    arguments links a node holding its line if its severity is at least
    [T] (equality included) and changes nothing if it is below; every
    line ever written comes from a [Log] call of severity at least [T];
    and the line of a call of severity at least [T] has been written
    whenever the queue is empty, no push under way and the thread
    joined, no stream insertion having failed and no lock thrown: in
    particular when an [ExitLogger] has returned that was called with
    the thread running and every push done. *)
Theorem Log_threshold T timeout tr s level msg ts :
  run tr (init timeout T) = Ok s ->
  valid_args level msg = true ->
  (T <= level ->
   exists name s',
     severity_to_str level = Some name /\
     Log 1 level msg ts s = Ok s' /\
     head s' = Some (brk s) /\
     heap s' = <[brk s := mk_node (format ts name msg) None (head s)]> (heap s) /\
     out s' = out s /\ cerr s' = cerr s /\
     pending s' ≡ₚ format ts name msg :: pending s) /\
  (level < T ->
   Log 1 level msg ts s = Ok s /\ step (ALog level msg ts) s = Ok s) /\
  (forall d line, (d, line) ∈ out s ->
   exists level' msg' ts' name',
     ALog level' msg' ts' ∈ tr /\ T <= level' /\
     valid_args level' msg' = true /\
     severity_to_str level' = Some name' /\ line = format ts' name' msg') /\
  (forall name rest s',
     T <= level -> severity_to_str level = Some name ->
     run (ALog level msg ts :: rest) s = Ok s' ->
     quiet (tr ++ rest) = true ->
     head s' = None -> worker s' = None -> pushing s' = [] ->
     exists d, (d, format ts name msg) ∈ out s') /\
  (forall name rest tr2 close s1 s2,
     T <= level -> severity_to_str level = Some name ->
     run (ALog level msg ts :: rest) s = Ok s1 ->
     pushing s1 = [] -> worker s1 <> None ->
     quiet (tr ++ rest ++ tr2) = true -> no_log tr2 = true ->
     run (AExit :: tr2 ++ [AJoin close]) s1 = Ok s2 ->
     exists d, (d, format ts name msg) ∈ out s2).
Proof.
  intros Hrun Hvalid.
  pose proof (init_inv timeout T) as Hinit.
  destruct (run_inv tr ∅ _ Hinit) as [Hb|(s1 & L & Hr & (lq & lw & Hinv) & _)];
    [congruence|].
  rewrite Hrun in Hr. injection Hr as <-.
  destruct (run_account tr ∅ _ s Hinit Hrun) as (Hlevel & Hsub & _).
  simpl in Hlevel, Hsub.
  assert (Hcond : (level <? Trace) || (Error <? level)
                  || bool_decide (msg = EmptyString) = false).
  { unfold valid_args in Hvalid. by apply negb_true_iff in Hvalid. }
  assert (Hline : forall name rest, T <= level ->
            severity_to_str level = Some name ->
            format ts name msg
            ∈ accepted T (tr ++ ALog level msg ts :: rest)).
  { intros name rest Hge Hname. rewrite accepted_app, accepted_cons.
    apply elem_of_app. right. apply elem_of_app. left.
    unfold line_of. rewrite Hvalid, Hname.
    rewrite (proj2 (Z.geb_le level T)) by lia. simpl. by left. }
  assert (Hwritten : forall name rest s', T <= level ->
            severity_to_str level = Some name ->
            run (tr ++ ALog level msg ts :: rest) (init timeout T) = Ok s' ->
            quiet (tr ++ ALog level msg ts :: rest) = true ->
            heap s' = ∅ ->
            exists d, (d, format ts name msg) ∈ out s').
  { intros name rest s' Hge Hname Hr Hq Hheap.
    pose proof (written_when_empty T timeout _ s' Hr Hq Hheap) as Hperm.
    pose proof (Hline name rest Hge Hname) as Hin.
    rewrite <- Hperm in Hin.
    apply list_elem_of_fmap in Hin as ([d l] & -> & Hin). by exists d. }
  split_and!.
  - intros Hge.
    destruct (severity_to_str_in_range level) as [name Hname].
    { by apply (valid_args_spec level msg). }
    exists name. unfold Log, Log_enter. rewrite Hcond, Hlevel.
    assert ((level >=? T) = true) as -> by (apply Z.geb_le; lia).
    rewrite Hname. unfold push_begin. cbn [bind fst snd push_spin].
    unfold push_cas. cbn [heap set_pushing set_heap set_brk].
    rewrite lookup_insert_eq. unfold compare_exchange_weak.
    cbn [head next set_pushing set_heap set_brk].
    rewrite decide_True by done. cbn [bind fst snd].
    eexists. split; [done|]. split; [done|]. simpl.
    split; [done|]. split; [by rewrite insert_insert_eq|].
    split; [done|]. split; [done|].
    unfold pending. simpl. rewrite insert_insert_eq.
    apply payloads_insert_fresh. apply not_elem_of_dom.
    intros Hin. destruct Hinv as [_ _ _ _ _ _ _ Hbrk _]. apply Hbrk in Hin. lia.
  - intros Hlt. unfold Log, step, Log_enter. rewrite Hcond, Hlevel.
    assert ((level >=? T) = false) as ->; [|done].
    apply not_true_is_false. intros Hge. apply Z.geb_le in Hge. lia.
  - intros d line Hin.
    assert (line ∈ accepted T tr) as Hacc.
    { assert (line ∈ (out s).*2 ++ pending s) as Hl.
      { apply elem_of_app. left. apply list_elem_of_fmap. by exists (d, line). }
      pose proof (elem_of_submseteq _ _ _ Hl Hsub) as Hl'.
      unfold pending, payloads in Hl'. simpl in Hl'.
      by rewrite map_to_list_empty in Hl'. }
    unfold accepted in Hacc. apply list_elem_of_omap in Hacc as (a & Ha & Hline').
    destruct a as [level' msg' ts'| | | | | |]; simpl in Hline'; try done.
    destruct (valid_args level' msg') eqn:Hv; simpl in Hline'; [|done].
    destruct (level' >=? T) eqn:Hge; [|done].
    destruct (severity_to_str level') as [name'|] eqn:Hn; [|done].
    injection Hline' as <-. exists level', msg', ts', name'.
    split_and!; try done. apply Z.geb_le in Hge. lia.
  - intros name rest s' Hge Hname Hr Hq Hh Hw Hp.
    apply quiet_app in Hq as [Hq1 Hq2].
    assert (Hq' : quiet (tr ++ ALog level msg ts :: rest) = true).
    { apply quiet_app. split; [done|]. by apply quiet_cons. }
    assert (Hr' : run (tr ++ ALog level msg ts :: rest) (init timeout T) = Ok s').
    { by rewrite run_app, Hrun. }
    apply (Hwritten name rest s'); try done.
    destruct (reached timeout T _ s' Hr' Hq') as [Hinv' _].
    by apply inv_empty.
  - intros name rest tr2 close s1 s2 Hge Hname Hr Hp Hw Hq Hnl Hstop.
    apply quiet_app in Hq as [Hq1 Hq2]. apply quiet_app in Hq2 as [Hq2 Hq3].
    assert (Hq' : quiet (tr ++ ALog level msg ts :: rest) = true).
    { apply quiet_app. split; [done|]. by apply quiet_cons. }
    assert (Hr' : run (tr ++ ALog level msg ts :: rest) (init timeout T) = Ok s1).
    { by rewrite run_app, Hrun. }
    destruct (reached timeout T _ s1 Hr' Hq') as [Hinv1 Hlife1].
    destruct (stop_drains tr2 close s1 s2 Hinv1 Hlife1 Hp Hw Hq3 Hnl Hstop)
      as (_ & Hheap & _).
    assert (Hwhole : run (tr ++ ALog level msg ts ::
                            (rest ++ AExit :: tr2 ++ [AJoin close]))
                       (init timeout T) = Ok s2).
    { rewrite app_comm_cons, app_assoc, run_app, Hr'. done. }
    apply (Hwritten name (rest ++ AExit :: tr2 ++ [AJoin close]) s2);
      try done.
    apply quiet_app. split; [done|]. apply quiet_cons. split; [done|].
    apply quiet_app. split; [done|]. apply quiet_cons. split; [done|].
    apply quiet_app. by split.
Qed.

Lemma Log_threshold_witness :
  exists s2,
    run (AExit :: alone 7 ++ [AJoin Returns])
      match run [ALog 1 "m" "t"; ACas 0%nat false]
              (set_worker (Some AtWhile) (init 0 1)) with
      | Ok s1 => s1
      | _ => init 0 1
      end = Ok s2 /\
    out s2 = [(Console, "t Debug: m")] /\
    exists d, (d, format "t" "Debug" "m") ∈ out s2.
Proof.
  eexists. split; [vm_compute; reflexivity|]. split; [reflexivity|].
  destruct (Log_threshold 1 0 [AStart] (set_worker (Some AtWhile) (init 0 1))
              1 "m" "t") as (_ & _ & _ & _ & Hstop);
    [reflexivity | reflexivity |].
  apply (Hstop "Debug" [ACas 0%nat false] (alone 7) Returns
           match run [ALog 1 "m" "t"; ACas 0%nat false]
                   (set_worker (Some AtWhile) (init 0 1)) with
           | Ok s1 => s1
           | _ => init 0 1
           end);
    try (vm_compute; reflexivity); try lia; discriminate.
Defined.
